(** * Verification of the RAG core: vector store, embedding cache and
      retrieval / ingestion orchestration

    The development embeds the JavaScript services
    [services/qdrant.js] (QdrantService), [services/redis.js]
    (RedisService, embedding cache part), [services/embeddings.js]
    (EmbeddingsService) and [services/rag.js] (RAGService) as Rocq
    functions and proves the properties claimed about them.

    JavaScript numbers are IEEE 754 binary64 values: they are modelled by
    Rocq's primitive floats, whose operations are the hardware ones, so
    that rounding, underflow, overflow and NaN behave as in the program. *)

From Stdlib Require Import ZArith NArith List Floats Lia Bool String Ascii Sorted.
From stdpp Require Import base gmap strings.
Import ListNotations.

(** ** Facts about binary64 arithmetic

    Everything here is derived from the specification of the primitive
    floats ([SpecFloat], [FloatAxioms]). *)
Module Binary64.

Local Open Scope Z_scope.

(** The float specification is written with the core library's integer
    operations; [zfold] restates them with the [Z] module's names, which
    the arithmetic tactics know. *)
Ltac zfold :=
  change IntDef.Z.add with Z.add in *;
  change IntDef.Z.sub with Z.sub in *;
  change IntDef.Z.mul with Z.mul in *;
  change IntDef.Z.opp with Z.opp in *;
  change IntDef.Z.max with Z.max in *;
  change IntDef.Z.min with Z.min in *;
  change IntDef.Z.leb with Z.leb in *;
  change IntDef.Z.eqb with Z.eqb in *;
  change IntDef.Z.compare with Z.compare in *;
  change IntDef.Z.div2 with Z.div2 in *;
  change IntDef.Z.shiftl with Z.shiftl in *;
  change IntDef.Z.sqrtrem with Z.sqrtrem in *;
  change PosDef.Pos.mul with Pos.mul in *;
  change PosDef.Pos.compare_cont with Pos.compare_cont in *.

Lemma digits2_pos_bounds (m : positive) :
  2 ^ (Zpos (digits2_pos m) - 1) <= Zpos m < 2 ^ Zpos (digits2_pos m).
Proof.
  induction m as [m IH | m IH |]; simpl digits2_pos.
  - rewrite Pos2Z.inj_succ.
    replace (Z.succ (Zpos (digits2_pos m)) - 1) with (Z.succ (Zpos (digits2_pos m) - 1)) by lia.
    rewrite !Z.pow_succ_r by lia. lia.
  - rewrite Pos2Z.inj_succ.
    replace (Z.succ (Zpos (digits2_pos m)) - 1) with (Z.succ (Zpos (digits2_pos m) - 1)) by lia.
    rewrite !Z.pow_succ_r by lia. lia.
  - simpl. lia.
Qed.

Lemma iter_xO_pow (d m : positive) : Zpos (Pos.iter xO m d) = Zpos m * 2 ^ Zpos d.
Proof.
  induction d as [| d IH] using Pos.peano_ind.
  - simpl. lia.
  - rewrite Pos.iter_succ, Pos2Z.inj_succ, Z.pow_succ_r by lia.
    rewrite Pos2Z.inj_xO, IH. lia.
Qed.

(** Aligning a mantissa to a smaller exponent multiplies it by the power of two. *)
Lemma shl_align_value (m : positive) (e e' : Z) :
  e' <= e -> Zpos (fst (shl_align m e e')) = Zpos m * 2 ^ (e - e').
Proof.
  intros Hle. unfold shl_align.
  destruct (e' - e) as [| p | p] eqn:E; simpl fst.
  - replace (e - e') with 0 by lia. simpl. lia.
  - lia.
  - rewrite iter_xO_pow. f_equal. f_equal. lia.
Qed.

Lemma shl_align_exp (m : positive) (e e' : Z) :
  snd (shl_align m e e') = Z.min e e'.
Proof.
  unfold shl_align. destruct (e' - e) eqn:E; simpl snd; lia.
Qed.

Lemma iter_pos_nat {A} (f : A -> A) (p : positive) (x : A) :
  SpecFloat.iter_pos f p x = Nat.iter (Pos.to_nat p) f x.
Proof.
  revert x. induction p as [p IH | p IH |]; intros x; simpl SpecFloat.iter_pos.
  - rewrite !IH, Pos2Nat.inj_xI.
    replace (S (2 * Pos.to_nat p))%nat with (Pos.to_nat p + (Pos.to_nat p + 1))%nat by lia.
    rewrite !Nat.iter_add. reflexivity.
  - rewrite !IH, Pos2Nat.inj_xO.
    replace (2 * Pos.to_nat p)%nat with (Pos.to_nat p + Pos.to_nat p)%nat by lia.
    rewrite Nat.iter_add. reflexivity.
  - reflexivity.
Qed.

Lemma shr_1_pos (m : positive) (r s : bool) :
  1 < Zpos (digits2_pos m) ->
  exists m' r' s', shr_1 (Build_shr_record (Zpos m) r s) = Build_shr_record (Zpos m') r' s'
                   /\ Zpos (digits2_pos m') = Zpos (digits2_pos m) - 1.
Proof.
  intros H. destruct m as [m | m |]; cbn [digits2_pos] in *.
  - exists m, true, (r || s)%bool. split; [reflexivity | rewrite Pos2Z.inj_succ; lia].
  - exists m, false, (r || s)%bool. split; [reflexivity | rewrite Pos2Z.inj_succ; lia].
  - lia.
Qed.

Lemma iter_shr_1_pos (n : nat) (m : positive) (r s : bool) :
  Z.of_nat n < Zpos (digits2_pos m) ->
  exists m' r' s', Nat.iter n shr_1 (Build_shr_record (Zpos m) r s) = Build_shr_record (Zpos m') r' s'
                   /\ Zpos (digits2_pos m') = Zpos (digits2_pos m) - Z.of_nat n.
Proof.
  induction n as [| n IH]; intros H.
  - exists m, r, s. split; [reflexivity | lia].
  - destruct IH as (m1 & r1 & s1 & E1 & D1); [lia |].
    simpl Nat.iter. rewrite E1.
    destruct (shr_1_pos m1 r1 s1) as (m2 & r2 & s2 & E2 & D2); [lia |].
    exists m2, r2, s2. split; [exact E2 | lia].
Qed.

Lemma digits2_pos_mono (a b : positive) :
  Zpos a <= Zpos b -> Zpos (digits2_pos a) <= Zpos (digits2_pos b).
Proof.
  intros H. pose proof (digits2_pos_bounds a) as [La _].
  pose proof (digits2_pos_bounds b) as [_ Ub].
  assert (Hlt : 2 ^ (Zpos (digits2_pos a) - 1) < 2 ^ Zpos (digits2_pos b)) by lia.
  apply Z.pow_lt_mono_r_iff in Hlt; lia.
Qed.

(** The magnitude of a finite value: the number of digits of its mantissa
    plus its exponent. An infinity is beyond every magnitude. *)
Definition magnitude_ge (k : Z) (x : spec_float) : Prop :=
  match x with
  | S754_finite _ m e => k <= Zpos (digits2_pos m) + e
  | S754_infinity _ => True
  | _ => False
  end.

Definition signed (s : bool) (x : spec_float) : Prop :=
  (exists m e, x = S754_finite s m e) \/ x = S754_infinity s.

(** Shifting a positive mantissa down to its canonical exponent keeps the
    magnitude; above the least magnitude nothing underflows to zero. *)
Lemma shr_fexp_pos (m : positive) (e : Z) (l : location) :
  emin < Zpos (digits2_pos m) + e ->
  exists mrs e' m',
    shr_fexp prec emax (Zpos m) e l = (mrs, e')
    /\ shr_m mrs = Zpos m'
    /\ Zpos (digits2_pos m') + e' = Zpos (digits2_pos m) + e.
Proof.
  intros He. unfold shr_fexp, shr.
  set (n := fexp prec emax (Zdigits2 (Zpos m) + e) - e).
  assert (Hn : n < Zpos (digits2_pos m)).
  { subst n. unfold fexp, SpecFloat.emin, prec, emax in *. simpl Zdigits2. zfold. lia. }
  assert (Hrec : exists r s, shr_record_of_loc (Zpos m) l = Build_shr_record (Zpos m) r s).
  { destruct l as [| []]; simpl; eauto. }
  destruct Hrec as (r & s & ->).
  destruct n as [| p | p] eqn:En.
  - eexists _, _, m. repeat split.
  - rewrite iter_pos_nat.
    destruct (iter_shr_1_pos (Pos.to_nat p) m r s) as (m' & r' & s' & E & D).
    { rewrite positive_nat_Z. lia. }
    rewrite E. eexists _, _, m'. split; [reflexivity |]. split; [reflexivity |].
    rewrite positive_nat_Z in D. zfold. lia.
  - eexists _, _, m. repeat split.
Qed.

Lemma round_nearest_even_pos (m : positive) (l : location) :
  exists m', round_nearest_even (Zpos m) l = Zpos m' /\ Zpos m <= Zpos m'.
Proof.
  destruct l as [| []]; simpl; try (exists m; split; [reflexivity | lia]).
  - destruct m; simpl; eexists; split; try reflexivity; lia.
  - eexists. split; [reflexivity | lia].
Qed.

(** Rounding keeps the sign and does not lower the magnitude. *)
Lemma binary_round_aux_magnitude (s : bool) (m : positive) (e : Z) (l : location) :
  emin < Zpos (digits2_pos m) + e ->
  signed s (binary_round_aux prec emax s (Zpos m) e l)
  /\ magnitude_ge (Zpos (digits2_pos m) + e) (binary_round_aux prec emax s (Zpos m) e l).
Proof.
  intros He. unfold binary_round_aux.
  destruct (shr_fexp_pos m e l He) as (mrs1 & e1 & m1 & -> & Hm1 & D1).
  rewrite Hm1.
  destruct (round_nearest_even_pos m1 (loc_of_shr_record mrs1)) as (m2 & -> & Hle).
  apply digits2_pos_mono in Hle.
  destruct (shr_fexp_pos m2 e1 loc_Exact) as (mrs3 & e3 & m3 & -> & -> & D3); [lia |].
  destruct (e3 <=? emax - prec).
  - split; [left; eauto |]. simpl. lia.
  - split; [right; reflexivity | exact I].
Qed.

Lemma binary_round_aux_signed (s : bool) (m : positive) (e : Z) (l : location) :
  emin <= e -> signed s (binary_round_aux prec emax s (Zpos m) e l).
Proof.
  intros He. apply binary_round_aux_magnitude.
  pose proof (Pos2Z.is_pos (digits2_pos m)). lia.
Qed.

Lemma binary_round_signed (s : bool) (m : positive) (e : Z) :
  emin <= e -> signed s (binary_round prec emax s m e).
Proof.
  intros He. unfold binary_round.
  destruct (shl_align m e _) as [mz ez] eqn:E.
  apply binary_round_aux_signed.
  pose proof (shl_align_exp m e (fexp prec emax (Zpos (digits2_pos m) + e))) as Hs.
  rewrite E in Hs. simpl in Hs. subst ez.
  unfold fexp, SpecFloat.emin, prec, emax in *. zfold. lia.
Qed.

Lemma canonical_digits (m : positive) (e : Z) :
  bounded prec emax m e = true ->
  emin <= e /\ Zpos (digits2_pos m) <= prec /\ (emin < e -> Zpos (digits2_pos m) = prec).
Proof.
  unfold bounded, canonical_mantissa, fexp, SpecFloat.emin, prec, emax.
  intros H. apply andb_true_iff in H. destruct H as [H _].
  zfold. apply Z.eqb_eq in H. lia.
Qed.

(** On canonical mantissas, ordering by exponent first agrees with the
    ordering of the values aligned to the smaller exponent. *)
Lemma magnitude_compare (mx my : positive) (ex ey : Z) :
  bounded prec emax mx ex = true -> bounded prec emax my ey = true ->
  match ex ?= ey with
  | Lt => Lt
  | Gt => Gt
  | Eq => Pos.compare_cont Eq mx my
  end
  = (Zpos (fst (shl_align mx ex (Z.min ex ey))) ?= Zpos (fst (shl_align my ey (Z.min ex ey)))).
Proof.
  intros Bx By.
  destruct (canonical_digits _ _ Bx) as (Hex & Hdx & Hnx).
  destruct (canonical_digits _ _ By) as (Hey & Hdy & Hny).
  rewrite !shl_align_value by lia.
  change emin with (-1074) in *. change prec with 53 in *.
  pose proof (digits2_pos_bounds mx) as [Lx Ux].
  pose proof (digits2_pos_bounds my) as [Ly Uy].
  assert (Htop : forall d : Z, 0 < d -> d <= 53 -> 2 ^ d <= 2 ^ 53)
    by (intros; apply Z.pow_le_mono_r; lia).
  assert (Hsh : forall k : Z, 0 < k -> 2 <= 2 ^ k).
  { intros k Hk. change 2 with (2 ^ 1) at 1. apply Z.pow_le_mono_r; lia. }
  assert (Hhalf : 2 * 2 ^ (53 - 1) = 2 ^ 53) by reflexivity.
  destruct (Z.compare_spec ex ey) as [E | E | E].
  - subst ey. rewrite Z.min_id, Z.sub_diag. simpl.
    rewrite !Pos.mul_1_r. reflexivity.
  - rewrite Z.min_l by lia. rewrite Z.sub_diag, Z.pow_0_r, Z.mul_1_r.
    symmetry. apply Z.compare_lt_iff.
    assert (Hd : Z.pos (digits2_pos my) = 53) by (apply Hny; clear - Hex E; lia).
    rewrite Hd in Ly.
    specialize (Htop _ (Pos2Z.is_pos _) Hdx). specialize (Hsh (ey - ex) ltac:(lia)).
    nia.
  - rewrite Z.min_r by lia. rewrite Z.sub_diag, Z.pow_0_r, Z.mul_1_r.
    symmetry. apply Z.compare_gt_iff.
    assert (Hd : Z.pos (digits2_pos mx) = 53) by (apply Hnx; clear - Hey E; lia).
    rewrite Hd in Lx.
    specialize (Htop _ (Pos2Z.is_pos _) Hdy). specialize (Hsh (ex - ey) ltac:(lia)).
    nia.
Qed.

Lemma SFcompare_finite (sx sy : bool) (mx my : positive) (ex ey : Z) :
  bounded prec emax mx ex = true -> bounded prec emax my ey = true ->
  SFcompare (S754_finite sx mx ex) (S754_finite sy my ey)
  = Some (cond_Zopp sx (Zpos (fst (shl_align mx ex (Z.min ex ey))))
          ?= cond_Zopp sy (Zpos (fst (shl_align my ey (Z.min ex ey))))).
Proof.
  intros Bx By. pose proof (magnitude_compare mx my ex ey Bx By) as H.
  unfold SFcompare. f_equal. zfold.
  set (X := Zpos (fst (shl_align mx ex (Z.min ex ey)))) in *.
  set (Y := Zpos (fst (shl_align my ey (Z.min ex ey)))) in *.
  destruct sx, sy; unfold cond_Zopp.
  - rewrite Z.compare_opp, (Z.compare_antisym X Y), <- H.
    destruct (ex ?= ey); reflexivity.
  - reflexivity.
  - reflexivity.
  - exact H.
Qed.

Lemma binary_normalize_pos (d e : Z) :
  emin <= e ->
  SFltb (S754_zero false) (binary_normalize prec emax d e false) = (0 <? d).
Proof.
  intros He. destruct d as [| p | p]; simpl binary_normalize.
  - reflexivity.
  - destruct (binary_round_signed false p e He) as [(m & e' & ->) | ->]; reflexivity.
  - destruct (binary_round_signed true p e He) as [(m & e' & ->) | ->]; reflexivity.
Qed.

(** The sign of a difference decides the order of its operands, for every
    pair of binary64 values, the special ones included. *)
Lemma SFsub_pos (x y : spec_float) :
  valid_binary x = true -> valid_binary y = true ->
  SFltb (S754_zero false) (SFsub prec emax y x) = SFltb x y.
Proof.
  intros Vx Vy.
  destruct x as [sx | sx | | sx mx ex], y as [sy | sy | | sy my ey];
    try reflexivity;
    try (destruct sx; try destruct sy; reflexivity);
    try (destruct sy; reflexivity).
  simpl in Vx, Vy. unfold SFsub.
  destruct (canonical_digits _ _ Vx) as (Hex & _).
  destruct (canonical_digits _ _ Vy) as (Hey & _).
  rewrite binary_normalize_pos by lia.
  unfold SFltb. rewrite (SFcompare_finite sx sy mx my ex ey Vx Vy).
  rewrite (Z.min_comm ey ex).
  set (X := cond_Zopp sx _). set (Y := cond_Zopp sy _).
  destruct (Z.compare_spec X Y); destruct (Z.ltb_spec 0 (Y - X)); try reflexivity; lia.
Qed.


Lemma SFcompare_antisym (x y : spec_float) :
  SFcompare y x = option_map CompOpp (SFcompare x y).
Proof.
  destruct x as [sx | sx | | sx mx ex], y as [sy | sy | | sy my ey];
    try reflexivity;
    try (destruct sx; try destruct sy; reflexivity);
    try (destruct sy; reflexivity).
  unfold SFcompare, option_map. zfold. f_equal.
  rewrite (Z.compare_antisym ex ey).
  change (Pos.compare_cont Eq my mx) with (Pos.compare_cont (CompOpp Eq) my mx).
  rewrite <- (Pos.compare_cont_antisym mx my Eq).
  destruct sx, sy, (ex ?= ey); simpl; try reflexivity.
  all: destruct (Pos.compare_cont Eq mx my); reflexivity.
Qed.

(** Values that compare equal to a common value compare equal. *)
Lemma SFcompare_Eq_trans (x y z : spec_float) :
  SFcompare x z = Some Eq -> SFcompare y z = Some Eq -> SFcompare x y = Some Eq.
Proof.
  destruct x as [sx | sx | | sx mx ex], y as [sy | sy | | sy my ey],
           z as [sz | sz | | sz mz ez];
    try discriminate; try reflexivity;
    try (destruct sx; try destruct sy; try destruct sz; simpl; congruence);
    try (destruct sy; try destruct sz; simpl; congruence).
  unfold SFcompare. zfold. intros Hx Hy.
  assert (Hfin : forall (s1 s2 : bool) (m1 m2 : positive) (e1 e2 : Z),
             Some (match s1, s2 with
                   | true, false => Lt
                   | false, true => Gt
                   | false, false =>
                       match e1 ?= e2 with
                       | Lt => Lt | Gt => Gt | Eq => Pos.compare_cont Eq m1 m2
                       end
                   | true, true =>
                       match e1 ?= e2 with
                       | Lt => Gt | Gt => Lt | Eq => CompOpp (Pos.compare_cont Eq m1 m2)
                       end
                   end) = Some Eq -> s1 = s2 /\ m1 = m2 /\ e1 = e2).
  { intros s1 s2 m1 m2 e1 e2 H. injection H as H.
    destruct s1, s2; try discriminate;
      destruct (Z.compare_spec e1 e2); try discriminate;
      destruct (Pos.compare_cont Eq m1 m2) eqn:E; try discriminate;
      apply Pos.compare_eq in E; auto. }
  apply Hfin in Hx as (-> & -> & ->). apply Hfin in Hy as (-> & -> & ->).
  rewrite Z.compare_refl, (Pos.compare_cont_refl mz Eq). destruct sz; reflexivity.
Qed.

(** *** Sums of squares, square roots and products never vanish *)

(** Zero or finite: neither NaN nor an infinity. *)
Definition finite_or_zero (x : spec_float) : Prop :=
  match x with
  | S754_zero _ | S754_finite _ _ _ => True
  | _ => False
  end.












(** *** The order of binary64 values, through integers *)

(** A valid number as an integer multiple of the smallest positive
    value; the infinities beyond every finite number. *)
Definition Zval (x : spec_float) : Z :=
  match x with
  | S754_zero _ => 0
  | S754_infinity s => cond_Zopp s (2 ^ 3000)
  | S754_nan => 0
  | S754_finite s m e => cond_Zopp s (Zpos m * 2 ^ (e - emin))
  end.

Lemma finite_Zval_bounds (m : positive) (e : Z) :
  bounded prec emax m e = true -> 0 < Zpos m * 2 ^ (e - emin) < 2 ^ 3000.
Proof.
  intros B. destruct (canonical_digits _ _ B) as (He & Hd & _).
  assert (Hemax : e <= emax - prec).
  { unfold bounded in B. apply andb_true_iff in B as [_ B]. zfold. apply Z.leb_le, B. }
  change emin with (-1074) in *. change prec with 53 in *. change emax with 1024 in *.
  pose proof (digits2_pos_bounds m) as [_ Um].
  assert (Hm : Zpos m < 2 ^ 53).
  { eapply Z.lt_le_trans; [exact Um |]. apply Z.pow_le_mono_r; lia. }
  assert (Hp : 0 < 2 ^ (e - -1074)) by (apply Z.pow_pos_nonneg; lia).
  assert (Hq : 2 ^ (e - -1074) <= 2 ^ 2045) by (apply Z.pow_le_mono_r; lia).
  split.
  - apply Z.mul_pos_pos; [reflexivity | exact Hp].
  - apply Z.lt_le_trans with (2 ^ 53 * 2 ^ (e - -1074)).
    + apply Z.mul_lt_mono_pos_r; assumption.
    + apply Z.le_trans with (2 ^ 53 * 2 ^ 2045).
      * apply Z.mul_le_mono_nonneg_l; [discriminate | exact Hq].
      * discriminate.
Qed.

(** Numbers compare as their integers do. *)
Lemma SFcompare_Zval (x y : spec_float) :
  valid_binary x = true -> valid_binary y = true ->
  x <> S754_nan -> y <> S754_nan ->
  SFcompare x y = Some (Zval x ?= Zval y).
Proof.
  intros Vx Vy Nx Ny.
  assert (Hinf : 0 < 2 ^ 3000) by reflexivity.
  destruct x as [sx | sx | | sx mx ex], y as [sy | sy | | sy my ey];
    try congruence; simpl in Vx, Vy;
    try (pose proof (finite_Zval_bounds _ _ Vx) as Bx);
    try (pose proof (finite_Zval_bounds _ _ Vy) as By).
  1-8: cbn [SFcompare Zval]; f_equal;
    remember (2 ^ 3000) as inf eqn:Einf in *; clear Einf;
    try destruct sx; try destruct sy; cbn [cond_Zopp]; symmetry;
    first [apply (proj2 (Z.compare_gt_iff _ _))
          | apply (proj2 (Z.compare_lt_iff _ _))
          | apply (proj2 (Z.compare_eq_iff _ _))]; lia.
  - clear Hinf Bx By.
    rewrite (SFcompare_finite sx sy mx my ex ey Vx Vy). f_equal.
    destruct (canonical_digits _ _ Vx) as (Hex & _).
    destruct (canonical_digits _ _ Vy) as (Hey & _).
    rewrite !shl_align_value by lia.
    cbn [Zval].
    set (ez := Z.min ex ey).
    assert (Hc : 0 < 2 ^ (ez - emin)) by (apply Z.pow_pos_nonneg; lia).
    assert (Hx : Zpos mx * 2 ^ (ex - emin) = Zpos mx * 2 ^ (ex - ez) * 2 ^ (ez - emin)).
    { rewrite <- Z.mul_assoc, <- Z.pow_add_r by lia. do 2 f_equal. lia. }
    assert (Hy : Zpos my * 2 ^ (ey - emin) = Zpos my * 2 ^ (ey - ez) * 2 ^ (ez - emin)).
    { rewrite <- Z.mul_assoc, <- Z.pow_add_r by lia. do 2 f_equal. lia. }
    rewrite Hx, Hy.
    set (X := Zpos mx * 2 ^ (ex - ez)). set (Y := Zpos my * 2 ^ (ey - ez)).
    set (c := 2 ^ (ez - emin)) in *.
    replace (cond_Zopp sx (X * c)) with (cond_Zopp sx X * c) by (destruct sx; simpl; lia).
    replace (cond_Zopp sy (Y * c)) with (cond_Zopp sy Y * c) by (destruct sy; simpl; lia).
    destruct (Z.compare_spec (cond_Zopp sx X) (cond_Zopp sy Y)) as [E | E | E]; symmetry.
    + rewrite E. apply Z.compare_refl.
    + apply (proj2 (Z.compare_lt_iff _ _)). apply Z.mul_lt_mono_pos_r; assumption.
    + apply (proj2 (Z.compare_gt_iff _ _)). apply Z.mul_lt_mono_pos_r; assumption.
Qed.

Lemma SFleb_Zval (x y : spec_float) :
  valid_binary x = true -> valid_binary y = true ->
  SFleb x y = true <-> x <> S754_nan /\ y <> S754_nan /\ Zval x <= Zval y.
Proof.
  intros Vx Vy. unfold SFleb. split.
  - intros H.
    assert (Nx : x <> S754_nan) by (intros ->; discriminate).
    assert (Ny : y <> S754_nan) by (intros ->; destruct x; discriminate).
    rewrite (SFcompare_Zval x y Vx Vy Nx Ny) in H.
    repeat split; try assumption.
    destruct (Z.compare_spec (Zval x) (Zval y)); first [discriminate | lia].
  - intros (Nx & Ny & H). rewrite (SFcompare_Zval x y Vx Vy Nx Ny).
    destruct (Z.compare_spec (Zval x) (Zval y)); first [reflexivity | lia].
Qed.

Local Open Scope float_scope.

(** [<=] is transitive on binary64 values. *)
Lemma leb_trans (x y z : float) :
  (x <=? y) = true -> (y <=? z) = true -> (x <=? z) = true.
Proof.
  rewrite !FloatAxioms.leb_spec. intros Hxy Hyz.
  apply SFleb_Zval in Hxy as (Nx & _ & Hxy); try apply Prim2SF_valid.
  apply SFleb_Zval in Hyz as (_ & Nz & Hyz); try apply Prim2SF_valid.
  apply SFleb_Zval; try apply Prim2SF_valid.
  repeat split; try assumption. exact (Z.le_trans _ _ _ Hxy Hyz).
Qed.

(** Two values of which each is at most the other compare equal. *)
Lemma leb_antisym (x y : float) :
  (x <=? y) = true -> (y <=? x) = true -> (x =? y) = true.
Proof.
  rewrite !FloatAxioms.leb_spec, FloatAxioms.eqb_spec. intros Hxy Hyx.
  apply SFleb_Zval in Hxy as (Nx & Ny & Hxy); try apply Prim2SF_valid.
  apply SFleb_Zval in Hyx as (_ & _ & Hyx); try apply Prim2SF_valid.
  unfold SFeqb.
  rewrite (SFcompare_Zval _ _ (Prim2SF_valid x) (Prim2SF_valid y) Nx Ny).
  replace (Zval (Prim2SF x)) with (Zval (Prim2SF y)) by lia.
  rewrite Z.compare_refl. reflexivity.
Qed.

(** A number compares equal to itself. *)
Lemma eqb_refl (x : float) : Prim2SF x <> S754_nan -> (x =? x) = true.
Proof.
  intros Nx. rewrite FloatAxioms.eqb_spec. unfold SFeqb.
  rewrite (SFcompare_Zval _ _ (Prim2SF_valid x) (Prim2SF_valid x) Nx Nx).
  rewrite Z.compare_refl. reflexivity.
Qed.

(** [b.score - a.score > 0] exactly when [a.score < b.score]: the
    comparator of the in-memory search orders numbers as [<] does, and NaN
    makes both sides false. *)
Lemma sub_pos (x y : float) : (0 <? y - x) = (x <? y).
Proof.
  rewrite !FloatAxioms.ltb_spec, FloatAxioms.sub_spec. apply SFsub_pos; apply Prim2SF_valid.
Qed.

Lemma ltb_leb (x y : float) : (x <? y) = true -> (x <=? y) = true.
Proof.
  rewrite FloatAxioms.ltb_spec, FloatAxioms.leb_spec. unfold SFltb, SFleb.
  destruct (SFcompare (Prim2SF x) (Prim2SF y)) as [[] |]; congruence.
Qed.

(** A value that passes a [>=] test is a number. *)
Lemma leb_number (t x : float) : (t <=? x) = true -> Prim2SF x <> S754_nan.
Proof.
  rewrite FloatAxioms.leb_spec. unfold SFleb. intros H E. rewrite E in H.
  destruct (Prim2SF t); discriminate.
Qed.

Lemma ltb_false_leb (x y : float) :
  Prim2SF x <> S754_nan -> Prim2SF y <> S754_nan ->
  (x <? y) = false -> (y <=? x) = true.
Proof.
  rewrite FloatAxioms.ltb_spec, FloatAxioms.leb_spec. unfold SFltb, SFleb.
  rewrite (SFcompare_antisym (Prim2SF x) (Prim2SF y)).
  intros Hx Hy.
  destruct (Prim2SF x) as [sx | sx | | sx mx ex], (Prim2SF y) as [sy | sy | | sy my ey];
    try congruence;
    match goal with
    | |- context [SFcompare ?a ?b] => destruct (SFcompare a b) as [[] |] eqn:E
    end; simpl; try congruence.
  all: exfalso; revert E; simpl;
    repeat match goal with s : bool |- _ => destruct s end; discriminate.
Qed.

Lemma eqb_tie (x y s : float) :
  (x =? s) = true -> (y =? s) = true -> (x <? y) = false.
Proof.
  rewrite !FloatAxioms.eqb_spec, FloatAxioms.ltb_spec. unfold SFeqb, SFltb. intros Hx Hy.
  rewrite (SFcompare_Eq_trans (Prim2SF x) (Prim2SF y) (Prim2SF s)); [reflexivity | |].
  - destruct (SFcompare (Prim2SF x) (Prim2SF s)) as [[] |]; congruence.
  - destruct (SFcompare (Prim2SF y) (Prim2SF s)) as [[] |]; congruence.
Qed.


Definition is_finite (x : float) : Prop := finite_or_zero (Prim2SF x).










End Binary64.

(** ** JavaScript values *)

(** A string is a sequence of UTF-16 code units. *)
Definition text := list N.

(** The code units of an ASCII literal of the source. *)
Definition lit (s : string) : text := map N_of_ascii (list_ascii_of_string s).

(** The values a loosely typed argument can hold. *)
Inductive js_value :=
| JsUndefined
| JsNull
| JsBoolean (b : bool)
| JsNumber (x : float)
| JsString (s : text)
| JsObject.

(** A thrown [Error] object, identified by its message. *)
Inductive js_error := JsError (message : string).

(** ** EmbeddingsService: text preparation (services/embeddings.js) *)

(** The class [\s] of a regular expression, which is also the set that
    [String.prototype.trim] removes: white space and line terminators. *)
Definition is_space (c : N) : bool :=
  ((9 <=? c) && (c <=? 13) || (c =? 32) || (c =? 160) || (c =? 5760)
   || (8192 <=? c) && (c <=? 8202) || (c =? 8232) || (c =? 8233)
   || (c =? 8239) || (c =? 8287) || (c =? 12288) || (c =? 65279))%N.

Definition is_newline (c : N) : bool := (c =? 10)%N.

Definition space : N := 32.

(** [s.replace(/C+/g, ' ')] for a character class [C]: every maximal run
    of characters of the class becomes one space. [in_run] tells that the
    previous character belonged to the run being replaced. *)
Fixpoint replace_runs_from (cls : N -> bool) (in_run : bool) (s : text) : text :=
  match s with
  | [] => []
  | c :: s' =>
      if cls c
      then (if in_run then replace_runs_from cls true s'
            else space :: replace_runs_from cls true s')
      else c :: replace_runs_from cls false s'
  end.

Definition replace_runs (cls : N -> bool) (s : text) : text :=
  replace_runs_from cls false s.

Fixpoint trimStart (s : text) : text :=
  match s with
  | [] => []
  | c :: s' => if is_space c then trimStart s' else s
  end.

Fixpoint trimEnd (s : text) : text :=
  match s with
  | [] => []
  | c :: s' =>
      match trimEnd s' with
      | [] => if is_space c then [] else [c]
      | t => c :: t
      end
  end.

Definition trim (s : text) : text := trimEnd (trimStart s).

(** [s.substring(0, n)]: a negative [n] counts as 0, one past the end as
    the length. *)
Definition substring0 (s : text) (n : Z) : text := firstn (Z.to_nat n) s.

(** The cleaning steps of [prepareTextForEmbedding]. *)
Definition cleanText (s : text) : text :=
  trim (replace_runs is_newline (replace_runs is_space s)).

Definition prepareTextForEmbedding (input : js_value) (maxLength : Z) : text :=
  match input with
  | JsString [] => []
  | JsString s =>
      let clean := cleanText s in
      if (maxLength <? Z.of_nat (length clean))%Z
      then substring0 clean maxLength ++ lit "..."
      else clean
  | _ => []
  end.

(** The default value of the parameter [maxLength]. *)
Definition defaultMaxLength : Z := 8192.

(** The C0 control characters and DEL: characters with no printed form. *)
Definition is_control (c : N) : bool := ((c <? 32) || (c =? 127))%N.

(** A text is single-spaced when its only white space is the space
    character, never twice in a row and at neither end. *)
Fixpoint no_double_space (s : text) : Prop :=
  match s with
  | c :: (d :: _) as s' => ~ (c = space /\ d = space) /\ no_double_space s'
  | _ => True
  end.

Definition single_spaced (s : text) : Prop :=
  Forall (fun c => is_space c = true -> c = space) s
  /\ no_double_space s
  /\ (forall c s', s = c :: s' -> c <> space)
  /\ (forall c s', s = s' ++ [c] -> c <> space).

Definition non_space (c : N) : bool := negb (is_space c).

(** The words of a text: its maximal runs of characters that are not
    white space, in order. [current] is the word being read. *)
Fixpoint words_from (current : text) (s : text) : list text :=
  match s with
  | [] =>
      match current with
      | [] => []
      | _ => [current]
      end
  | c :: s' =>
      if is_space c then
        match current with
        | [] => words_from [] s'
        | _ => current :: words_from [] s'
        end
      else words_from (current ++ [c]) s'
  end.

Definition words (s : text) : list text := words_from [] s.

(** The words with one space between each two of them. *)
Definition join_words (ws : list text) : text :=
  match ws with
  | [] => []
  | w :: rest => w ++ concat (map (fun v => space :: v) rest)
  end.

(** What the specification asks of the cleaning: every run of white space
    between two words becomes one space, and the white space at the two
    ends goes. *)
Definition collapsed (s : text) : text := join_words (words s).

Section TextPreparation.

Lemma replace_runs_from_chars (cls : N -> bool) (b : bool) (s : text) :
  Forall (fun c => c = space \/ cls c = false) (replace_runs_from cls b s).
Proof.
  revert b. induction s as [| c s IH]; intros b; simpl; [constructor |].
  destruct (cls c) eqn:E; [destruct b |]; auto.
Qed.

(** Once the white space is collapsed no newline is left: the second
    replacement of the source finds nothing to replace. *)
Lemma replace_runs_absent (cls : N -> bool) (b : bool) (s : text) :
  Forall (fun c => cls c = false) s -> replace_runs_from cls b s = s.
Proof.
  revert b. induction s as [| c s IH]; intros b H; simpl; [reflexivity |].
  inversion H as [| ? ? Hc Hs]; subst. rewrite Hc, IH; auto.
Qed.

Lemma newline_pass_noop (s : text) :
  replace_runs is_newline (replace_runs is_space s) = replace_runs is_space s.
Proof.
  apply replace_runs_absent.
  eapply List.Forall_impl; [| apply replace_runs_from_chars].
  intros c [-> | H]; [reflexivity |].
  unfold is_newline. destruct (N.eqb_spec c 10) as [-> | ]; [discriminate | reflexivity].
Qed.

Lemma replace_runs_from_head (b : bool) (s : text) :
  match replace_runs_from is_space b s with
  | c :: _ => c = space -> b = false
  | [] => True
  end
  /\ no_double_space (replace_runs_from is_space b s).
Proof.
  revert b. induction s as [| c s IH]; intros b; simpl; [auto |].
  destruct (is_space c) eqn:E.
  - destruct b.
    + apply IH.
    + split; [auto |]. destruct (IH true) as [Hh Hn].
      destruct (replace_runs_from is_space true s) as [| d t]; [exact I |].
      split; [| exact Hn]. intros [_ Hd]. specialize (Hh Hd). discriminate.
  - split; [intros ->; discriminate |]. destruct (IH false) as [Hh Hn].
    destruct (replace_runs_from is_space false s) as [| d t]; [exact I |].
    split; [| exact Hn]. intros [-> _]. discriminate.
Qed.

Lemma replace_runs_from_filter (b : bool) (s : text) :
  List.filter non_space (replace_runs_from is_space b s) = List.filter non_space s.
Proof.
  revert b. induction s as [| c s IH]; intros b; simpl; [reflexivity |].
  unfold non_space at 2. destruct (is_space c) eqn:E; simpl.
  - destruct b; simpl; apply IH.
  - unfold non_space at 1. rewrite E. simpl. f_equal. apply IH.
Qed.

Lemma trimStart_filter (s : text) :
  List.filter non_space (trimStart s) = List.filter non_space s.
Proof.
  induction s as [| c s IH]; simpl; [reflexivity |].
  unfold non_space at 2. destruct (is_space c) eqn:E; simpl; [exact IH |].
  unfold non_space at 1. rewrite E. reflexivity.
Qed.

Lemma trimEnd_filter (s : text) :
  List.filter non_space (trimEnd s) = List.filter non_space s.
Proof.
  induction s as [| c s IH]; simpl; [reflexivity |].
  destruct (trimEnd s) as [| d t] eqn:T.
  - simpl in IH. rewrite <- IH.
    unfold non_space. destruct (is_space c) eqn:E; simpl; rewrite ?E; reflexivity.
  - remember (d :: t) as u. simpl. rewrite IH. reflexivity.
Qed.

Lemma no_double_space_tail (c : N) (s : text) :
  no_double_space (c :: s) -> no_double_space s.
Proof. destruct s as [| d t]; simpl; tauto. Qed.

Lemma trimStart_keeps (P : N -> Prop) (s : text) :
  Forall P s -> no_double_space s ->
  Forall P (trimStart s) /\ no_double_space (trimStart s).
Proof.
  induction s as [| c s IH]; intros HF HN; simpl; [auto |].
  destruct (is_space c); [| auto].
  inversion HF; subst. apply IH; [assumption |].
  exact (no_double_space_tail _ _ HN).
Qed.

Lemma trimStart_head (s : text) (c : N) (t : text) :
  trimStart s = c :: t -> is_space c = false.
Proof.
  induction s as [| d s IH]; simpl; [discriminate |].
  destruct (is_space d) eqn:E; [exact IH |].
  intros H. injection H as -> _. exact E.
Qed.

Lemma trimEnd_head (s : text) (c : N) (t : text) :
  trimEnd s = c :: t -> exists s', s = c :: s'.
Proof.
  destruct s as [| d s]; simpl; [discriminate |].
  destruct (trimEnd s); [destruct (is_space d) |]; intros H;
    try discriminate; injection H as -> _; eauto.
Qed.

Lemma trimEnd_keeps (P : N -> Prop) (s : text) :
  Forall P s -> no_double_space s ->
  Forall P (trimEnd s) /\ no_double_space (trimEnd s).
Proof.
  induction s as [| c s IH]; intros HF HN; simpl; [auto |].
  inversion HF as [| ? ? Hc Hs]; subst.
  destruct (IH Hs (no_double_space_tail _ _ HN)) as [IF IN].
  destruct (trimEnd s) as [| d t] eqn:T.
  - destruct (is_space c); simpl; auto.
  - split; [constructor; assumption |].
    destruct (trimEnd_head _ _ _ T) as [s' ->].
    simpl in HN. simpl. split; [tauto | exact IN].
Qed.

Lemma trimEnd_last (s t : text) (c : N) :
  trimEnd s = t ++ [c] -> is_space c = false.
Proof.
  revert t. induction s as [| d s IH]; intros t; simpl.
  - destruct t; discriminate.
  - destruct (trimEnd s) as [| e u] eqn:T.
    + destruct (is_space d) eqn:E; [destruct t; discriminate |].
      destruct t as [| x [| y t]]; try discriminate.
      intros H. injection H as ->. exact E.
    + destruct t as [| x t]; [discriminate |].
      intros H. injection H as _ H. exact (IH _ H).
Qed.

Lemma trimEnd_non_space_cons (c : N) (s : text) :
  is_space c = false -> trimEnd (c :: s) = c :: trimEnd s.
Proof. intros H. simpl. rewrite H. destruct (trimEnd s); reflexivity. Qed.

Lemma trimStart_replace_runs (b : bool) (s : text) :
  trimStart (replace_runs_from is_space b s) = replace_runs_from is_space false (trimStart s).
Proof.
  revert b. induction s as [| c s IH]; intros b; simpl; [reflexivity |].
  destruct (is_space c) eqn:E.
  - destruct b; simpl; [apply IH | rewrite (IH true); reflexivity].
  - simpl. rewrite E. reflexivity.
Qed.

Lemma words_from_trimStart (s : text) : words_from [] s = words_from [] (trimStart s).
Proof.
  induction s as [| c s IH]; simpl; [reflexivity |].
  destruct (is_space c) eqn:E; [exact IH |]. simpl. rewrite E. reflexivity.
Qed.

Lemma trimEnd_app_word (w s : text) :
  Forall (fun c => is_space c = false) w -> trimEnd (w ++ s) = w ++ trimEnd s.
Proof.
  induction 1 as [| c w Hc Hw IH]; [reflexivity |].
  change ((c :: w) ++ s) with (c :: (w ++ s)).
  simpl trimEnd. rewrite IH, Hc. simpl. destruct (w ++ trimEnd s); reflexivity.
Qed.

(** The cleaning of the code, from a word on and from a run of white
    space on, is the joining of the words. *)
Lemma trimEnd_words (s : text) :
  (forall w, w <> [] -> Forall (fun c => is_space c = false) w ->
     exists v vs,
       words_from w s = v :: vs
       /\ trimEnd (w ++ replace_runs_from is_space false s)
          = v ++ concat (map (fun u => space :: u) vs))
  /\ match trimEnd (replace_runs_from is_space true s) with
     | [] => []
     | t => space :: t
     end
     = concat (map (fun u => space :: u) (words_from [] s)).
Proof.
  induction s as [| c s [IHw IHs]].
  - split.
    + intros w Hne Hw. exists w, []. simpl. rewrite !app_nil_r.
      split; [destruct w; [contradiction | reflexivity] |].
      rewrite <- (app_nil_r w) at 1. rewrite trimEnd_app_word by exact Hw.
      simpl. apply app_nil_r.
    + reflexivity.
  - split.
    + intros w Hne Hw. simpl. destruct (is_space c) eqn:E.
      * exists w, (words_from [] s). split; [destruct w; [contradiction | reflexivity] |].
        rewrite trimEnd_app_word by exact Hw. f_equal.
        rewrite <- IHs. simpl. change space with 32%N.
        destruct (trimEnd (replace_runs_from is_space true s)); reflexivity.
      * destruct (IHw (w ++ [c])) as (v & vs & Hv & Ht).
        { destruct w; discriminate. }
        { apply Forall_app. split; [exact Hw | repeat constructor; exact E]. }
        exists v, vs. split; [exact Hv |].
        rewrite <- Ht, <- app_assoc. reflexivity.
    + cbn [replace_runs_from words_from]. destruct (is_space c) eqn:E; [exact IHs |].
      destruct (IHw [c]) as (v & vs & Hv & Ht); [discriminate | repeat constructor; exact E |].
      change ([] ++ [c]) with [c]. rewrite Hv.
      change ([c] ++ replace_runs_from is_space false s)
        with (c :: replace_runs_from is_space false s) in Ht.
      cbn [map concat]. rewrite <- app_comm_cons, <- Ht.
      rewrite (trimEnd_non_space_cons c _ E). reflexivity.
Qed.

(** The cleaning of the code is the cleaning the specification asks for. *)
Lemma cleanText_collapsed (s : text) : cleanText s = collapsed s.
Proof.
  unfold cleanText, collapsed, words, trim. rewrite newline_pass_noop.
  unfold replace_runs. rewrite trimStart_replace_runs, words_from_trimStart.
  destruct (trimStart s) as [| c s'] eqn:E; [reflexivity |].
  pose proof (trimStart_head _ _ _ E) as Hc.
  simpl. rewrite Hc.
  destruct (proj1 (trimEnd_words s') [c]) as (v & vs & Hv & Ht);
    [discriminate | repeat constructor; exact Hc |].
  rewrite Hv. exact Ht.
Qed.

(** The cleaned text is single-spaced and keeps every character that is
    not white space, in order. *)
Lemma cleanText_single_spaced (s : text) : single_spaced (cleanText s).
Proof.
  unfold cleanText, trim. rewrite newline_pass_noop.
  pose proof (replace_runs_from_chars is_space false s) as HF.
  destruct (replace_runs_from_head false s) as [_ HN].
  fold (replace_runs is_space s) in HF, HN.
  destruct (trimStart_keeps _ _ HF HN) as [HF1 HN1].
  destruct (trimEnd_keeps _ _ HF1 HN1) as [HF2 HN2].
  repeat split.
  - eapply List.Forall_impl; [| exact HF2].
    intros c [-> | H] Hs; [reflexivity | congruence].
  - exact HN2.
  - intros c s' E.
    destruct (trimEnd_head _ _ _ E) as [u Hu].
    apply trimStart_head in Hu. intros ->. discriminate.
  - intros c s' E. apply trimEnd_last in E. intros ->. discriminate.
Qed.

Lemma cleanText_keeps_non_space (s : text) :
  List.filter non_space (cleanText s) = List.filter non_space s.
Proof.
  unfold cleanText, trim.
  rewrite newline_pass_noop, trimEnd_filter, trimStart_filter.
  apply replace_runs_from_filter.
Qed.

End TextPreparation.

(** C9, as amended. [prepareTextForEmbedding] returns the empty string for
    an input that is not a string or is empty. For a non-empty string it
    collapses every run of white space (newlines included) to one space and
    trims both ends: the cleaned text is the words of the input with one
    space between each two of them. It keeps every other character,
    control characters included, in order, and, when the cleaned text is
    longer than [maxLength], cuts it at [maxLength] code units and appends
    the marker "...", so that the result has at most [maxLength + 3] code
    units. *)
Theorem prepareTextForEmbedding_spec (input : js_value) (maxLength : Z) :
  let out := prepareTextForEmbedding input maxLength in
  match input with
  | JsString (c :: s') =>
      let clean := join_words (words (c :: s')) in
      cleanText (c :: s') = clean
      /\ single_spaced clean
      /\ List.filter non_space clean = List.filter non_space (c :: s')
      /\ out = (if (maxLength <? Z.of_nat (length clean))%Z
                then firstn (Z.to_nat maxLength) clean ++ lit "..."
                else clean)
      /\ (Z.of_nat (length out) <= Z.max maxLength 0 + 3)%Z
  | _ => out = []
  end.
Proof.
  destruct input as [| | b | x | [| c s'] |]; try reflexivity.
  cbv zeta. fold (collapsed (c :: s')). rewrite <- cleanText_collapsed.
  split; [reflexivity |].
  split; [apply cleanText_single_spaced |].
  split; [apply cleanText_keeps_non_space |].
  split; [reflexivity |].
  unfold prepareTextForEmbedding, substring0.
  destruct (Z.ltb_spec maxLength (Z.of_nat (length (cleanText (c :: s'))))) as [H | H].
  - rewrite length_app, length_firstn. simpl length. lia.
  - lia.
Qed.

(** The words of a text, and the text they make. *)
Example words_example :
  words (lit "  Title:  x" ++ [10; 10; 9]%N ++ lit "y ") = [lit "Title:"; lit "x"; lit "y"]
  /\ join_words [lit "Title:"; lit "x"; lit "y"] = lit "Title: x y".
Proof. split; reflexivity. Qed.

(** C9, counterexample. The code unit 1 (U+0001, a control character) is
    not stripped: the text "a\u0001b" is returned as it is. *)
Lemma prepareTextForEmbedding_keeps_control :
  prepareTextForEmbedding (JsString (lit "a" ++ [1%N] ++ lit "b")) defaultMaxLength
  = lit "a" ++ [1%N] ++ lit "b"
  /\ is_control 1 = true
  /\ In 1%N (prepareTextForEmbedding (JsString (lit "a" ++ [1%N] ++ lit "b")) defaultMaxLength).
Proof. repeat split; vm_compute; auto. Qed.

Example prepareTextForEmbedding_collapses :
  prepareTextForEmbedding (JsString (lit "  Title:  x" ++ [10; 10; 9]%N ++ lit "y ")) defaultMaxLength
  = lit "Title: x y".
Proof. reflexivity. Qed.

Example prepareTextForEmbedding_truncates :
  prepareTextForEmbedding (JsString (lit "abcdefgh")) 5 = lit "abcde...".
Proof. reflexivity. Qed.

(** ** QdrantService: similarity (services/qdrant.js) *)

Local Open Scope float_scope.

(** An entry of an array of numbers: a number, or [null], which is what
    an array that went through JSON holds in the place of a number that is
    not finite. *)
Inductive entry :=
| Num (x : float)
| Null.

(** [ToNumber]: in arithmetic [null] counts as 0. *)
Definition to_number (e : entry) : float :=
  match e with
  | Num x => x
  | Null => 0
  end.

(** An array of numbers. An argument that holds no array ([undefined],
    [null]) is [None]. *)
Definition vector := list entry.

(** The array of the given numbers. *)
Definition numbers (l : list float) : vector := map Num l.

(** The loop of [cosineSimilarity]: the running dot product and the two
    running squared norms, over arrays of one length. *)
Fixpoint cosine_loop (a b : vector) (acc : float * float * float) : float * float * float :=
  match a, b with
  | x :: a', y :: b' =>
      let '(dot, na, nb) := acc in
      cosine_loop a' b'
        (dot + to_number x * to_number y,
         na + to_number x * to_number x,
         nb + to_number y * to_number y)
  | _, _ => acc
  end.

Definition cosineSimilarity (a b : option vector) : float :=
  match a, b with
  | Some a, Some b =>
      if negb (Nat.eqb (length a) (length b)) then 0
      else
        let '(dot, na, nb) := cosine_loop a b (0, 0, 0) in
        if (na =? 0) || (nb =? 0) then 0
        else dot / (sqrt na * sqrt nb)
  | _, _ => 0
  end.

(** The squared norm and the dot product as the loop accumulates them. *)
Definition sum_squares_from (acc : float) (a : vector) : float :=
  fold_left (fun n x => n + to_number x * to_number x) a acc.

Definition dot_from (acc : float) (a b : vector) : float :=
  fold_left (fun d xy => d + to_number (fst xy) * to_number (snd xy)) (combine a b) acc.

Definition sum_squares (a : vector) : float := sum_squares_from 0 a.

Definition dot_product (a b : vector) : float := dot_from 0 a b.


Section Cosine.

Lemma cosine_loop_components (a b : vector) (dot na nb : float) :
  length a = length b ->
  cosine_loop a b (dot, na, nb)
  = (dot_from dot a b, sum_squares_from na a, sum_squares_from nb b).
Proof.
  revert b dot na nb. induction a as [| x a IH]; intros [| y b] dot na nb H;
    try discriminate; [reflexivity |].
  simpl in H. injection H as H. simpl cosine_loop. rewrite IH by exact H. reflexivity.
Qed.





(** The function on vectors of one length, in terms of the accumulated
    sums. *)
Lemma cosineSimilarity_same_length (a b : vector) :
  length a = length b ->
  cosineSimilarity (Some a) (Some b)
  = if (sum_squares a =? 0) || (sum_squares b =? 0) then 0
    else dot_product a b / (sqrt (sum_squares a) * sqrt (sum_squares b)).
Proof.
  intros H. unfold cosineSimilarity.
  rewrite H, Nat.eqb_refl. simpl negb. cbv iota.
  rewrite cosine_loop_components by exact H. reflexivity.
Qed.

End Cosine.



(** Identical vectors whose similarity is exactly 1, and the squared norm
    of a small vector underflowing to zero. *)
Example cosineSimilarity_3_4 : cosineSimilarity (Some (numbers [3; 4])) (Some (numbers [3; 4])) = 1.
Proof. reflexivity. Qed.

Example cosineSimilarity_underflow :
  cosineSimilarity (Some (numbers [0x1p-600])) (Some (numbers [0x1p-600])) = 0.
Proof. reflexivity. Qed.

(** The exact dot product of these two vectors is 0, the accumulated one
    is -1: 1e16 + 1 rounds to 1e16. *)
Example cosineSimilarity_rounded_dot :
  dot_product (numbers [1e16; 1; -1e16; -1]) (numbers [1; 1; 1; 1]) = -1
  /\ (cosineSimilarity (Some (numbers [1e16; 1; -1e16; -1])) (Some (numbers [1; 1; 1; 1])) =? 0) = false.
Proof. split; reflexivity. Qed.

Example cosineSimilarity_orthogonal :
  cosineSimilarity (Some (numbers [1; 0])) (Some (numbers [0; 1])) = 0.
Proof. reflexivity. Qed.

(** ** Documents, points and the world the services run in *)

(** A document as the ingestion hands it over. [summary] and [embedding]
    may be missing ([undefined]). *)
Record Document := {
  id : string;
  title : text;
  content : text;
  url : text;
  publishedAt : text;
  source : text;
  summary : option text;
  embedding : option vector
}.

Record Payload := {
  p_title : text;
  p_content : text;
  p_url : text;
  p_publishedAt : text;
  p_source : text;
  p_summary : text;
  p_createdAt : string
}.

(** An entry of the vector store: [{ id, vector, payload }]. *)
Record Point := {
  point_id : string;
  point_vector : option vector;
  point_payload : Payload
}.

(** A point with its similarity to the query: [{ id, score, payload }]. *)
Record ScoredPoint := {
  sp_id : string;
  sp_score : float;
  sp_payload : Payload
}.

(** A search result as the callers get it. *)
Record SearchResult := {
  r_id : string;
  r_score : float;
  r_title : text;
  r_content : text;
  r_url : text;
  r_publishedAt : text;
  r_source : text;
  r_summary : text
}.

(** What [getCollectionInfo] answers; the counts are non-negative integers
    and may be missing in the answer of the networked service. *)
Record CollectionInfo := {
  status : string;
  points_count : option N;
  indexed_vectors_count : option N;
  vectors_count : option N
}.

(** The outcome of the HTTP request to the embedding service. *)
Inductive axios_result :=
| Responded (data : option (list (option vector)))
    (** a 2xx answer; [response.data.data], one entry per text, each with
        its [embedding] when it has one *)
| HttpError (http_status detail : string)  (** [error.response] is set *)
| NoResponse                               (** [error.request] is set *)
| SetupError (message : string).           (** neither is set *)

(** The collaborators outside the process: the embedding service, the
    networked Qdrant client, and the errors of the Redis client. *)
Record Env := {
  jinaApiKey : string;   (** the empty string when it is not configured *)
  axios_post : list text -> axios_result;
  client_upsert : list Point -> option js_error;
  client_search : option vector -> nat -> float -> js_error + list ScoredPoint;
  client_getCollection : js_error + CollectionInfo;
  redis_command_error : js_error;     (** thrown by a command that Redis does not serve *)
  redis_invalid_argument : js_error   (** thrown for a value that is not a string *)
}.

(** Calls that the properties count or order. *)
Inductive Event :=
| EvGenerateEmbedding (input : text)   (** a call of the embedding provider *)
| EvStoreDocument (p : Point)          (** a call of [storeDocument] *)
| EvStoreDocuments (ps : list Point)   (** a call of [storeDocuments] *)
| EvClientUpsert (ps : list Point)     (** a write to the networked store *)
| EvClientSearch                       (** a read of the networked store *)
| EvClientGetCollection.               (** a read of the networked store *)

(** The state of the process and of what it talks to: the vector store
    service, the embedding entries of Redis (key to cached array) and
    whether Redis serves reads and writes, the clock, and the calls made
    so far, latest first. Between two calls of the services the clock
    advances, the entries of Redis may expire, and Redis may stop or
    resume serving commands (a closed connection, a server that refuses
    writes). *)
Record World := {
  fallback : bool;
  memoryStore : list Point;
  redis : gmap string vector;
  redis_readable : bool;
  redis_writable : bool;
  now : string;
  trace : list Event
}.

Definition set_memoryStore (ps : list Point) (w : World) : World :=
  {| fallback := fallback w; memoryStore := ps; redis := redis w;
     redis_readable := redis_readable w; redis_writable := redis_writable w; now := now w; trace := trace w |}.

Definition set_redis (r : gmap string vector) (w : World) : World :=
  {| fallback := fallback w; memoryStore := memoryStore w; redis := r;
     redis_readable := redis_readable w; redis_writable := redis_writable w; now := now w; trace := trace w |}.

(** The world at a later instant. *)
Definition set_now (t : string) (w : World) : World :=
  {| fallback := fallback w; memoryStore := memoryStore w; redis := redis w;
     redis_readable := redis_readable w; redis_writable := redis_writable w; now := t; trace := trace w |}.

Definition log (ev : Event) (w : World) : World :=
  {| fallback := fallback w; memoryStore := memoryStore w; redis := redis w;
     redis_readable := redis_readable w; redis_writable := redis_writable w; now := now w; trace := ev :: trace w |}.

(** ** Asynchronous methods: state and exceptions *)

Inductive outcome (A : Type) :=
| Return (a : A)
| Throw (e : js_error).

Arguments Return {A} a.
Arguments Throw {A} e.

Definition M (A : Type) : Type := World -> outcome A * World.

Definition ret {A} (a : A) : M A := fun w => (Return a, w).

Definition throw {A} (e : js_error) : M A := fun w => (Throw e, w).

Definition bind {A B} (c : M A) (k : A -> M B) : M B :=
  fun w =>
    match c w with
    | (Return a, w') => k a w'
    | (Throw e, w') => (Throw e, w')
    end.

(** [try { c } catch (error) { h error }] *)
Definition try_catch {A} (c : M A) (h : js_error -> M A) : M A :=
  fun w =>
    match c w with
    | (Return a, w') => (Return a, w')
    | (Throw e, w') => h e w'
    end.

(** [try { c } catch (error) { console.error(...); throw error }] *)
Definition rethrowing {A} (c : M A) : M A := try_catch c throw.

Definition get {A} (f : World -> A) : M A := fun w => (Return (f w), w).

Definition modify (f : World -> World) : M unit := fun w => (Return tt, f w).

Notation "'let*' x ':=' c 'in' k" := (bind c (fun x => k))
  (at level 10, x pattern, c at level 100, k at level 200).

Lemma rethrowing_id {A} (c : M A) (w : World) : rethrowing c w = c w.
Proof. unfold rethrowing, try_catch, throw. destruct (c w) as [[a | e] w']; reflexivity. Qed.

Lemma bind_assoc {A B C} (c : M A) (k : A -> M B) (h : B -> M C) (w : World) :
  bind (bind c k) h w = bind c (fun a => bind (k a) h) w.
Proof. unfold bind. destruct (c w) as [[a | e] w']; reflexivity. Qed.

(** ** Array.prototype.sort

    The sort of an array is stable; with a comparator [cmp], an element [a]
    goes after [b] when [cmp a b > 0] and keeps its place before [b]
    otherwise (a NaN result counts as 0). Insertion of each element in
    front of the sorted rest gives that order; for the comparator of the
    search, every stable sort gives the same array ([sort_by_unique]). *)
Section Sort.

Context {A : Type} (cmp : A -> A -> float).

Fixpoint insert_by (x : A) (l : list A) : list A :=
  match l with
  | [] => [x]
  | y :: l' => if 0 <? cmp x y then y :: insert_by x l' else x :: y :: l'
  end.

Fixpoint sort_by (l : list A) : list A :=
  match l with
  | [] => []
  | x :: l' => insert_by x (sort_by l')
  end.

End Sort.

(** ** QdrantService: the store (services/qdrant.js) *)

Definition point_of (createdAt : string) (d : Document) : Point :=
  {| point_id := id d;
     point_vector := embedding d;
     point_payload :=
       {| p_title := title d;
          p_content := content d;
          p_url := url d;
          p_publishedAt := publishedAt d;
          p_source := source d;
          p_summary := default [] (summary d);
          p_createdAt := createdAt |} |}.

Definition same_id (i : string) (p : Point) : bool := String.eqb (point_id p) i.

(** [{ id, score: cosineSimilarity(queryEmbedding, p.vector), payload }] *)
Definition scored (queryEmbedding : option vector) (p : Point) : ScoredPoint :=
  {| sp_id := point_id p;
     sp_score := cosineSimilarity queryEmbedding (point_vector p);
     sp_payload := point_payload p |}.

(** The comparator [(a, b) => b.score - a.score]. *)
Definition by_score_desc (a b : ScoredPoint) : float := sp_score b - sp_score a.

Definition to_result (r : ScoredPoint) : SearchResult :=
  {| r_id := sp_id r;
     r_score := sp_score r;
     r_title := p_title (sp_payload r);
     r_content := p_content (sp_payload r);
     r_url := p_url (sp_payload r);
     r_publishedAt := p_publishedAt (sp_payload r);
     r_source := p_source (sp_payload r);
     r_summary := p_summary (sp_payload r) |}.

(** The candidates of the in-memory search, in the order of the store. *)
Definition candidates (queryEmbedding : option vector) (store : list Point) : list ScoredPoint :=
  map (scored queryEmbedding) store.

(** The in-memory branch of [searchSimilar], before the final projection:
    map, filter, sort, slice. [limit] is a count. *)
Definition search_memory (queryEmbedding : option vector) (limit : nat)
    (scoreThreshold : float) (store : list Point) : list ScoredPoint :=
  firstn limit
    (sort_by by_score_desc
       (List.filter (fun r => scoreThreshold <=? sp_score r)
          (candidates queryEmbedding store))).

Section Services.

Variable env : Env.

Definition storeDocument (document : Document) : M bool :=
  rethrowing
    (let* createdAt := get now in
     let point := point_of createdAt document in
     let* _ := modify (log (EvStoreDocument point)) in
     let* fb := get fallback in
     if fb then
       let* _ := modify (fun w =>
         set_memoryStore
           (List.filter (fun p => negb (same_id (point_id point) p)) (memoryStore w) ++ [point]) w) in
       ret true
     else
       let* _ := modify (log (EvClientUpsert [point])) in
       match client_upsert env [point] with
       | None => ret true
       | Some e => throw e
       end).

Definition storeDocuments (documents : list Document) : M bool :=
  rethrowing
    (let* createdAt := get now in
     let points := map (point_of createdAt) documents in
     let* _ := modify (log (EvStoreDocuments points)) in
     let* fb := get fallback in
     if fb then
       let ids : gset string := list_to_set (map point_id points) in
       let* _ := modify (fun w =>
         set_memoryStore
           (List.filter (fun p => negb (bool_decide (point_id p ∈ ids))) (memoryStore w) ++ points) w) in
       ret true
     else
       let* _ := modify (log (EvClientUpsert points)) in
       match client_upsert env points with
       | None => ret true
       | Some e => throw e
       end).

Definition searchSimilar (queryEmbedding : option vector) (limit : nat)
    (scoreThreshold : float) : M (list SearchResult) :=
  rethrowing
    (let* fb := get fallback in
     if fb then
       let* store := get memoryStore in
       ret (map to_result (search_memory queryEmbedding limit scoreThreshold store))
     else
       let* _ := modify (log EvClientSearch) in
       match client_search env queryEmbedding limit scoreThreshold with
       | inl e => throw e
       | inr searchResult => ret (map to_result searchResult)
       end).

Definition getCollectionInfo : M CollectionInfo :=
  rethrowing
    (let* fb := get fallback in
     if fb then
       let* store := get memoryStore in
       let n := N.of_nat (length store) in
       ret {| status := "yellow"; points_count := Some n;
              indexed_vectors_count := Some n; vectors_count := Some n |}
     else
       let* _ := modify (log EvClientGetCollection) in
       match client_getCollection env with
       | inl e => throw e
       | inr info => ret info
       end).

(** [info.points_count || 0] *)
Definition countDocuments : M N :=
  try_catch
    (let* info := getCollectionInfo in
     ret (default 0%N (points_count info)))
    (fun _ => ret 0%N).

End Services.

(** ** The in-memory search is thresholded, bounded, ranked and stable *)

(** [a] may stand before [b] in a ranking: the score does not increase. *)
Definition ranked (a b : ScoredPoint) : Prop := (sp_score b <=? sp_score a) = true.

Definition is_number (r : ScoredPoint) : Prop := Prim2SF (sp_score r) <> S754_nan.

(** The points whose score ties with [s]. *)
Definition tie (s : float) (r : ScoredPoint) : bool := sp_score r =? s.

Section Ranking.

Lemma by_score_desc_pos (x y : ScoredPoint) :
  (0 <? by_score_desc x y) = (sp_score x <? sp_score y).
Proof. apply Binary64.sub_pos. Qed.

Lemma insert_by_Forall (P : ScoredPoint -> Prop) (x : ScoredPoint) (l : list ScoredPoint) :
  P x -> Forall P l -> Forall P (insert_by by_score_desc x l).
Proof.
  intros Hx. induction 1 as [| y l Hy Hl IH]; simpl; [auto |].
  destruct (0 <? by_score_desc x y); auto.
Qed.

Lemma sort_by_Forall (P : ScoredPoint -> Prop) (l : list ScoredPoint) :
  Forall P l -> Forall P (sort_by by_score_desc l).
Proof.
  induction 1 as [| x l Hx Hl IH]; simpl; [constructor |].
  apply insert_by_Forall; assumption.
Qed.

Lemma insert_by_length (x : ScoredPoint) (l : list ScoredPoint) :
  length (insert_by by_score_desc x l) = S (length l).
Proof.
  induction l as [| y l IH]; simpl; [reflexivity |].
  destruct (0 <? by_score_desc x y); simpl; congruence.
Qed.

Lemma insert_by_ranked (x : ScoredPoint) (l : list ScoredPoint) :
  is_number x -> Forall is_number l ->
  Sorted ranked l -> Sorted ranked (insert_by by_score_desc x l).
Proof.
  intros Hx HF HS. induction l as [| y l IH]; simpl; [auto |].
  inversion HF as [| ? ? Hy HF']; subst.
  inversion HS as [| ? ? HS' HR]; subst.
  rewrite by_score_desc_pos.
  destruct (sp_score x <? sp_score y) eqn:E.
  - constructor; [apply IH; assumption |].
    destruct l as [| z l]; simpl.
    + constructor. apply Binary64.ltb_leb, E.
    + destruct (0 <? by_score_desc x z).
      * inversion HR; subst. constructor. assumption.
      * constructor. apply Binary64.ltb_leb, E.
  - constructor; [assumption |]. constructor.
    apply Binary64.ltb_false_leb; assumption.
Qed.

Lemma sort_by_ranked (l : list ScoredPoint) :
  Forall is_number l -> Sorted ranked (sort_by by_score_desc l).
Proof.
  induction 1 as [| x l Hx Hl IH]; simpl; [constructor |].
  apply insert_by_ranked; [assumption | apply sort_by_Forall; assumption | assumption].
Qed.

(** Ranking is transitive, so that a ranked list is ranked between any
    two of its positions. *)
Lemma ranked_trans (a b c : ScoredPoint) : ranked a b -> ranked b c -> ranked a c.
Proof. unfold ranked. intros Hab Hbc. exact (Binary64.leb_trans _ _ _ Hbc Hab). Qed.

Lemma firstn_Sorted {A} (R : A -> A -> Prop) (n : nat) (l : list A) :
  Sorted R l -> Sorted R (firstn n l).
Proof.
  revert l. induction n as [| n IH]; intros l HS; [constructor |].
  destruct l as [| x l]; [constructor |].
  inversion HS as [| ? ? HS' HR]; subst. simpl. constructor; [auto |].
  destruct l as [| y l]; [destruct n; constructor |].
  inversion HR; subst. destruct n; constructor. assumption.
Qed.

(** Insertion never moves a point past one of the same score. *)
Lemma insert_by_stable (s : float) (x : ScoredPoint) (l : list ScoredPoint) :
  List.filter (tie s) (insert_by by_score_desc x l) = List.filter (tie s) (x :: l).
Proof.
  induction l as [| y l IH]; [reflexivity |].
  simpl insert_by. rewrite by_score_desc_pos.
  destruct (sp_score x <? sp_score y) eqn:E; [| reflexivity].
  simpl. simpl in IH. rewrite IH.
  destruct (tie s x) eqn:Tx, (tie s y) eqn:Ty; try reflexivity.
  unfold tie in Tx, Ty. rewrite (Binary64.eqb_tie _ _ _ Tx Ty) in E. discriminate.
Qed.

Lemma sort_by_stable (s : float) (l : list ScoredPoint) :
  List.filter (tie s) (sort_by by_score_desc l) = List.filter (tie s) l.
Proof.
  induction l as [| x l IH]; [reflexivity |].
  simpl sort_by. rewrite insert_by_stable. simpl. rewrite IH. reflexivity.
Qed.

Lemma sort_by_length (l : list ScoredPoint) :
  length (sort_by by_score_desc l) = length l.
Proof.
  induction l as [| x l IH]; [reflexivity |].
  simpl. rewrite insert_by_length. congruence.
Qed.

Lemma tie_self (x : ScoredPoint) : is_number x -> tie (sp_score x) x = true.
Proof. intros H. apply Binary64.eqb_refl, H. Qed.

Lemma tie_member (s : float) (x : ScoredPoint) (l : list ScoredPoint) :
  In x (List.filter (tie s) l) <-> In x l /\ tie s x = true.
Proof. apply List.filter_In. Qed.

(** A list of numbers is determined by its ranking and by the order in
    each class of equal scores. *)
Lemma ranked_stable_unique (l1 l2 : list ScoredPoint) :
  Forall is_number l1 -> Forall is_number l2 ->
  StronglySorted ranked l1 -> StronglySorted ranked l2 ->
  (forall s, List.filter (tie s) l1 = List.filter (tie s) l2) ->
  l1 = l2.
Proof.
  revert l2. induction l1 as [| x l1 IH]; intros l2 N1 N2 S1 S2 Hties.
  - destruct l2 as [| y l2]; [reflexivity |]. exfalso.
    inversion N2 as [| ? ? Ny _]; subst.
    specialize (Hties (sp_score y)). simpl in Hties.
    rewrite (tie_self y Ny) in Hties. discriminate.
  - inversion N1 as [| ? ? Nx N1']; subst.
    inversion S1 as [| ? ? S1' R1]; subst.
    destruct l2 as [| y l2].
    + exfalso. specialize (Hties (sp_score x)). simpl in Hties.
      rewrite (tie_self x Nx) in Hties. discriminate.
    + inversion N2 as [| ? ? Ny N2']; subst.
      inversion S2 as [| ? ? S2' R2]; subst.
      assert (Hy : tie (sp_score x) y = true).
      { destruct (tie (sp_score x) y) eqn:Ty; [reflexivity | exfalso].
        (* [x] stands after [y] in [l2], and [y] after [x] in [l1] *)
        assert (Hx2 : In x l2).
        { assert (H : In x (List.filter (tie (sp_score x)) (y :: l2))).
          { rewrite <- Hties. simpl. rewrite (tie_self x Nx). left. reflexivity. }
          apply tie_member in H as [[-> | H] _]; [| exact H].
          rewrite (tie_self x Nx) in Ty. discriminate. }
        assert (Hy1 : In y l1).
        { assert (H : In y (List.filter (tie (sp_score y)) (x :: l1))).
          { rewrite Hties. simpl. rewrite (tie_self y Ny). left. reflexivity. }
          apply tie_member in H as [[-> | H] _]; [| exact H].
          rewrite (tie_self y Ny) in Ty. discriminate. }
        pose proof (proj1 (List.Forall_forall _ _) R2 x Hx2) as Ryx.
        pose proof (proj1 (List.Forall_forall _ _) R1 y Hy1) as Rxy.
        unfold ranked in Ryx, Rxy. unfold tie in Ty.
        rewrite (Binary64.leb_antisym _ _ Rxy Ryx) in Ty. discriminate. }
      assert (Hxy : x = y).
      { specialize (Hties (sp_score x)). simpl in Hties.
        rewrite (tie_self x Nx), Hy in Hties. congruence. }
      subst y. f_equal. apply IH; try assumption.
      intros s. specialize (Hties s). simpl in Hties.
      destruct (tie s x); congruence.
Qed.

(** Whatever the algorithm, a stable sort of numbers by the comparator
    returns the list of [sort_by]. *)
Lemma sort_by_unique (l sorted : list ScoredPoint) :
  Forall is_number l -> Forall is_number sorted ->
  StronglySorted ranked sorted ->
  (forall s, List.filter (tie s) sorted = List.filter (tie s) l) ->
  sorted = sort_by by_score_desc l.
Proof.
  intros Nl Ns Ss Hties. apply ranked_stable_unique; try assumption.
  - apply sort_by_Forall, Nl.
  - apply Sorted_StronglySorted; [exact ranked_trans | apply sort_by_ranked, Nl].
  - intros s. rewrite Hties, sort_by_stable. reflexivity.
Qed.

End Ranking.

Lemma filter_map_to_result (f : SearchResult -> bool) (l : list ScoredPoint) :
  List.filter f (map to_result l) = map to_result (List.filter (fun r => f (to_result r)) l).
Proof.
  induction l as [| x l IH]; simpl; [reflexivity |].
  destruct (f (to_result x)); simpl; rewrite IH; reflexivity.
Qed.

Lemma firstn_Forall {A} (P : A -> Prop) (n : nat) (l : list A) :
  Forall P l -> Forall P (firstn n l).
Proof.
  intros H. revert n. induction H as [| x l Hx Hl IH]; intros [| n]; simpl; auto.
Qed.

Lemma search_memory_spec (q : option vector) (k : nat) (t : float) (store : list Point) :
  let passing := List.filter (fun r => t <=? sp_score r) (candidates q store) in
  let found := search_memory q k t store in
  Forall (fun r => (t <=? sp_score r) = true) found
  /\ length found <= k
  /\ StronglySorted ranked found
  /\ forall s, exists rest,
       List.filter (tie s) passing = List.filter (tie s) found ++ rest.
Proof.
  intros passing found.
  assert (HP : Forall (fun r => (t <=? sp_score r) = true) passing).
  { apply List.Forall_forall. intros r Hr. apply List.filter_In in Hr. tauto. }
  assert (HS : Forall (fun r => (t <=? sp_score r) = true) (sort_by by_score_desc passing))
    by (apply sort_by_Forall, HP).
  repeat split.
  - apply firstn_Forall, HS.
  - apply firstn_le_length.
  - apply Sorted_StronglySorted; [exact ranked_trans |].
    apply firstn_Sorted, sort_by_ranked.
    eapply List.Forall_impl; [| exact HP].
    intros r Hr. exact (Binary64.leb_number _ _ Hr).
  - intros s. exists (List.filter (tie s) (skipn k (sort_by by_score_desc passing))).
    unfold found, search_memory. fold passing.
    rewrite <- List.filter_app, firstn_skipn, sort_by_stable. reflexivity.
Qed.

(** C1. In fallback mode [searchSimilar] returns, without changing the
    state, a list in which every score is at least the threshold, of at
    most [limit] results, in which the score of a result is at least the
    score of every later result, and in which results of equal score
    stand in the order in which their points were inserted in the store. *)
Theorem searchSimilar_fallback_spec (env : Env) (w : World)
    (q : option vector) (k : nat) (t : float) :
  fallback w = true ->
  exists results : list SearchResult,
    searchSimilar env q k t w = (Return results, w)
    /\ Forall (fun r => (t <=? r_score r) = true) results
    /\ length results <= k
    /\ StronglySorted (fun a b => (r_score b <=? r_score a) = true) results
    /\ forall s, exists rest,
         map to_result
           (List.filter (tie s)
              (List.filter (fun r => t <=? sp_score r) (candidates q (memoryStore w))))
         = List.filter (fun r => r_score r =? s) results ++ rest.
Proof.
  intros Hfb.
  destruct (search_memory_spec q k t (memoryStore w)) as (HT & HL & HS & HTie).
  exists (map to_result (search_memory q k t (memoryStore w))).
  split; [| split; [| split; [| split]]].
  - unfold searchSimilar. rewrite rethrowing_id.
    unfold bind, get, ret. rewrite Hfb. reflexivity.
  - apply List.Forall_forall. intros r Hr. apply in_map_iff in Hr as (x & <- & Hx).
    exact (proj1 (List.Forall_forall _ _) HT x Hx).
  - rewrite length_map. exact HL.
  - revert HS. generalize (search_memory q k t (memoryStore w)).
    induction 1 as [| x l HSl IH HR]; simpl; constructor; [exact IH |].
    apply List.Forall_forall. intros r Hr. apply in_map_iff in Hr as (y & <- & Hy).
    exact (proj1 (List.Forall_forall _ _) HR y Hy).
  - intros s. destruct (HTie s) as [rest Hrest].
    exists (map to_result rest).
    rewrite filter_map_to_result, <- map_app. f_equal. exact Hrest.
Qed.

(** ** Upserts into the in-memory store *)

Lemma filter_same_id_removed (i : string) (l : list Point) :
  List.filter (same_id i) (List.filter (fun p => negb (same_id i p)) l) = [].
Proof.
  induction l as [| p l IH]; simpl; [reflexivity |].
  destruct (same_id i p) eqn:E; simpl; [exact IH |]. rewrite E. exact IH.
Qed.

Lemma storeDocument_fallback (env : Env) (w : World) (d : Document) :
  fallback w = true ->
  storeDocument env d w
  = (Return true,
     set_memoryStore
       (List.filter (fun p => negb (same_id (id d) p)) (memoryStore w) ++ [point_of (now w) d])
       (log (EvStoreDocument (point_of (now w) d)) w)).
Proof.
  intros H. unfold storeDocument. rewrite rethrowing_id.
  unfold bind, get, modify, ret. simpl. rewrite H. reflexivity.
Qed.

(** C3. In fallback mode, storing a document and then, at any later
    instant, a document of the same id leaves exactly one point of that id
    in the store: a point with the id, the vector of the second document
    and the payload of the second call, that is the title, content, url,
    publication date and source of the second document, its summary (the
    empty string when it has none) and the instant of the second call. *)
Theorem storeDocument_twice (env : Env) (w : World) (d1 d2 : Document) (later : string) :
  fallback w = true -> id d1 = id d2 ->
  exists w1 w2 p,
    storeDocument env d1 w = (Return true, w1)
    /\ List.filter (same_id (id d1)) (memoryStore w1) = [point_of (now w) d1]
    /\ storeDocument env d2 (set_now later w1) = (Return true, w2)
    /\ List.filter (same_id (id d2)) (memoryStore w2) = [p]
    /\ point_id p = id d2
    /\ point_vector p = embedding d2
    /\ point_payload p
       = {| p_title := title d2;
            p_content := content d2;
            p_url := url d2;
            p_publishedAt := publishedAt d2;
            p_source := source d2;
            p_summary := match summary d2 with Some s => s | None => [] end;
            p_createdAt := later |}.
Proof.
  intros Hfb Hid. eexists _, _, (point_of later d2).
  split; [apply storeDocument_fallback, Hfb |].
  assert (Hone : forall (t : string) (d : Document) (l : list Point),
             List.filter (same_id (id d))
               (List.filter (fun p => negb (same_id (id d) p)) l ++ [point_of t d])
             = [point_of t d]).
  { intros t d l. rewrite List.filter_app, filter_same_id_removed. simpl.
    unfold same_id. simpl. rewrite String.eqb_refl. reflexivity. }
  split; [apply Hone |].
  split; [apply storeDocument_fallback; exact Hfb |].
  split; [apply Hone |].
  split; [reflexivity |]. split; [reflexivity |].
  unfold point_of. simpl. destruct (summary d2); reflexivity.
Qed.

Lemma storeDocuments_fallback (env : Env) (w : World) (ds : list Document) :
  fallback w = true ->
  let points := map (point_of (now w)) ds in
  let ids : gset string := list_to_set (map point_id points) in
  storeDocuments env ds w
  = (Return true,
     set_memoryStore
       (List.filter (fun p => negb (bool_decide (point_id p ∈ ids))) (memoryStore w) ++ points)
       (log (EvStoreDocuments points) w)).
Proof.
  intros H. unfold storeDocuments. rewrite rethrowing_id.
  unfold bind, get, modify, ret. simpl. rewrite H. reflexivity.
Qed.

(** What the batch upsert does keep: with distinct ids in the batch, a
    store without duplicates stays without duplicates. *)
Lemma storeDocuments_distinct (env : Env) (w : World) (ds : list Document) :
  fallback w = true ->
  NoDup (map id ds) -> NoDup (map point_id (memoryStore w)) ->
  exists w', storeDocuments env ds w = (Return true, w')
             /\ NoDup (map point_id (memoryStore w')).
Proof.
  intros Hfb Hds Hst. eexists. split; [apply storeDocuments_fallback, Hfb |].
  simpl. rewrite map_app. apply NoDup_app. repeat split.
  - clear Hds. induction (memoryStore w) as [| p l IH]; simpl; [constructor |].
    apply NoDup_cons in Hst as [Hp Hl].
    destruct (bool_decide _); simpl; [auto |].
    apply NoDup_cons. split; [| auto].
    intros Hin. apply Hp. apply list_elem_of_fmap in Hin as (q & Hq & Hin).
    apply list_elem_of_fmap. exists q. split; [exact Hq |].
    apply list_elem_of_In, List.filter_In in Hin. apply list_elem_of_In. tauto.
  - intros i Hi Hi'.
    apply list_elem_of_fmap in Hi as (p & -> & Hp).
    apply list_elem_of_In, List.filter_In in Hp as [_ Hp].
    apply negb_true_iff, bool_decide_eq_false in Hp. apply Hp.
    apply elem_of_list_to_set. exact Hi'.
  - rewrite map_map. exact Hds.
Qed.

Definition doc (i : string) (v : list float) : Document :=
  {| id := i; title := lit "t"; content := lit "c"; url := []; publishedAt := [];
     source := []; summary := None; embedding := Some (numbers v) |}.

Definition empty_fallback_world : World :=
  {| fallback := true; memoryStore := []; redis := ∅; redis_readable := true; redis_writable := true;
     now := "2024-01-01T00:00:00.000Z"; trace := [] |}.

(** C4, at the failing input. A batch that holds the id "a" twice leaves
    two points of id "a" in the in-memory store: the ids of the batch clear
    the entries already stored, and then every point of the batch is
    pushed. *)
Theorem storeDocuments_duplicate_ids (env : Env) :
  exists w',
    storeDocuments env [doc "a" [1; 0]; doc "a" [0; 1]] empty_fallback_world
    = (Return true, w')
    /\ map point_id (memoryStore w') = ["a"; "a"]%string
    /\ map point_vector (memoryStore w') = [Some (numbers [1; 0]); Some (numbers [0; 1])]
    /\ ~ NoDup (map point_id (memoryStore w')).
Proof.
  eexists. split; [apply storeDocuments_fallback; reflexivity |].
  split; [reflexivity |]. split; [reflexivity |].
  simpl. intros H. apply NoDup_cons in H as [H _]. apply H. left.
Qed.

(** ** Counting *)

(** C10. [countDocuments] is total: in every world it returns a number,
    a non-negative integer, and throws nothing. In fallback mode the
    number is the length of the in-memory list and the world is unchanged;
    when [getCollectionInfo] throws, the number is 0. *)
Theorem countDocuments_total (env : Env) (w : World) :
  exists (n : N) (w' : World),
    countDocuments env w = (Return n, w')
    /\ (fallback w = true -> n = N.of_nat (length (memoryStore w)) /\ w' = w)
    /\ (forall e w1, getCollectionInfo env w = (Throw e, w1) -> n = 0%N)
    /\ (forall info w1, getCollectionInfo env w = (Return info, w1) ->
        n = default 0%N (points_count info)).
Proof.
  unfold countDocuments, try_catch, bind, ret.
  destruct (getCollectionInfo env w) as [[info | e] w1] eqn:E.
  - eexists _, _. split; [reflexivity |]. split; [| split].
    + intros Hfb. revert E. unfold getCollectionInfo. rewrite rethrowing_id.
      unfold bind, get, ret. rewrite Hfb. intros E. injection E as <- <-.
      split; reflexivity.
    + intros e w2 H. discriminate.
    + intros info' w2 H. injection H as <- _. reflexivity.
  - eexists _, _. split; [reflexivity |]. split; [| split].
    + intros Hfb. revert E. unfold getCollectionInfo. rewrite rethrowing_id.
      unfold bind, get, ret. rewrite Hfb. discriminate.
    + reflexivity.
    + intros info w2 H. discriminate.
Qed.

(** ** RedisService: the embedding cache (services/redis.js)

    The entries live for seven days; an expiry is a change of the world
    between two calls, not a step of the methods below. A command that
    Redis does not serve throws. *)

Definition embedding_key (docId : string) : string := "embedding:" +:+ docId.

(** The cache holds the JSON text of an embedding; an entry of the cache
    is modelled by the array that the text denotes.
    [JSON.parse(JSON.stringify(x))] on an entry of an array: a finite
    number is read back as the same number, except that -0 is written "0";
    a number that is not finite (NaN, an infinity) is written "null", and
    [null] is read back as [null]. *)
Definition json_number (x : entry) : entry :=
  match x with
  | Num x => if PrimFloat.is_finite x then Num (if x =? 0 then 0 else x) else Null
  | Null => Null
  end.

Definition json_roundtrip (embedding : vector) : vector := map json_number embedding.

Section Cache.

Variable env : Env.

(** [client.setEx(key, 7 * 24 * 60 * 60, value)] *)
Definition client_setEx (key : string) (value : option vector) : M unit :=
  match value with
  | None => throw (redis_invalid_argument env)
  | Some v =>
      let* served := get redis_writable in
      if served then modify (fun w => set_redis (<[key := v]> (redis w)) w)
      else throw (redis_command_error env)
  end.

(** [client.get(key)] *)
Definition client_get (key : string) : M (option vector) :=
  let* served := get redis_readable in
  if served then
    let* entries := get redis in
    ret (entries !! key)
  else throw (redis_command_error env).

(** [JSON.stringify(undefined)] is [undefined], which the client refuses
    as a value: caching a missing embedding throws. *)
Definition cacheEmbedding (docId : string) (embedding : option vector) : M bool :=
  rethrowing
    (let key := embedding_key docId in
     let embeddingStr := option_map json_roundtrip embedding in
     let* _ := client_setEx key embeddingStr in
     ret true).

Definition getCachedEmbedding (docId : string) : M (option vector) :=
  try_catch
    (let key := embedding_key docId in
     let* embeddingStr := client_get key in
     ret embeddingStr)
    (fun _ => ret None).

End Cache.

(** ** EmbeddingsService: the provider (services/embeddings.js) *)

(** What the [catch] of [generateEmbeddings] looks at in the error. *)
Inductive failure :=
| Plain (message : string)
| WithResponse (http_status detail : string)
| WithRequest.

(** [text && typeof text === 'string' && text.trim().length > 0] *)
Definition valid_text (t : text) : bool :=
  match t with
  | [] => false
  | _ => negb (Nat.eqb (length (trim t)) 0)
  end.

(** [embeddings[0]] *)
Definition first_embedding (embeddings : list (option vector)) : option vector :=
  match embeddings with
  | e :: _ => e
  | [] => None
  end.

(** The text that stands for a document. *)
Definition join_parts (parts : list text) : text :=
  match parts with
  | [] => []
  | p :: ps => p ++ concat (map (fun q => [10; 10]%N ++ q) ps)
  end.

Definition maxContentLength : Z := 6000.

Definition createEmbeddingText (document : Document) : text :=
  let parts :=
    (match title document with
     | [] => []
     | t => [lit "Title: " ++ t]
     end)
    ++ (match summary document with
        | Some (c :: s) => [lit "Summary: " ++ c :: s]
        | _ => []
        end)
    ++ (match content document with
        | [] => []
        | c =>
            [lit "Content: "
             ++ (if (maxContentLength <? Z.of_nat (length c))%Z
                 then substring0 c maxContentLength ++ lit "..."
                 else c)]
        end) in
  prepareTextForEmbedding (JsString (join_parts parts)) defaultMaxLength.

Section Provider.

Variable env : Env.

(** The body of the [try] of [generateEmbeddings], for an array of texts. *)
Definition embeddings_request (texts : list text) : failure + list (option vector) :=
  if String.eqb (jinaApiKey env) "" then inl (Plain "JINA_API_KEY is not configured")
  else
    let validTexts := List.filter valid_text texts in
    match validTexts with
    | [] => inl (Plain "No valid text inputs provided for embedding generation")
    | _ =>
        match axios_post env validTexts with
        | Responded None => inl (Plain "Invalid response from Jina API")
        | Responded (Some data) => inr data
        | HttpError st detail => inl (WithResponse st detail)
        | NoResponse => inl WithRequest
        | SetupError m => inl (Plain m)
        end
    end.

(** The error that the [catch] of [generateEmbeddings] throws in place of
    the one it caught. *)
Definition thrown_for (f : failure) : js_error :=
  match f with
  | WithResponse st detail => JsError ("Jina API error: " +:+ st +:+ " - " +:+ detail)
  | WithRequest => JsError "No response received from Jina API - check network connection"
  | Plain m => JsError ("Request setup error: " +:+ m)
  end.

Definition generateEmbeddings (texts : list text) : M (list (option vector)) :=
  match embeddings_request texts with
  | inr embeddings => ret embeddings
  | inl f => throw (thrown_for f)
  end.

Definition generateEmbedding (input : text) : M (option vector) :=
  rethrowing
    (let* _ := modify (log (EvGenerateEmbedding input)) in
     let* embeddings := generateEmbeddings [input] in
     ret (first_embedding embeddings)).

(** ** RAGService (services/rag.js) *)

Definition retrieveRelevantDocuments (query : text) (topK : nat) (scoreThreshold : float)
  : M (list SearchResult) :=
  rethrowing
    (let* queryEmbedding := generateEmbedding query in
     match queryEmbedding with
     | None => throw (JsError "Failed to generate query embedding")
     | Some v =>
         let* similarDocs := searchSimilar env (Some v) topK scoreThreshold in
         ret similarDocs
     end).

(** [{ ...document, embedding }] *)
Definition with_embedding (document : Document) (e : option vector) : Document :=
  {| id := id document; title := title document; content := content document;
     url := url document; publishedAt := publishedAt document;
     source := source document; summary := summary document; embedding := e |}.

Definition processAndStoreDocument (document : Document) : M bool :=
  rethrowing
    (let* cachedEmbedding := getCachedEmbedding env (id document) in
     let* embedding :=
       match cachedEmbedding with
       | Some v => ret (Some v)
       | None =>
           let embeddingText := createEmbeddingText document in
           let* embedding := generateEmbedding embeddingText in
           let* _ := cacheEmbedding env (id document) embedding in
           ret embedding
       end in
     let documentWithEmbedding := with_embedding document embedding in
     let* _ := storeDocument env documentWithEmbedding in
     ret true).

(** The loop of [processAndStoreDocuments], with the array that it fills:
    a document whose block throws is skipped. *)
Fixpoint embedEach (documents : list Document) (documentsWithEmbeddings : list Document)
  : M (list Document) :=
  match documents with
  | [] => ret documentsWithEmbeddings
  | document :: rest =>
      let* documentsWithEmbeddings :=
        try_catch
          (let* cachedEmbedding := getCachedEmbedding env (id document) in
           let* embedding :=
             match cachedEmbedding with
             | Some v => ret (Some v)
             | None =>
                 let embeddingText := createEmbeddingText document in
                 let* embedding := generateEmbedding embeddingText in
                 let* _ := cacheEmbedding env (id document) embedding in
                 ret embedding
             end in
           ret (documentsWithEmbeddings ++ [with_embedding document embedding]))
          (fun _ => ret documentsWithEmbeddings) in
      embedEach rest documentsWithEmbeddings
  end.

Definition processAndStoreDocuments (documents : list Document) : M nat :=
  rethrowing
    (let* documentsWithEmbeddings := embedEach documents [] in
     let* _ :=
       match documentsWithEmbeddings with
       | [] => ret true
       | _ => storeDocuments env documentsWithEmbeddings
       end in
     ret (length documentsWithEmbeddings)).

(** The block that both ingestion methods start with: the cached
    embedding of the document when there is one, otherwise the embedding
    of its text, written to the cache. *)
Definition cachedOrGenerated (document : Document) : M (option vector) :=
  let* cachedEmbedding := getCachedEmbedding env (id document) in
  match cachedEmbedding with
  | Some v => ret (Some v)
  | None =>
      let embeddingText := createEmbeddingText document in
      let* embedding := generateEmbedding embeddingText in
      let* _ := cacheEmbedding env (id document) embedding in
      ret embedding
  end.

Lemma processAndStoreDocument_block (document : Document) (w : World) :
  processAndStoreDocument document w
  = (let* embedding := cachedOrGenerated document in
     let* _ := storeDocument env (with_embedding document embedding) in
     ret true) w.
Proof.
  unfold processAndStoreDocument, cachedOrGenerated.
  rewrite rethrowing_id, bind_assoc. reflexivity.
Qed.

Lemma embedEach_block (document : Document) (rest acc : list Document) (w : World) :
  embedEach (document :: rest) acc w
  = (let* acc' :=
       try_catch
         (let* embedding := cachedOrGenerated document in
          ret (acc ++ [with_embedding document embedding]))
         (fun _ => ret acc) in
     embedEach rest acc') w.
Proof.
  simpl embedEach. unfold cachedOrGenerated.
  unfold bind at 1. symmetry. unfold bind at 1. symmetry.
  unfold try_catch. rewrite bind_assoc. reflexivity.
Qed.

End Provider.

(** The number of calls of the embedding provider in a trace. *)
Definition is_provider_call (ev : Event) : bool :=
  match ev with
  | EvGenerateEmbedding _ => true
  | _ => false
  end.

Definition provider_calls (tr : list Event) : nat := length (List.filter is_provider_call tr).

(** The calls that write to the vector store. *)
Definition is_store_write (ev : Event) : bool :=
  match ev with
  | EvStoreDocument _ | EvStoreDocuments _ | EvClientUpsert _ => true
  | _ => false
  end.

(** ** Retrieval *)

(** The defaults of [RAGService]: [defaultTopK = 5] and
    [defaultScoreThreshold = 0.7], the latter as the binary64 value that
    the literal denotes. *)
Definition defaultTopK : nat := 5.

Definition defaultScoreThreshold : float := 0x1.6666666666666p-1.

(** What the provider answers for one text: a vector, no vector, or an
    error. *)
Definition provider_outcome (env : Env) (input : text) : outcome (option vector) :=
  match embeddings_request env [input] with
  | inr embeddings => Return (first_embedding embeddings)
  | inl f => Throw (thrown_for f)
  end.

Lemma generateEmbedding_run (env : Env) (input : text) (w : World) :
  generateEmbedding env input w
  = (provider_outcome env input, log (EvGenerateEmbedding input) w).
Proof.
  unfold generateEmbedding, provider_outcome. rewrite rethrowing_id.
  unfold bind, modify, generateEmbeddings.
  destruct (embeddings_request env [input]); reflexivity.
Qed.

Lemma searchSimilar_run (env : Env) (q : option vector) (k : nat) (t : float) (w : World) :
  exists o,
    searchSimilar env q k t w
    = (o, if fallback w then w else log EvClientSearch w).
Proof.
  unfold searchSimilar. rewrite rethrowing_id. unfold bind, get, modify, ret.
  destruct (fallback w); [eauto |].
  destruct (client_search env q k t); unfold throw, ret; eauto.
Qed.

(** The retrieval, case by case of what the provider answers. *)
Lemma retrieveRelevantDocuments_run (env : Env) (w : World)
    (query : text) (topK : nat) (scoreThreshold : float) :
  retrieveRelevantDocuments env query topK scoreThreshold w
  = match provider_outcome env query with
    | Throw e => (Throw e, log (EvGenerateEmbedding query) w)
    | Return None =>
        (Throw (JsError "Failed to generate query embedding"),
         log (EvGenerateEmbedding query) w)
    | Return (Some v) =>
        searchSimilar env (Some v) topK scoreThreshold (log (EvGenerateEmbedding query) w)
    end.
Proof.
  unfold retrieveRelevantDocuments. rewrite rethrowing_id. unfold bind.
  rewrite generateEmbedding_run.
  destruct (provider_outcome env query) as [[v |] | e]; try reflexivity.
  destruct (searchSimilar env (Some v) topK scoreThreshold _) as [[r | e] w2]; reflexivity.
Qed.

(** C7, as amended. When the provider throws, [retrieveRelevantDocuments]
    throws the same error; when the provider answers without a vector, it
    throws its own error, "Failed to generate query embedding". In both
    cases no result list is returned and the store is not searched. With a
    vector, the call is the search of the store with that vector. *)
Theorem retrieve_embedding_unavailable (env : Env) (w : World)
    (query : text) (topK : nat) (scoreThreshold : float) :
  let w' := log (EvGenerateEmbedding query) w in
  generateEmbedding env query w = (provider_outcome env query, w')
  /\ retrieveRelevantDocuments env query topK scoreThreshold w
     = match provider_outcome env query with
       | Throw e => (Throw e, w')
       | Return None => (Throw (JsError "Failed to generate query embedding"), w')
       | Return (Some v) => searchSimilar env (Some v) topK scoreThreshold w'
       end.
Proof.
  split; [apply generateEmbedding_run | apply retrieveRelevantDocuments_run].
Qed.

(** An embedding service that answers with an empty list of embeddings. *)
Definition env_no_vector : Env :=
  {| jinaApiKey := "key";
     axios_post := fun _ => Responded (Some []);
     client_upsert := fun _ => None;
     client_search := fun _ _ _ => inr [];
     client_getCollection := inl (JsError "unreachable");
     redis_command_error := JsError "MISCONF Redis is configured to save RDB snapshots";
     redis_invalid_argument := JsError "Invalid argument type" |}.

(** C7, counterexample. The provider answers, without any error, with no
    vector; the retrieval fails with an error of its own, which is not an
    error of the provider. *)
Lemma retrieve_no_vector_own_error :
  generateEmbedding env_no_vector (lit "What's new in AI?") empty_fallback_world
  = (Return None, log (EvGenerateEmbedding (lit "What's new in AI?")) empty_fallback_world)
  /\ retrieveRelevantDocuments env_no_vector (lit "What's new in AI?")
       defaultTopK defaultScoreThreshold empty_fallback_world
     = (Throw (JsError "Failed to generate query embedding"),
        log (EvGenerateEmbedding (lit "What's new in AI?")) empty_fallback_world)
  /\ ~ (exists e w',
          generateEmbedding env_no_vector (lit "What's new in AI?") empty_fallback_world
          = (Throw e, w')).
Proof.
  split; [reflexivity |]. split; [reflexivity |].
  intros (e & w' & H). discriminate H.
Qed.

(** The calls that only read. *)
Definition is_read (ev : Event) : Prop :=
  match ev with
  | EvGenerateEmbedding _ | EvClientSearch | EvClientGetCollection => True
  | _ => False
  end.

(** C8. [retrieveRelevantDocuments] writes nothing: after the call the
    in-memory store, the mode and the embedding cache are what they were,
    and the calls it made are the call of the provider and, at most, one
    search of the networked store; none of them writes. *)
Theorem retrieve_read_only (env : Env) (w : World)
    (query : text) (topK : nat) (scoreThreshold : float) :
  let w' := snd (retrieveRelevantDocuments env query topK scoreThreshold w) in
  memoryStore w' = memoryStore w
  /\ fallback w' = fallback w
  /\ redis w' = redis w
  /\ exists evs, trace w' = evs ++ trace w
                 /\ Forall is_read evs
                 /\ Forall (fun ev => is_store_write ev = false) evs.
Proof.
  rewrite retrieveRelevantDocuments_run.
  assert (Hreads : forall evs, Forall is_read evs ->
                               Forall (fun ev => is_store_write ev = false) evs).
  { intros evs. induction 1 as [| ev evs Hev _ IH]; constructor; [| exact IH].
    destruct ev; simpl in *; tauto. }
  destruct (provider_outcome env query) as [[v |] | e]; cbv zeta.
  - destruct (searchSimilar_run env (Some v) topK scoreThreshold
                (log (EvGenerateEmbedding query) w)) as [o ->].
    simpl. destruct (fallback w) eqn:Hfb; simpl; rewrite ?Hfb;
      (split; [reflexivity | split; [reflexivity | split; [reflexivity |]]]).
    + exists [EvGenerateEmbedding query].
      split; [reflexivity |]. split; [| apply Hreads]; repeat constructor.
    + exists [EvClientSearch; EvGenerateEmbedding query].
      split; [reflexivity |]. split; [| apply Hreads]; repeat constructor.
  - simpl. split; [reflexivity | split; [reflexivity | split; [reflexivity |]]].
    exists [EvGenerateEmbedding query].
    split; [reflexivity |]. split; [| apply Hreads]; repeat constructor.
  - simpl. split; [reflexivity | split; [reflexivity | split; [reflexivity |]]].
    exists [EvGenerateEmbedding query].
    split; [reflexivity |]. split; [| apply Hreads]; repeat constructor.
Qed.

(** ** Ingestion *)

Local Close Scope float_scope.

(** What a lookup of the cache gives: the entry, when Redis serves the
    read and holds one. *)
Definition cached (w : World) (docId : string) : option vector :=
  if redis_readable w then redis w !! embedding_key docId else None.

Lemma getCachedEmbedding_run (env : Env) (docId : string) (w : World) :
  getCachedEmbedding env docId w = (Return (cached w docId), w).
Proof.
  unfold getCachedEmbedding, try_catch, client_get, bind, get, cached.
  destruct (redis_readable w); reflexivity.
Qed.

Lemma cacheEmbedding_run (env : Env) (docId : string) (e : option vector) (w : World) :
  cacheEmbedding env docId e w
  = match e with
    | None => (Throw (redis_invalid_argument env), w)
    | Some v =>
        if redis_writable w
        then (Return true, set_redis (<[embedding_key docId := json_roundtrip v]> (redis w)) w)
        else (Throw (redis_command_error env), w)
    end.
Proof.
  unfold cacheEmbedding. rewrite rethrowing_id.
  unfold bind, client_setEx. destruct e as [v |]; [| reflexivity].
  simpl. unfold bind, get. destruct (redis_writable w); reflexivity.
Qed.

(** The ways the common block of the ingestion methods ends. *)
Lemma cachedOrGenerated_run (env : Env) (d : Document) (w : World) :
  cachedOrGenerated env d w
  = match cached w (id d) with
    | Some v => (Return (Some v), w)
    | None =>
        let w1 := log (EvGenerateEmbedding (createEmbeddingText d)) w in
        match provider_outcome env (createEmbeddingText d) with
        | Return (Some v) =>
            if redis_writable w
            then (Return (Some v),
                  set_redis (<[embedding_key (id d) := json_roundtrip v]> (redis w)) w1)
            else (Throw (redis_command_error env), w1)
        | Return None => (Throw (redis_invalid_argument env), w1)
        | Throw e => (Throw e, w1)
        end
    end.
Proof.
  unfold cachedOrGenerated, bind. rewrite getCachedEmbedding_run.
  destruct (cached w (id d)) as [v |]; [reflexivity |].
  rewrite generateEmbedding_run. cbv zeta.
  destruct (provider_outcome env (createEmbeddingText d)) as [[v |] | e];
    try reflexivity; rewrite cacheEmbedding_run; simpl; try reflexivity.
  destruct (redis_writable w); reflexivity.
Qed.







(** An embedding service without a configured key: every call of the
    provider throws. *)
Definition env_no_key : Env :=
  {| jinaApiKey := "";
     axios_post := fun _ => NoResponse;
     client_upsert := fun _ => None;
     client_search := fun _ _ _ => inr [];
     client_getCollection := inl (JsError "unreachable");
     redis_command_error := JsError "MISCONF Redis is configured to save RDB snapshots";
     redis_invalid_argument := JsError "Invalid argument type" |}.


(** *** Batches *)

(** The vector that the provider gives for a document, when it gives one. *)
Definition provider_vector (env : Env) (d : Document) : option vector :=
  match provider_outcome env (createEmbeddingText d) with
  | Return (Some v) => Some v
  | _ => None
  end.

(** The documents of a batch that get through the block, by the steps of
    the specification: check the cache by document id; on a hit reuse the
    vector; on a miss call the provider and write the vector through to the
    cache. A read that Redis does not serve is a miss. A document is left
    out when the provider gives no vector for it, and when the vector
    cannot be written to the cache. *)
Fixpoint embedded_documents (env : Env) (readable writable : bool)
    (cache : gmap string vector) (documents : list Document) : list Document :=
  match documents with
  | [] => []
  | d :: rest =>
      match (if readable then cache !! embedding_key (id d) else None) with
      | Some v =>
          with_embedding d (Some v) :: embedded_documents env readable writable cache rest
      | None =>
          match provider_vector env d with
          | Some v =>
              if writable
              then with_embedding d (Some v)
                   :: embedded_documents env readable writable
                        (<[embedding_key (id d) := json_roundtrip v]> cache) rest
              else embedded_documents env readable writable cache rest
          | None => embedded_documents env readable writable cache rest
          end
      end
  end.

(** The documents that the provider can embed, each with its vector. *)
Definition provider_embedded (env : Env) (documents : list Document) : list Document :=
  omap (fun d => match provider_vector env d with
                 | Some v => Some (with_embedding d (Some v))
                 | None => None
                 end) documents.

Definition is_provider_event (ev : Event) : Prop := is_provider_call ev = true.

(** The loop never throws: it ends with the documents that got through,
    having done nothing but call the provider and write to the cache. *)
Lemma embedEach_run (env : Env) (documents acc : list Document) (w : World) :
  exists w1 evs,
    embedEach env documents acc w
    = (Return (acc ++ embedded_documents env (redis_readable w) (redis_writable w)
                        (redis w) documents), w1)
    /\ fallback w1 = fallback w
    /\ memoryStore w1 = memoryStore w
    /\ now w1 = now w
    /\ trace w1 = evs ++ trace w
    /\ Forall is_provider_event evs.
Proof.
  revert acc w. induction documents as [| d rest IH]; intros acc w.
  - exists w, []. simpl. rewrite app_nil_r. repeat split. constructor.
  - rewrite embedEach_block. unfold bind at 1. unfold try_catch, bind at 1.
    rewrite cachedOrGenerated_run. simpl embedded_documents.
    unfold provider_vector, cached.
    assert (Hmiss : forall (w0 : World) (kept : list Document),
               fallback w0 = fallback w -> memoryStore w0 = memoryStore w ->
               now w0 = now w ->
               trace w0 = EvGenerateEmbedding (createEmbeddingText d) :: trace w ->
               exists w1 evs,
                 embedEach env rest kept w0
                 = (Return (kept ++ embedded_documents env (redis_readable w0)
                                      (redis_writable w0) (redis w0) rest), w1)
                 /\ fallback w1 = fallback w
                 /\ memoryStore w1 = memoryStore w
                 /\ now w1 = now w
                 /\ trace w1 = evs ++ trace w
                 /\ Forall is_provider_event evs).
    { intros w0 kept F0 M0 N0 T0.
      destruct (IH kept w0) as (w1 & evs & E & H1 & H2 & H3 & H4 & H5).
      exists w1, (evs ++ [EvGenerateEmbedding (createEmbeddingText d)]).
      rewrite <- app_assoc. simpl. rewrite <- T0.
      repeat split; try congruence.
      apply Forall_app. split; [assumption | repeat constructor]. }
    destruct (if redis_readable w then redis w !! embedding_key (id d) else None)
      as [v |] eqn:Hc.
    + unfold ret at 1.
      destruct (IH (acc ++ [with_embedding d (Some v)]) w)
        as (w1 & evs & E & H1 & H2 & H3 & H4 & H5).
      exists w1, evs. rewrite E, <- app_assoc. repeat split; assumption.
    + cbv zeta.
      destruct (provider_outcome env (createEmbeddingText d)) as [[v |] | e];
        [destruct (redis_writable w) eqn:Hwr | |];
        unfold ret at 1;
        match goal with
        | |- context [embedEach env rest ?a ?w0] =>
            destruct (Hmiss w0 a) as (w1 & evs & E & H); try reflexivity
        end;
        exists w1, evs; rewrite E; simpl; rewrite ?Hwr, <- ?app_assoc;
        (split; [reflexivity | exact H]).
Qed.






(** *** The scenarios of the specification, run on the model *)

Definition article (i : string) (body : string) : Document :=
  {| id := i; title := lit "AI breakthrough"; content := lit body; url := lit "https://example.org";
     publishedAt := lit "2024-01-01"; source := lit "feed"; summary := None; embedding := None |}.

(** An embedding service that fails on a text ending with "!" and
    otherwise answers with a unit vector for each text. *)
Definition env_flaky : Env :=
  {| jinaApiKey := "key";
     axios_post := fun texts =>
       if existsb (fun t => N.eqb (List.last t 0%N) 33) texts
       then HttpError "500" "cannot embed"
       else Responded (Some (map (fun _ => Some (numbers [1%float; 0%float])) texts));
     client_upsert := fun _ => None;
     client_search := fun _ _ _ => inr [];
     client_getCollection := inl (JsError "unreachable");
     redis_command_error := JsError "MISCONF Redis is configured to save RDB snapshots";
     redis_invalid_argument := JsError "Invalid argument type" |}.

Definition batch_of_five : list Document :=
  [article "d1" "one"; article "d2" "two"; article "d3" "three!";
   article "d4" "four"; article "d5" "five"].

(** A batch of five documents of which the third cannot be embedded:
    four documents are stored, the third is not, the provider was called
    five times and the store written once. *)
Example batch_of_five_stores_four :
  let '(o, w) := processAndStoreDocuments env_flaky batch_of_five empty_fallback_world in
  o = Return 4
  /\ map point_id (memoryStore w) = ["d1"; "d2"; "d4"; "d5"]%string
  /\ provider_calls (trace w) = 5
  /\ length (List.filter is_store_write (trace w)) = 1
  /\ head (trace w)
     = Some (EvStoreDocuments
               (map (point_of (now empty_fallback_world))
                  (provider_embedded env_flaky batch_of_five))).
Proof. vm_compute. repeat split. Qed.



(** The same document ingested twice: the second ingestion is served from
    the cache. *)
Example second_ingestion_served_from_cache :
  let '(_, w1) := processAndStoreDocument env_flaky (article "d1" "one") empty_fallback_world in
  let '(o2, w2) := processAndStoreDocument env_flaky (article "d1" "one") w1 in
  o2 = Return true
  /\ provider_calls (trace w2) = 1
  /\ map point_id (memoryStore w2) = ["d1"]%string.
Proof. vm_compute. repeat split. Qed.

(** A stale entry is replaced by the batch, and an id repeated in the
    batch is stored twice. *)
Example storeDocuments_replaces_stale :
  let '(_, w1) := storeDocument env_flaky (doc "a" [0.5%float]) empty_fallback_world in
  let '(_, w2) := storeDocuments env_flaky [doc "a" [1%float]; doc "b" [2%float]; doc "a" [3%float]] w1 in
  map point_vector (memoryStore w2) = [Some (numbers [1%float]); Some (numbers [2%float]); Some (numbers [3%float])].
Proof. vm_compute. reflexivity. Qed.

(** End to end: one stored document is found by a query with threshold 0
    and topK 1. *)
Example end_to_end :
  let '(_, w1) := processAndStoreDocument env_flaky (article "a1" "AI text") empty_fallback_world in
  let '(o, _) := retrieveRelevantDocuments env_flaky (lit "What's new in AI?") 1 0%float w1 in
  match o with
  | Return [r] => r_id r = "a1"%string /\ r_score r = 1%float
  | _ => False
  end.
Proof. vm_compute. split; reflexivity. Qed.

(** Ranking in the in-memory store: threshold, bound, order and ties. *)
Definition ranking_world : World :=
  {| fallback := true;
     memoryStore :=
       [point_of "t" (doc "low" [1; 2]%float); point_of "t" (doc "first" [2; 0]%float);
        point_of "t" (doc "none" [0; 0]%float); point_of "t" (doc "second" [3; 0]%float);
        point_of "t" (doc "neg" [-1; 0]%float)];
     redis := ∅; redis_readable := true; redis_writable := true; now := "t"; trace := [] |}.

Example ranking_example :
  match searchSimilar env_flaky (Some (numbers [1; 0]%float)) 3 0.25%float ranking_world with
  | (Return rs, _) => map r_id rs = ["first"; "second"; "low"]%string
  | _ => False
  end.
Proof. vm_compute. reflexivity. Qed.

(** *** Instances of the theorems that carry hypotheses *)

Lemma searchSimilar_fallback_witness :
  fallback ranking_world = true
  /\ exists results,
       searchSimilar env_flaky (Some (numbers [1; 0]%float)) 3 0.25%float ranking_world
       = (Return results, ranking_world)
       /\ length results <= 3
       /\ StronglySorted (fun a b => (r_score b <=? r_score a)%float = true) results.
Proof.
  split; [reflexivity |].
  destruct (searchSimilar_fallback_spec env_flaky ranking_world
              (Some (numbers [1; 0]%float)) 3 0.25%float eq_refl)
    as (results & Hrun & _ & Hlen & Hsorted & _).
  exists results. split; [exact Hrun |]. split; [exact Hlen | exact Hsorted].
Defined.

Lemma storeDocument_twice_witness :
  fallback empty_fallback_world = true
  /\ id (doc "a" [1; 0]%float) = id (doc "a" [0; 1]%float)
  /\ exists w1 w2 p,
       storeDocument env_flaky (doc "a" [1; 0]%float) empty_fallback_world = (Return true, w1)
       /\ storeDocument env_flaky (doc "a" [0; 1]%float) (set_now "later" w1) = (Return true, w2)
       /\ List.filter (same_id "a") (memoryStore w2) = [p]
       /\ point_vector p = Some (numbers [0; 1]%float)
       /\ p_title (point_payload p) = lit "t"
       /\ p_createdAt (point_payload p) = "later"%string.
Proof.
  split; [reflexivity |]. split; [reflexivity |].
  destruct (storeDocument_twice env_flaky empty_fallback_world
              (doc "a" [1; 0]%float) (doc "a" [0; 1]%float) "later" eq_refl eq_refl)
    as (w1 & w2 & p & H1 & _ & H2 & H3 & _ & Hv & Hp).
  exists w1, w2, p. split; [exact H1 |]. split; [exact H2 |]. split; [exact H3 |].
  split; [exact Hv |]. rewrite Hp. split; reflexivity.
Defined.



(** * The rest of the services *)

(** ** QdrantService: deletion (services/qdrant.js) *)

(** The deleting calls of the networked client:
    [client.delete(collection, { wait: true, points })] and
    [client.delete(collection, { wait: true, filter: {} })], each with the
    error it throws, if any. *)
Record DeleteClient := {
  client_delete_points : list string -> option js_error;
  client_delete_filter : option js_error
}.

Section Deletion.

Variable client : DeleteClient.

Definition deleteDocument (docId : string) : M bool :=
  rethrowing
    (let* fb := get fallback in
     let* _ :=
       if fb then
         modify (fun w =>
           set_memoryStore
             (List.filter (fun p => negb (same_id docId p)) (memoryStore w)) w)
       else
         match client_delete_points client [docId] with
         | None => ret tt
         | Some e => throw e
         end in
     ret true).

Definition clearCollection : M bool :=
  rethrowing
    (let* fb := get fallback in
     let* _ :=
       if fb then modify (set_memoryStore [])
       else
         match client_delete_filter client with
         | None => ret tt
         | Some e => throw e
         end in
     ret true).

End Deletion.

(** The ids of the points of the in-memory store. *)
Definition stored_ids (w : World) : list string := map point_id (memoryStore w).

Section Store.

Lemma set_memoryStore_same (w : World) : set_memoryStore (memoryStore w) w = w.
Proof. destruct w; reflexivity. Qed.

Lemma same_id_true (i : string) (p : Point) : same_id i p = true <-> point_id p = i.
Proof. unfold same_id. apply String.eqb_eq. Qed.

Lemma same_id_false (i : string) (p : Point) : same_id i p = false <-> point_id p <> i.
Proof. unfold same_id. apply String.eqb_neq. Qed.

Lemma filter_other_ids_absent (i : string) (l : list Point) :
  ~ In i (map point_id l) ->
  List.filter (fun p => negb (same_id i p)) l = l.
Proof.
  induction l as [| p l IH]; simpl; [reflexivity |].
  intros H. destruct (same_id i p) eqn:E.
  - exfalso. apply H. left. apply same_id_true, E.
  - simpl. f_equal. apply IH. tauto.
Qed.

Lemma filter_other_ids_gone (i : string) (l : list Point) :
  ~ In i (map point_id (List.filter (fun p => negb (same_id i p)) l)).
Proof.
  intros H. apply in_map_iff in H as (p & Hp & Hin).
  apply List.filter_In in Hin as [_ Hn].
  apply negb_true_iff, same_id_false in Hn. contradiction.
Qed.

Lemma filter_other_ids_keeps (i j : string) (l : list Point) :
  j <> i ->
  List.filter (same_id j) (List.filter (fun p => negb (same_id i p)) l)
  = List.filter (same_id j) l.
Proof.
  intros Hji. induction l as [| p l IH]; simpl; [reflexivity |].
  destruct (same_id i p) eqn:Ei; simpl.
  - destruct (same_id j p) eqn:Ej; [| exact IH].
    apply same_id_true in Ei, Ej. congruence.
  - rewrite IH. reflexivity.
Qed.

Lemma filter_split_length (f : Point -> bool) (l : list Point) :
  length (List.filter (fun p => negb (f p)) l) + length (List.filter f l) = length l.
Proof.
  induction l as [| p l IH]; simpl; [reflexivity |].
  destruct (f p); simpl; lia.
Qed.

Lemma filter_other_ids_NoDup (f : Point -> bool) (l : list Point) :
  NoDup (map point_id l) -> NoDup (map point_id (List.filter f l)).
Proof.
  induction l as [| p l IH]; simpl; [auto |].
  intros H. apply NoDup_cons in H as [Hp Hl].
  destruct (f p); simpl; [| auto].
  apply NoDup_cons. split; [| auto].
  intros Hin. apply Hp.
  apply list_elem_of_In, in_map_iff in Hin as (q & Hq & Hin).
  apply list_elem_of_In, in_map_iff. exists q. split; [exact Hq |].
  apply List.filter_In in Hin. tauto.
Qed.

Lemma NoDup_one_of_id (i : string) (l : list Point) :
  NoDup (map point_id l) -> In i (map point_id l) ->
  length (List.filter (same_id i) l) = 1.
Proof.
  induction l as [| p l IH]; simpl; [tauto |].
  intros H Hin. apply NoDup_cons in H as [Hp Hl].
  destruct (same_id i p) eqn:E.
  - apply same_id_true in E. subst i. simpl. f_equal.
    assert (Hnone : forall l', ~ In (point_id p) (map point_id l') ->
                               List.filter (same_id (point_id p)) l' = []).
    { induction l' as [| q l' IH']; simpl; [reflexivity |].
      intros Hq. destruct (same_id (point_id p) q) eqn:Eq.
      - exfalso. apply Hq. left. apply same_id_true, Eq.
      - apply IH'. tauto. }
    rewrite Hnone; [reflexivity |].
    intros Hin'. apply Hp, list_elem_of_In, Hin'.
  - apply IH; [exact Hl |]. destruct Hin as [Hin | Hin]; [| exact Hin].
    apply same_id_false in E. congruence.
Qed.

Lemma deleteDocument_fallback (client : DeleteClient) (w : World) (docId : string) :
  fallback w = true ->
  deleteDocument client docId w
  = (Return true,
     set_memoryStore (List.filter (fun p => negb (same_id docId p)) (memoryStore w)) w).
Proof.
  intros H. unfold deleteDocument. rewrite rethrowing_id.
  unfold bind, get, modify, ret. rewrite H. reflexivity.
Qed.

Lemma clearCollection_fallback (client : DeleteClient) (w : World) :
  fallback w = true ->
  clearCollection client w = (Return true, set_memoryStore [] w).
Proof.
  intros H. unfold clearCollection. rewrite rethrowing_id.
  unfold bind, get, modify, ret. rewrite H. reflexivity.
Qed.

Lemma searchSimilar_fallback (env : Env) (w : World)
    (q : option vector) (k : nat) (t : float) :
  fallback w = true ->
  searchSimilar env q k t w
  = (Return (map to_result (search_memory q k t (memoryStore w))), w).
Proof.
  intros H. unfold searchSimilar. rewrite rethrowing_id.
  unfold bind, get, ret. rewrite H. reflexivity.
Qed.

Lemma countDocuments_fallback (env : Env) (w : World) :
  fallback w = true ->
  countDocuments env w = (Return (N.of_nat (length (memoryStore w))), w).
Proof.
  intros H. unfold countDocuments, try_catch, getCollectionInfo.
  unfold bind at 1. rewrite rethrowing_id.
  unfold bind, get, ret. rewrite H. reflexivity.
Qed.

Lemma insert_by_In (x y : ScoredPoint) (l : list ScoredPoint) :
  In x (insert_by by_score_desc y l) <-> x = y \/ In x l.
Proof.
  induction l as [| z l IH]; simpl; [intuition congruence |].
  destruct (PrimFloat.ltb 0 (by_score_desc y z)); simpl; [rewrite IH |]; intuition congruence.
Qed.

Lemma sort_by_In (x : ScoredPoint) (l : list ScoredPoint) :
  In x (sort_by by_score_desc l) <-> In x l.
Proof.
  induction l as [| y l IH]; simpl; [tauto |].
  rewrite insert_by_In, IH. intuition congruence.
Qed.

Lemma firstn_In {A} (x : A) (n : nat) (l : list A) : In x (firstn n l) -> In x l.
Proof.
  revert n. induction l as [| y l IH]; intros [| n]; simpl; try tauto.
  intros [H | H]; [auto | right; exact (IH _ H)].
Qed.

(** What the in-memory search returns comes from the store. *)
Lemma search_memory_In (q : option vector) (k : nat) (t : float)
    (store : list Point) (r : ScoredPoint) :
  In r (search_memory q k t store) ->
  (PrimFloat.leb t (sp_score r) = true) /\ exists p, In p store /\ r = scored q p.
Proof.
  unfold search_memory, candidates. intros H.
  apply firstn_In, sort_by_In, List.filter_In in H as [H Ht].
  split; [exact Ht |].
  apply in_map_iff in H as (p & <- & Hp). eauto.
Qed.

(** With a limit that is not below the number of points, nothing that
    passes the threshold is cut. *)
Lemma search_memory_complete (q : option vector) (k : nat) (t : float)
    (store : list Point) (p : Point) :
  length store <= k -> In p store ->
  PrimFloat.leb t (cosineSimilarity q (point_vector p)) = true ->
  In (scored q p) (search_memory q k t store).
Proof.
  intros Hk Hp Ht. unfold search_memory.
  rewrite firstn_all2.
  - apply sort_by_In, List.filter_In. split; [| exact Ht].
    unfold candidates. apply in_map, Hp.
  - rewrite sort_by_length.
    etransitivity; [apply List.filter_length_le |].
    unfold candidates. rewrite length_map. exact Hk.
Qed.

End Store.

(** A networked client whose deleting calls succeed. *)
Definition delete_client_ok : DeleteClient :=
  {| client_delete_points := fun _ => None; client_delete_filter := None |}.

(** A networked client whose deleting calls fail. *)
Definition delete_client_down : DeleteClient :=
  {| client_delete_points := fun _ => Some (JsError "ECONNREFUSED");
     client_delete_filter := Some (JsError "ECONNREFUSED") |}.

Definition networked_world : World :=
  {| fallback := false;
     memoryStore := [point_of "t" (doc "kept" [1%float])];
     redis := ∅; redis_readable := true; redis_writable := true; now := "t"; trace := [] |}.

Lemma filter_sublist (f : Point -> bool) (l : list Point) : sublist (List.filter f l) l.
Proof.
  induction l as [| p l IH]; simpl; [constructor |].
  destruct (f p); [apply sublist_skip | apply sublist_cons]; exact IH.
Qed.

(** X1. In fallback mode [deleteDocument] returns true and changes nothing
    but the in-memory store: no point of the id is left, the points of
    every other id stay as they were and in their order, and the store
    shrinks by the number of points that had the id. *)
Theorem deleteDocument_removes (client : DeleteClient) (w : World) (docId : string) :
  fallback w = true ->
  exists w',
    deleteDocument client docId w = (Return true, w')
    /\ ~ In docId (stored_ids w')
    /\ (forall j, j <> docId ->
        List.filter (same_id j) (memoryStore w') = List.filter (same_id j) (memoryStore w))
    /\ sublist (memoryStore w') (memoryStore w)
    /\ length (memoryStore w') + length (List.filter (same_id docId) (memoryStore w))
       = length (memoryStore w)
    /\ fallback w' = fallback w /\ redis w' = redis w /\ trace w' = trace w.
Proof.
  intros Hfb. eexists. split; [apply deleteDocument_fallback, Hfb |]. simpl.
  split; [apply filter_other_ids_gone |].
  split; [intros j Hj; apply filter_other_ids_keeps, Hj |].
  split; [apply filter_sublist |].
  split; [apply (filter_split_length (same_id docId)) |].
  repeat split.
Qed.

(** X2. In fallback mode, deleting an id that is not stored succeeds and
    changes nothing; hence a second deletion of an id changes nothing
    after the first. *)
Theorem deleteDocument_absent (client : DeleteClient) (w : World) (docId : string) :
  fallback w = true ->
  (~ In docId (stored_ids w) -> deleteDocument client docId w = (Return true, w))
  /\ (forall w1, deleteDocument client docId w = (Return true, w1) ->
      deleteDocument client docId w1 = (Return true, w1)).
Proof.
  intros Hfb.
  assert (Habs : forall w0, fallback w0 = true -> ~ In docId (stored_ids w0) ->
                            deleteDocument client docId w0 = (Return true, w0)).
  { intros w0 H0 Hn. rewrite deleteDocument_fallback by exact H0.
    rewrite filter_other_ids_absent by exact Hn.
    rewrite set_memoryStore_same. reflexivity. }
  split; [apply Habs, Hfb |].
  intros w1 H1. rewrite deleteDocument_fallback in H1 by exact Hfb.
  injection H1 as <-. apply Habs; [exact Hfb |].
  apply filter_other_ids_gone.
Qed.

(** X3. In fallback mode, storing a document under a new id and then
    deleting that id gives back the store as it was. *)
Theorem store_then_delete (env : Env) (client : DeleteClient) (w : World) (d : Document) :
  fallback w = true -> ~ In (id d) (stored_ids w) ->
  exists w1 w2,
    storeDocument env d w = (Return true, w1)
    /\ In (id d) (stored_ids w1)
    /\ deleteDocument client (id d) w1 = (Return true, w2)
    /\ memoryStore w2 = memoryStore w.
Proof.
  intros Hfb Hnew. eexists _, _.
  split; [apply storeDocument_fallback, Hfb |].
  split.
  { unfold stored_ids. simpl. rewrite map_app. apply in_or_app. right. left. reflexivity. }
  split; [apply deleteDocument_fallback; exact Hfb |].
  cbn [memoryStore set_memoryStore log]. rewrite List.filter_app.
  cbn [List.filter].
  assert (Hself : same_id (id d) (point_of (now w) d) = true)
    by (apply same_id_true; reflexivity).
  rewrite Hself. cbn [negb]. rewrite app_nil_r.
  fold (stored_ids w) in Hnew. unfold stored_ids in Hnew.
  rewrite (filter_other_ids_absent _ _ Hnew).
  apply (filter_other_ids_absent _ _ Hnew).
Qed.

(** X4. In fallback mode [storeDocument] keeps the ids of the store
    unique. On such a store the count that [countDocuments] reports grows
    by one when the id is new and stays the same when the id was already
    stored. *)
Theorem storeDocument_keeps_ids_unique (env : Env) (w : World) (d : Document) :
  fallback w = true -> NoDup (stored_ids w) ->
  exists w' n n',
    storeDocument env d w = (Return true, w')
    /\ NoDup (stored_ids w')
    /\ countDocuments env w = (Return n, w)
    /\ countDocuments env w' = (Return n', w')
    /\ (In (id d) (stored_ids w) -> n' = n)
    /\ (~ In (id d) (stored_ids w) -> n' = (n + 1)%N).
Proof.
  intros Hfb Hnd. eexists _, _, _.
  split; [apply storeDocument_fallback, Hfb |].
  split.
  { unfold stored_ids. simpl. rewrite map_app. apply NoDup_app.
    split; [apply filter_other_ids_NoDup, Hnd |].
    split; [| simpl; apply NoDup_singleton].
    intros i Hi Hi'. apply list_elem_of_In in Hi.
    apply list_elem_of_In in Hi'. simpl in Hi'. destruct Hi' as [<- | []].
    exact (filter_other_ids_gone _ _ Hi). }
  split; [apply countDocuments_fallback, Hfb |].
  split; [apply countDocuments_fallback; exact Hfb |].
  simpl. rewrite length_app. simpl.
  pose proof (filter_split_length (same_id (id d)) (memoryStore w)) as Hlen.
  split.
  - intros Hin. rewrite (NoDup_one_of_id _ _ Hnd Hin) in Hlen. f_equal. lia.
  - intros Hnew. rewrite filter_other_ids_absent by exact Hnew. lia.
Qed.

(** X5. In fallback mode [clearCollection] empties the in-memory store and
    leaves the embedding cache alone: afterwards the count is 0 and every
    search returns the empty list. *)
Theorem clearCollection_empties (client : DeleteClient) (env : Env) (w : World) :
  fallback w = true ->
  exists w',
    clearCollection client w = (Return true, w')
    /\ memoryStore w' = []
    /\ redis w' = redis w
    /\ countDocuments env w' = (Return 0%N, w')
    /\ forall q k t, searchSimilar env q k t w' = (Return [], w').
Proof.
  intros Hfb. eexists. split; [apply clearCollection_fallback, Hfb |].
  split; [reflexivity |]. split; [reflexivity |].
  split; [apply countDocuments_fallback; exact Hfb |].
  intros q k t. rewrite searchSimilar_fallback by exact Hfb.
  simpl. unfold search_memory. simpl. rewrite firstn_nil. reflexivity.
Qed.

(** X6. In fallback mode, after [deleteDocument] no search returns a
    result of the deleted id, whatever the query, the limit and the
    threshold. *)
Theorem deleted_document_not_found (client : DeleteClient) (env : Env) (w : World)
    (docId : string) (q : option vector) (k : nat) (t : float) :
  fallback w = true ->
  exists w' results,
    deleteDocument client docId w = (Return true, w')
    /\ searchSimilar env q k t w' = (Return results, w')
    /\ Forall (fun r => r_id r <> docId) results.
Proof.
  intros Hfb. eexists _, _.
  split; [apply deleteDocument_fallback, Hfb |].
  split; [apply searchSimilar_fallback; exact Hfb |].
  apply List.Forall_forall. intros r Hr.
  apply in_map_iff in Hr as (s & <- & Hs).
  apply search_memory_In in Hs as (_ & p & Hp & ->). simpl in *.
  apply List.filter_In in Hp as [_ Hp].
  apply negb_true_iff, same_id_false in Hp. exact Hp.
Qed.

(** X7. In fallback mode a document that was just stored is found by
    every search whose threshold its similarity to the query meets and
    whose limit is not below the number of stored points: the results hold
    a result with its id, its similarity to the query as the score, and
    its title, content, url, publication date, source and summary (the
    empty string when it has none). *)
Theorem stored_document_found (env : Env) (w : World) (d : Document)
    (q : option vector) (k : nat) (t : float) :
  fallback w = true ->
  PrimFloat.leb t (cosineSimilarity q (embedding d)) = true ->
  length (memoryStore w) < k ->
  exists w' results r,
    storeDocument env d w = (Return true, w')
    /\ searchSimilar env q k t w' = (Return results, w')
    /\ In r results
    /\ r_id r = id d
    /\ r_score r = cosineSimilarity q (embedding d)
    /\ r_title r = title d
    /\ r_content r = content d
    /\ r_url r = url d
    /\ r_publishedAt r = publishedAt d
    /\ r_source r = source d
    /\ r_summary r = match summary d with Some s => s | None => [] end.
Proof.
  intros Hfb Ht Hk. eexists _, _, (to_result (scored q (point_of (now w) d))).
  split; [apply storeDocument_fallback, Hfb |].
  split; [apply searchSimilar_fallback; exact Hfb |].
  split.
  { apply in_map. simpl. apply search_memory_complete.
    - rewrite length_app. simpl.
      pose proof (List.filter_length_le (fun p => negb (same_id (id d) p)) (memoryStore w)).
      lia.
    - apply in_or_app. right. left. reflexivity.
    - exact Ht. }
  repeat (split; [reflexivity |]).
  simpl. destruct (summary d); reflexivity.
Qed.

(** *** What a search in the in-memory store can return *)

Section SearchResults.

Lemma insert_by_Permutation (x : ScoredPoint) (l : list ScoredPoint) :
  Permutation (insert_by by_score_desc x l) (x :: l).
Proof.
  induction l as [| y l IH]; simpl; [reflexivity |].
  destruct (PrimFloat.ltb 0 (by_score_desc x y)); [| reflexivity].
  rewrite IH. apply perm_swap.
Qed.

Lemma sort_by_Permutation (l : list ScoredPoint) :
  Permutation (sort_by by_score_desc l) l.
Proof.
  induction l as [| x l IH]; simpl; [reflexivity |].
  rewrite insert_by_Permutation, IH. reflexivity.
Qed.

Lemma NoDup_map_filter {A B} (g : A -> B) (f : A -> bool) (l : list A) :
  NoDup (map g l) -> NoDup (map g (List.filter f l)).
Proof.
  induction l as [| a l IH]; simpl; [auto |].
  intros H. apply NoDup_cons in H as [Ha Hl].
  destruct (f a); simpl; [| auto].
  apply NoDup_cons. split; [| auto].
  intros Hin. apply Ha.
  apply list_elem_of_In, in_map_iff in Hin as (b & Hb & Hin).
  apply list_elem_of_In, in_map_iff. exists b. split; [exact Hb |].
  apply List.filter_In in Hin. tauto.
Qed.

Lemma NoDup_map_firstn {A B} (g : A -> B) (n : nat) (l : list A) :
  NoDup (map g l) -> NoDup (map g (firstn n l)).
Proof.
  revert n. induction l as [| a l IH]; intros [| n] H; simpl; try constructor.
  - simpl in H. apply NoDup_cons in H as [Ha Hl].
    intros Hin. apply Ha.
    apply list_elem_of_In, in_map_iff in Hin as (b & Hb & Hin).
    apply list_elem_of_In, in_map_iff. exists b. split; [exact Hb |].
    exact (firstn_In _ _ _ Hin).
  - simpl in H. apply NoDup_cons in H as [Ha Hl]. exact (IH n Hl).
Qed.

Lemma search_memory_ids (q : option vector) (k : nat) (t : float) (store : list Point) :
  NoDup (map point_id store) -> NoDup (map sp_id (search_memory q k t store)).
Proof.
  intros H. unfold search_memory. apply NoDup_map_firstn.
  rewrite (Permutation_map sp_id (sort_by_Permutation _)).
  apply NoDup_map_filter. unfold candidates. rewrite map_map. exact H.
Qed.

End SearchResults.

(** X8. In fallback mode, when the ids of the store are unique, no id
    occurs twice in the results of a search. *)
Theorem search_results_unique_ids (env : Env) (w : World)
    (q : option vector) (k : nat) (t : float) :
  fallback w = true -> NoDup (stored_ids w) ->
  exists results,
    searchSimilar env q k t w = (Return results, w)
    /\ NoDup (map r_id results).
Proof.
  intros Hfb Hnd. eexists. split; [apply searchSimilar_fallback, Hfb |].
  rewrite map_map. exact (search_memory_ids q k t _ Hnd).
Qed.

(** X9. In fallback mode the limit only cuts the ranking: the results of
    a search with a limit are the first results of the same search with
    any larger limit, in the same order. *)
Theorem search_limit_prefix (env : Env) (w : World)
    (q : option vector) (k k' : nat) (t : float) :
  fallback w = true -> k <= k' ->
  exists results results',
    searchSimilar env q k t w = (Return results, w)
    /\ searchSimilar env q k' t w = (Return results', w)
    /\ results = firstn k results'.
Proof.
  intros Hfb Hk. eexists _, _.
  split; [apply searchSimilar_fallback, Hfb |].
  split; [apply searchSimilar_fallback, Hfb |].
  unfold search_memory. rewrite firstn_map, firstn_firstn.
  rewrite (Nat.min_l _ _ Hk). reflexivity.
Qed.

(** Outside fallback mode the deleting methods leave the world of the
    process as it is, the in-memory store included: [deleteDocument] and
    [clearCollection] return true when the client reports no error and
    otherwise throw the error of the client. *)
Lemma deletion_networked (client : DeleteClient) (w : World) (docId : string) :
  fallback w = false ->
  deleteDocument client docId w
  = (match client_delete_points client [docId] with
     | None => Return true
     | Some e => Throw e
     end, w)
  /\ clearCollection client w
     = (match client_delete_filter client with
        | None => Return true
        | Some e => Throw e
        end, w).
Proof.
  intros Hfb. unfold deleteDocument, clearCollection. rewrite !rethrowing_id.
  unfold bind, get. rewrite Hfb. split.
  - destruct (client_delete_points client [docId]); reflexivity.
  - destruct (client_delete_filter client); reflexivity.
Qed.

(** *** Instances on the store of the ranking example *)

Lemma ranking_world_ids_unique : NoDup (stored_ids ranking_world).
Proof. apply (bool_decide_unpack _). vm_compute. exact I. Qed.

Lemma deleteDocument_removes_witness :
  fallback ranking_world = true
  /\ exists w',
       deleteDocument delete_client_ok "first" ranking_world = (Return true, w')
       /\ ~ In "first"%string (stored_ids w')
       /\ length (memoryStore w') + 1 = 5.
Proof.
  split; [reflexivity |].
  destruct (deleteDocument_removes delete_client_ok ranking_world "first" eq_refl)
    as (w' & Hrun & Hgone & _ & _ & Hlen & _).
  exists w'. split; [exact Hrun |]. split; [exact Hgone | exact Hlen].
Defined.

Lemma deleteDocument_absent_witness :
  fallback empty_fallback_world = true
  /\ ~ In "first"%string (stored_ids empty_fallback_world)
  /\ deleteDocument delete_client_ok "first" empty_fallback_world
     = (Return true, empty_fallback_world).
Proof.
  split; [reflexivity |]. split; [simpl; tauto |].
  apply (deleteDocument_absent delete_client_ok empty_fallback_world "first" eq_refl).
  simpl. tauto.
Defined.

Lemma store_then_delete_witness :
  fallback empty_fallback_world = true
  /\ ~ In (id (doc "a" [1%float])) (stored_ids empty_fallback_world)
  /\ exists w1 w2,
       storeDocument env_flaky (doc "a" [1%float]) empty_fallback_world = (Return true, w1)
       /\ deleteDocument delete_client_ok "a" w1 = (Return true, w2)
       /\ memoryStore w2 = memoryStore empty_fallback_world.
Proof.
  assert (Hnew : ~ In (id (doc "a" [1%float])) (stored_ids empty_fallback_world))
    by (simpl; tauto).
  split; [reflexivity |]. split; [exact Hnew |].
  destruct (store_then_delete env_flaky delete_client_ok empty_fallback_world
              (doc "a" [1%float]) eq_refl Hnew)
    as (w1 & w2 & H1 & _ & H2 & H3).
  exists w1, w2. split; [exact H1 |]. split; [exact H2 | exact H3].
Defined.

Lemma storeDocument_keeps_ids_unique_witness :
  fallback ranking_world = true
  /\ NoDup (stored_ids ranking_world)
  /\ exists w',
       storeDocument env_flaky (doc "first" [0; 1]%float) ranking_world = (Return true, w')
       /\ NoDup (stored_ids w')
       /\ countDocuments env_flaky w' = (Return 5%N, w').
Proof.
  split; [reflexivity |]. split; [exact ranking_world_ids_unique |].
  destruct (storeDocument_keeps_ids_unique env_flaky ranking_world
              (doc "first" [0; 1]%float) eq_refl ranking_world_ids_unique)
    as (w' & n & n' & Hrun & Hnd & Hn & Hn' & Hsame & _).
  exists w'. split; [exact Hrun |]. split; [exact Hnd |].
  rewrite Hn'. f_equal. f_equal.
  rewrite Hsame.
  - vm_compute in Hn. injection Hn as <-. reflexivity.
  - vm_compute. tauto.
Defined.

Lemma clearCollection_empties_witness :
  fallback ranking_world = true
  /\ exists w',
       clearCollection delete_client_ok ranking_world = (Return true, w')
       /\ countDocuments env_flaky w' = (Return 0%N, w').
Proof.
  split; [reflexivity |].
  destruct (clearCollection_empties delete_client_ok env_flaky ranking_world eq_refl)
    as (w' & Hrun & _ & _ & Hcount & _).
  exists w'. split; [exact Hrun | exact Hcount].
Defined.

Lemma deleted_document_not_found_witness :
  fallback ranking_world = true
  /\ exists w' results,
       deleteDocument delete_client_ok "first" ranking_world = (Return true, w')
       /\ searchSimilar env_flaky (Some (numbers [1; 0]%float)) 3 0.25%float w' = (Return results, w')
       /\ Forall (fun r => r_id r <> "first"%string) results.
Proof.
  split; [reflexivity |].
  exact (deleted_document_not_found delete_client_ok env_flaky ranking_world "first"
           (Some (numbers [1; 0]%float)) 3 0.25%float eq_refl).
Defined.

Lemma stored_document_found_witness :
  fallback ranking_world = true
  /\ PrimFloat.leb 0.25%float
       (cosineSimilarity (Some (numbers [1; 0]%float)) (embedding (doc "new" [1; 1]%float))) = true
  /\ length (memoryStore ranking_world) < 6
  /\ exists w' results r,
       storeDocument env_flaky (doc "new" [1; 1]%float) ranking_world = (Return true, w')
       /\ searchSimilar env_flaky (Some (numbers [1; 0]%float)) 6 0.25%float w' = (Return results, w')
       /\ In r results
       /\ r_id r = "new"%string
       /\ r_title r = lit "t".
Proof.
  split; [reflexivity |]. split; [reflexivity |].
  assert (Hk : length (memoryStore ranking_world) < 6) by (simpl; lia).
  split; [exact Hk |].
  destruct (stored_document_found env_flaky ranking_world (doc "new" [1; 1]%float)
              (Some (numbers [1; 0]%float)) 6 0.25%float eq_refl eq_refl Hk)
    as (w' & results & r & H1 & H2 & H3 & H4 & _ & H5 & _).
  exists w', results, r. split; [exact H1 |]. split; [exact H2 |]. split; [exact H3 |].
  split; [exact H4 | exact H5].
Defined.

Lemma deletion_networked_witness :
  fallback networked_world = false
  /\ deleteDocument delete_client_down "kept" networked_world
     = (Throw (JsError "ECONNREFUSED"), networked_world)
  /\ clearCollection delete_client_ok networked_world = (Return true, networked_world).
Proof.
  split; [reflexivity |]. split.
  - apply (deletion_networked delete_client_down networked_world "kept" eq_refl).
  - apply (deletion_networked delete_client_ok networked_world "kept" eq_refl).
Defined.

(** *** The batch upsert on batches without repeated ids *)

Lemma filter_same_id_none (i : string) (l : list Point) :
  ~ In i (map point_id l) -> List.filter (same_id i) l = [].
Proof.
  induction l as [| p l IH]; simpl; [reflexivity |].
  intros H. destruct (same_id i p) eqn:E.
  - exfalso. apply H. left. apply same_id_true, E.
  - apply IH. tauto.
Qed.

Lemma filter_same_id_batch (t : string) (d : Document) (ds : list Document) :
  NoDup (map id ds) -> In d ds ->
  List.filter (same_id (id d)) (map (point_of t) ds) = [point_of t d].
Proof.
  induction ds as [| a ds IH]; simpl; [tauto |].
  intros Hnd Hin. apply NoDup_cons in Hnd as [Ha Hds].
  assert (Ha' : ~ In (id a) (map id ds)) by (intros H; apply Ha, list_elem_of_In, H).
  destruct Hin as [-> | Hin].
  - assert (E : same_id (id d) (point_of t d) = true) by (apply same_id_true; reflexivity).
    rewrite E. f_equal. apply filter_same_id_none.
    rewrite map_map. exact Ha'.
  - assert (E : same_id (id d) (point_of t a) = false).
    { apply same_id_false. simpl. intros Heq. apply Ha'. rewrite Heq.
      apply in_map, Hin. }
    rewrite E. apply IH; assumption.
Qed.

Lemma filter_not_in_batch (ids : gset string) (j : string) (l : list Point) :
  List.filter (same_id j) (List.filter (fun p => negb (bool_decide (point_id p ∈ ids))) l)
  = if bool_decide (j ∈ ids) then [] else List.filter (same_id j) l.
Proof.
  induction l as [| p l IH]; simpl; [destruct (bool_decide _); reflexivity |].
  destruct (bool_decide (point_id p ∈ ids)) eqn:Ep; simpl.
  - rewrite IH. destruct (same_id j p) eqn:Ej; [| reflexivity].
    apply same_id_true in Ej. subst j. rewrite Ep. reflexivity.
  - rewrite IH. destruct (same_id j p) eqn:Ej; [| reflexivity].
    apply same_id_true in Ej. subst j. rewrite Ep. reflexivity.
Qed.

(** X10. In fallback mode, on a batch in which no id is repeated,
    [storeDocuments] is an upsert: a store with unique ids keeps unique
    ids, every document of the batch ends up as exactly one point, the one
    built from that document, and the points of the ids that are not in
    the batch stay as they were. *)
Theorem storeDocuments_upsert (env : Env) (w : World) (ds : list Document) :
  fallback w = true -> NoDup (map id ds) ->
  exists w',
    storeDocuments env ds w = (Return true, w')
    /\ (NoDup (stored_ids w) -> NoDup (stored_ids w'))
    /\ (forall d, In d ds ->
        List.filter (same_id (id d)) (memoryStore w') = [point_of (now w) d])
    /\ (forall j, ~ In j (map id ds) ->
        List.filter (same_id j) (memoryStore w') = List.filter (same_id j) (memoryStore w)).
Proof.
  intros Hfb Hds.
  exists (snd (storeDocuments env ds w)).
  split; [rewrite storeDocuments_fallback by exact Hfb; reflexivity |].
  split.
  { intros Hst. destruct (storeDocuments_distinct env w ds Hfb Hds Hst) as (w' & -> & Hnd).
    exact Hnd. }
  rewrite storeDocuments_fallback by exact Hfb. cbv zeta.
  cbn [snd memoryStore set_memoryStore].
  split.
  - intros d Hd. rewrite List.filter_app, filter_not_in_batch.
    rewrite bool_decide_eq_true_2.
    + simpl. apply filter_same_id_batch; assumption.
    + apply elem_of_list_to_set. rewrite map_map.
      apply list_elem_of_In, in_map_iff. exists d. split; [reflexivity | exact Hd].
  - intros j Hj. rewrite List.filter_app, filter_not_in_batch.
    rewrite bool_decide_eq_false_2.
    + rewrite (filter_same_id_none j (map (point_of (now w)) ds)).
      * apply app_nil_r.
      * rewrite map_map. exact Hj.
    + intros Hin. apply elem_of_list_to_set in Hin. rewrite map_map in Hin.
      apply Hj, list_elem_of_In, Hin.
Qed.

Lemma storeDocuments_upsert_witness :
  fallback ranking_world = true
  /\ NoDup (map id [doc "first" [0; 1]%float; doc "new" [1; 1]%float])
  /\ exists w',
       storeDocuments env_flaky [doc "first" [0; 1]%float; doc "new" [1; 1]%float] ranking_world
       = (Return true, w')
       /\ NoDup (stored_ids w')
       /\ List.filter (same_id "first") (memoryStore w')
          = [point_of "t" (doc "first" [0; 1]%float)].
Proof.
  assert (Hnd : NoDup (map id [doc "first" [0; 1]%float; doc "new" [1; 1]%float]))
    by (apply (bool_decide_unpack _); vm_compute; exact I).
  split; [reflexivity |]. split; [exact Hnd |].
  destruct (storeDocuments_upsert env_flaky ranking_world
              [doc "first" [0; 1]%float; doc "new" [1; 1]%float] eq_refl Hnd)
    as (w' & Hrun & Hu & Hin & _).
  exists w'. split; [exact Hrun |]. split; [exact (Hu ranking_world_ids_unique) |].
  apply (Hin (doc "first" [0; 1]%float)). left. reflexivity.
Defined.

(** ** QdrantService: the similarity is symmetric *)

Section Symmetry.

Local Open Scope float_scope.

Lemma mul_comm (x y : float) : x * y = y * x.
Proof.
  apply Prim2SF_inj. rewrite !mul_spec. unfold SF64mul, SFmul.
  destruct (Prim2SF x) as [sx | sx | | sx mx ex], (Prim2SF y) as [sy | sy | | sy my ey];
    try reflexivity; rewrite ?(xorb_comm sx sy); try reflexivity.
  Binary64.zfold. rewrite (Pos.mul_comm mx my), (Z.add_comm ex ey). reflexivity.
Qed.

Lemma dot_from_comm (a b : vector) (acc : float) : dot_from acc a b = dot_from acc b a.
Proof.
  revert b acc. induction a as [| x a IH]; intros [| y b] acc; try reflexivity.
  unfold dot_from in *. simpl. rewrite (mul_comm (to_number x) (to_number y)). apply IH.
Qed.

(** X11. [cosineSimilarity] is symmetric in its arguments, bit for bit:
    for all arrays, missing ones and arrays of different lengths included,
    [cosineSimilarity(a, b)] and [cosineSimilarity(b, a)] are the same
    number. *)
Theorem cosineSimilarity_symmetric (a b : option vector) :
  cosineSimilarity a b = cosineSimilarity b a.
Proof.
  destruct a as [a |], b as [b |]; try reflexivity.
  destruct (Nat.eq_dec (length a) (length b)) as [H | H].
  - rewrite (cosineSimilarity_same_length a b H).
    rewrite (cosineSimilarity_same_length b a (eq_sym H)).
    unfold dot_product. rewrite (dot_from_comm a b), orb_comm.
    rewrite (mul_comm (sqrt (sum_squares a))). reflexivity.
  - unfold cosineSimilarity.
    rewrite (proj2 (Nat.eqb_neq _ _) H).
    rewrite (proj2 (Nat.eqb_neq _ _) (fun E => H (eq_sym E))). reflexivity.
Qed.

End Symmetry.

(** ** RedisService: clearing the embedding cache (services/redis.js) *)

Section CacheClearing.

Variable env : Env.

(** [client.keys(prefix + '*')]: the keys that start with [prefix], in
    some order. *)
Definition client_keys (prefix : string) : M (list string) :=
  let* served := get redis_readable in
  if served then
    let* entries := get redis in
    ret (List.filter (String.prefix prefix) (map fst (map_to_list entries)))
  else throw (redis_command_error env).

(** [client.del(keys)] *)
Definition client_del (keys : list string) : M unit :=
  let* served := get redis_writable in
  if served then
    modify (fun w => set_redis (fold_right (fun k m => delete k m) (redis w) keys) w)
  else throw (redis_command_error env).

Definition clearAllEmbeddings : M nat :=
  rethrowing
    (let* keys := client_keys "embedding:" in
     let* _ :=
       match keys with
       | [] => ret tt
       | _ => client_del keys
       end in
     ret (length keys)).

End CacheClearing.

Section CacheFacts.

Lemma prefix_append (p s : string) : String.prefix p (p +:+ s) = true.
Proof.
  induction p as [| c p IH]; [destruct s; reflexivity |].
  change (String c p +:+ s) with (String c (p +:+ s)).
  simpl. destruct (ascii_dec c c); [exact IH | contradiction].
Qed.

Lemma embedding_key_prefix (docId : string) :
  String.prefix "embedding:" (embedding_key docId) = true.
Proof. apply prefix_append. Qed.

Lemma lookup_delete_all (m : gmap string vector) (keys : list string) (k : string) :
  fold_right (fun k m => delete k m) m keys !! k
  = if bool_decide (k ∈ keys) then None else m !! k.
Proof.
  induction keys as [| j keys IH]; cbn [fold_right].
  - rewrite bool_decide_eq_false_2 by apply not_elem_of_nil. reflexivity.
  - destruct (decide (j = k)) as [-> | Hne].
    + rewrite lookup_delete_eq, bool_decide_eq_true_2 by apply list_elem_of_here.
      reflexivity.
    + rewrite lookup_delete_ne by exact Hne. rewrite IH.
      destruct (bool_decide (k ∈ keys)) eqn:E.
      * apply bool_decide_eq_true in E.
        rewrite bool_decide_eq_true_2 by (apply list_elem_of_further, E). reflexivity.
      * apply bool_decide_eq_false in E.
        rewrite bool_decide_eq_false_2; [reflexivity |].
        intros H. apply elem_of_cons in H as [H | H]; [congruence | tauto].
Qed.

Lemma clearAllEmbeddings_run (env : Env) (w : World) :
  let keys := List.filter (String.prefix "embedding:") (map fst (map_to_list (redis w))) in
  clearAllEmbeddings env w
  = if redis_readable w then
      match keys with
      | [] => (Return 0, w)
      | _ =>
          if redis_writable w
          then (Return (length keys),
                set_redis (fold_right (fun k m => delete k m) (redis w) keys) w)
          else (Throw (redis_command_error env), w)
      end
    else (Throw (redis_command_error env), w).
Proof.
  intros keys. unfold clearAllEmbeddings. rewrite rethrowing_id.
  unfold bind at 1. unfold client_keys, bind at 1, get.
  destruct (redis_readable w); [| reflexivity].
  unfold bind at 1. unfold ret at 1. fold keys.
  destruct keys as [| k keys']; [reflexivity |].
  unfold bind, client_del, bind, get, modify.
  destruct (redis_writable w); reflexivity.
Qed.

Lemma key_listed (m : gmap string vector) (k : string) :
  In k (map fst (map_to_list m)) <-> is_Some (m !! k).
Proof.
  split.
  - intros H. apply in_map_iff in H as ([k' v] & <- & Hin).
    apply list_elem_of_In, elem_of_map_to_list in Hin. eauto.
  - intros [v Hv]. apply in_map_iff. exists (k, v). split; [reflexivity |].
    apply list_elem_of_In, elem_of_map_to_list, Hv.
Qed.


End CacheFacts.

Lemma filter_all {A} (f : A -> bool) (l : list A) :
  (forall x, In x l -> f x = true) -> List.filter f l = l.
Proof.
  induction l as [| x l IH]; simpl; [reflexivity |].
  intros H. rewrite (H x) by (left; reflexivity). f_equal. apply IH. auto.
Qed.

Lemma filter_none {A} (f : A -> bool) (l : list A) :
  (forall x, In x l -> f x = false) -> List.filter f l = [].
Proof.
  induction l as [| x l IH]; simpl; [reflexivity |].
  intros H. rewrite (H x) by (left; reflexivity). apply IH. auto.
Qed.


(** The run of [clearAllEmbeddings] while Redis serves reads and writes. *)
Lemma clearAllEmbeddings_served (env : Env) (w : World) :
  redis_readable w = true -> redis_writable w = true ->
  let keys := List.filter (String.prefix "embedding:") (map fst (map_to_list (redis w))) in
  exists w',
    clearAllEmbeddings env w = (Return (length keys), w')
    /\ (forall k, redis w' !! k = if String.prefix "embedding:" k then None else redis w !! k)
    /\ redis_readable w' = true
    /\ fallback w' = fallback w /\ memoryStore w' = memoryStore w /\ trace w' = trace w.
Proof.
  intros Hrd Hwr keys.
  assert (Hlookup : forall k,
             fold_right (fun k m => delete k m) (redis w) keys !! k
             = if String.prefix "embedding:" k then None else redis w !! k).
  { intros k. rewrite lookup_delete_all.
    destruct (String.prefix "embedding:" k) eqn:Ek.
    - destruct (redis w !! k) as [v |] eqn:Ev.
      + rewrite bool_decide_eq_true_2; [reflexivity |].
        apply list_elem_of_In, List.filter_In. split; [| exact Ek].
        apply key_listed. eauto.
      + destruct (bool_decide (k ∈ keys)); reflexivity.
    - rewrite bool_decide_eq_false_2; [reflexivity |].
      intros H. apply list_elem_of_In, List.filter_In in H as [_ H]. congruence. }
  rewrite clearAllEmbeddings_run, Hrd, Hwr. fold keys.
  destruct keys as [| k0 keys'] eqn:Hkeys.
  - exists w. split; [reflexivity |].
    split; [intros k; rewrite <- Hlookup; reflexivity |].
    repeat split. exact Hrd.
  - eexists. split; [reflexivity |].
    split; [intros k; simpl; apply Hlookup |].
    repeat split. exact Hrd.
Qed.

(** X13. When Redis serves reads and writes, [clearAllEmbeddings] deletes
    every key that starts with "embedding:" and returns their number:
    afterwards every lookup of a cached embedding is a miss. Keys without
    the prefix are kept, and the vector store is not touched. When all the
    keys are embedding keys, the number returned is the number of entries. *)
Theorem clearAllEmbeddings_clears (env : Env) (w : World) :
  redis_readable w = true -> redis_writable w = true ->
  exists n w',
    clearAllEmbeddings env w = (Return n, w')
    /\ (forall docId, getCachedEmbedding env docId w' = (Return None, w'))
    /\ (forall k, String.prefix "embedding:" k = false -> redis w' !! k = redis w !! k)
    /\ ((forall k, is_Some (redis w !! k) -> String.prefix "embedding:" k = true) ->
        n = size (redis w))
    /\ fallback w' = fallback w /\ memoryStore w' = memoryStore w /\ trace w' = trace w.
Proof.
  intros Hrd Hwr.
  destruct (clearAllEmbeddings_served env w Hrd Hwr)
    as (w' & Hrun & Hlookup & Hrd' & Hfb & Hms & Htr).
  eexists _, w'. split; [exact Hrun |].
  split.
  { intros docId. rewrite getCachedEmbedding_run. unfold cached.
    rewrite Hrd', Hlookup, embedding_key_prefix. reflexivity. }
  split.
  { intros k Hk. rewrite Hlookup, Hk. reflexivity. }
  split.
  { intros Hall. rewrite filter_all.
    - rewrite length_map. apply length_map_to_list.
    - intros k Hk. apply Hall, key_listed, Hk. }
  split; [exact Hfb |]. split; [exact Hms | exact Htr].
Qed.

(** X14. The edges of [clearAllEmbeddings]. When Redis does not serve the
    listing of the keys it throws and changes nothing. When no key starts
    with "embedding:" it returns 0 without sending any deletion, also when
    Redis refuses writes. When there is a cached embedding and Redis
    refuses writes it throws, and the cache is as it was. *)
Theorem clearAllEmbeddings_edges (env : Env) (w : World) :
  (redis_readable w = false ->
   clearAllEmbeddings env w = (Throw (redis_command_error env), w))
  /\ (redis_readable w = true ->
      (forall k, is_Some (redis w !! k) -> String.prefix "embedding:" k = false) ->
      clearAllEmbeddings env w = (Return 0, w))
  /\ (redis_readable w = true -> redis_writable w = false ->
      forall docId, is_Some (redis w !! embedding_key docId) ->
      clearAllEmbeddings env w = (Throw (redis_command_error env), w)).
Proof.
  rewrite clearAllEmbeddings_run. cbv zeta. split; [| split].
  - intros ->. reflexivity.
  - intros -> Hnone. rewrite filter_none; [reflexivity |].
    intros k Hk. apply Hnone, key_listed, Hk.
  - intros -> -> docId Hsome.
    destruct (List.filter _ _) as [| k0 keys'] eqn:Hkeys; [| reflexivity].
    exfalso.
    assert (Hin : In (embedding_key docId)
                    (List.filter (String.prefix "embedding:")
                       (map fst (map_to_list (redis w))))).
    { apply List.filter_In. split; [apply key_listed, Hsome | apply embedding_key_prefix]. }
    rewrite Hkeys in Hin. exact Hin.
Qed.

(** A world whose cache holds the embeddings of two documents. *)
Definition world_with_cache : World :=
  {| fallback := true; memoryStore := [];
     redis := <[embedding_key "d1" := numbers [1%float; 0%float]]>
                (<[embedding_key "d2" := numbers [0%float; 1%float]]> ∅);
     redis_readable := true; redis_writable := true;
     now := "2024-01-01T00:00:00.000Z"; trace := [] |}.


(** What is read back of a vector with a negative zero, an infinity and a
    NaN. *)
Example cacheEmbedding_read_back :
  let '(_, w') :=
    cacheEmbedding env_flaky "d1"
      (Some (numbers [1.5%float; (-0)%float; infinity; nan])) empty_fallback_world in
  fst (getCachedEmbedding env_flaky "d1" w')
  = Return (Some [Num 1.5%float; Num 0%float; Null; Null]).
Proof. vm_compute. reflexivity. Qed.

Lemma clearAllEmbeddings_clears_witness :
  redis_readable world_with_cache = true
  /\ redis_writable world_with_cache = true
  /\ exists n w',
       clearAllEmbeddings env_flaky world_with_cache = (Return n, w')
       /\ getCachedEmbedding env_flaky "d1" w' = (Return None, w').
Proof.
  split; [reflexivity |]. split; [reflexivity |].
  destruct (clearAllEmbeddings_clears env_flaky world_with_cache eq_refl eq_refl)
    as (n & w' & Hrun & Hmiss & _).
  exists n, w'. split; [exact Hrun | apply Hmiss].
Defined.

Example clearAllEmbeddings_two_entries :
  fst (clearAllEmbeddings env_flaky world_with_cache) = Return 2.
Proof. vm_compute. reflexivity. Qed.

(** ** EmbeddingsService: blank texts and the text of a document *)

(** A text of white space only; the empty text is one. *)
Definition blank (t : text) : Prop := Forall (fun c => is_space c = true) t.

Section Texts.

Lemma trimStart_blank (t : text) : blank t -> trimStart t = [].
Proof.
  induction 1 as [| c t Hc _ IH]; simpl; [reflexivity |]. rewrite Hc. exact IH.
Qed.

Lemma trimEnd_non_space (c : N) (s : text) :
  is_space c = false -> trimEnd (c :: s) = c :: trimEnd s.
Proof. intros H. simpl. rewrite H. destruct (trimEnd s); reflexivity. Qed.

Lemma trim_non_space (c : N) (s : text) :
  is_space c = false -> trim (c :: s) = c :: trimEnd s.
Proof. intros H. unfold trim. simpl trimStart. rewrite H. apply trimEnd_non_space, H. Qed.

(** A text with a character that is not white space does not trim to the
    empty text. *)
Lemma trim_not_empty (s : text) (c : N) :
  In c s -> is_space c = false -> trim s <> [].
Proof.
  intros Hin Hc Hempty.
  assert (H : In c (List.filter non_space (trim s))).
  { unfold trim. rewrite trimEnd_filter, trimStart_filter.
    apply List.filter_In. split; [exact Hin |]. unfold non_space. rewrite Hc. reflexivity. }
  rewrite Hempty in H. exact H.
Qed.

Lemma valid_text_blank (t : text) : valid_text t = false <-> blank t.
Proof.
  split.
  - intros H. apply List.Forall_forall. intros c Hin.
    destruct (is_space c) eqn:Hc; [reflexivity |]. exfalso.
    destruct t as [| x t]; [destruct Hin |].
    unfold valid_text in H. apply negb_false_iff, Nat.eqb_eq in H.
    apply (trim_not_empty _ _ Hin Hc). apply length_zero_iff_nil, H.
  - intros H. destruct t as [| x t]; [reflexivity |].
    unfold valid_text, trim. rewrite (trimStart_blank _ H). reflexivity.
Qed.

Lemma valid_text_non_space (s : text) (c : N) :
  In c s -> is_space c = false -> valid_text s = true.
Proof.
  intros Hin Hc. destruct (valid_text s) eqn:E; [reflexivity |].
  apply valid_text_blank in E.
  rewrite (proj1 (List.Forall_forall _ _) E c Hin) in Hc. discriminate.
Qed.

(** The cleaning keeps the first character of a text that starts with a
    character other than white space. *)
Lemma cleanText_head (c : N) (s : text) :
  is_space c = false -> exists s', cleanText (c :: s) = c :: s'.
Proof.
  intros Hc. unfold cleanText. rewrite newline_pass_noop.
  unfold replace_runs. simpl replace_runs_from. rewrite Hc.
  rewrite (trim_non_space _ _ Hc). eauto.
Qed.

Lemma prepareTextForEmbedding_head (c : N) (s : text) (maxLength : Z) :
  is_space c = false ->
  valid_text (prepareTextForEmbedding (JsString (c :: s)) maxLength) = true.
Proof.
  intros Hc. unfold prepareTextForEmbedding.
  destruct (cleanText_head c s Hc) as [s' ->].
  destruct (Z.ltb maxLength _).
  - apply (valid_text_non_space _ 46%N); [| reflexivity].
    apply in_or_app. right. left. reflexivity.
  - apply (valid_text_non_space _ c); [left; reflexivity | exact Hc].
Qed.

Lemma no_double_space_firstn (n : nat) (s : text) :
  no_double_space s -> no_double_space (firstn n s).
Proof.
  revert n. induction s as [| c s IH]; intros [| n] H; simpl; auto.
  destruct s as [| d s]; [destruct n; exact I |].
  destruct n as [| n]; [exact I |].
  simpl in H. destruct H as [Hcd Hs]. split; [exact Hcd |].
  exact (IH (S n) Hs).
Qed.

Lemma no_double_space_marker (s : text) :
  no_double_space s -> no_double_space (s ++ lit "...").
Proof.
  induction s as [| c s IH]; intros H.
  - simpl. repeat split; intros [E _]; discriminate E.
  - destruct s as [| d s].
    + simpl. repeat split; intros [_ E]; discriminate E.
    + simpl in H. destruct H as [Hcd Hs]. split; [exact Hcd | exact (IH Hs)].
Qed.

End Texts.

(** A document without a title, a summary and a content. *)
Definition empty_document (d : Document) : Prop :=
  title d = [] /\ (summary d = None \/ summary d = Some []) /\ content d = [].

(** The text that [createEmbeddingText] hands to the cleaning. *)
Definition embedding_parts (document : Document) : list text :=
  (match title document with
   | [] => []
   | t => [lit "Title: " ++ t]
   end)
  ++ (match summary document with
      | Some (c :: s) => [lit "Summary: " ++ c :: s]
      | _ => []
      end)
  ++ (match content document with
      | [] => []
      | c =>
          [lit "Content: "
           ++ (if (maxContentLength <? Z.of_nat (length c))%Z
               then substring0 c maxContentLength ++ lit "..."
               else c)]
      end).

Lemma createEmbeddingText_parts (d : Document) :
  createEmbeddingText d
  = prepareTextForEmbedding (JsString (join_parts (embedding_parts d))) defaultMaxLength.
Proof. reflexivity. Qed.

Lemma embedding_parts_head (d : Document) :
  ~ empty_document d ->
  exists c s, join_parts (embedding_parts d) = c :: s /\ is_space c = false.
Proof.
  intros Hne. unfold embedding_parts.
  destruct (title d) as [| t0 t] eqn:Ht.
  - destruct (summary d) as [[| s0 s] |] eqn:Hs.
    + destruct (content d) as [| c0 c] eqn:Hc.
      * exfalso. apply Hne. repeat split; auto.
      * simpl. eexists _, _. split; [rewrite app_nil_r; reflexivity | reflexivity].
    + simpl. eexists _, _. split; [reflexivity | reflexivity].
    + destruct (content d) as [| c0 c] eqn:Hc.
      * exfalso. apply Hne. repeat split; auto.
      * simpl. eexists _, _. split; [rewrite app_nil_r; reflexivity | reflexivity].
  - simpl. eexists _, _. split; [reflexivity | reflexivity].
Qed.

(** The message of the error that a text without content gets. *)
Definition blank_text_message (env : Env) : string :=
  "Request setup error: "
  +:+ (if String.eqb (jinaApiKey env) ""
       then "JINA_API_KEY is not configured"
       else "No valid text inputs provided for embedding generation").

Lemma provider_outcome_blank (env : Env) (t : text) :
  blank t -> provider_outcome env t = Throw (JsError (blank_text_message env)).
Proof.
  intros H. unfold provider_outcome, embeddings_request, blank_text_message.
  destruct (String.eqb (jinaApiKey env) ""); [reflexivity |].
  simpl. rewrite (proj2 (valid_text_blank t) H). reflexivity.
Qed.

Lemma provider_outcome_no_key (env : Env) (t : text) :
  jinaApiKey env = ""%string ->
  provider_outcome env t
  = Throw (JsError "Request setup error: JINA_API_KEY is not configured").
Proof.
  intros H. unfold provider_outcome, embeddings_request. rewrite H. reflexivity.
Qed.

Lemma processAndStoreDocument_run (env : Env) (d : Document) (w : World) :
  processAndStoreDocument env d w
  = match cachedOrGenerated env d w with
    | (Return e, w1) =>
        match storeDocument env (with_embedding d e) w1 with
        | (Return _, w2) => (Return true, w2)
        | (Throw x, w2) => (Throw x, w2)
        end
    | (Throw x, w1) => (Throw x, w1)
    end.
Proof.
  rewrite processAndStoreDocument_block. unfold bind.
  destruct (cachedOrGenerated env d w) as [[e | x] w1]; [| reflexivity].
  destruct (storeDocument env (with_embedding d e) w1) as [[b | x] w2]; reflexivity.
Qed.

(** X15. A text that is empty or holds white space only is never sent to
    the provider: [generateEmbedding] throws "Request setup error: No
    valid text inputs provided for embedding generation" (or, without an
    API key, "Request setup error: JINA_API_KEY is not configured"),
    whatever the HTTP client would answer, and [retrieveRelevantDocuments]
    with such a query throws the same error without searching the store. *)
Theorem generateEmbedding_blank (env : Env) (w : World) (t : text) :
  blank t ->
  generateEmbedding env t w
  = (Throw (JsError (blank_text_message env)), log (EvGenerateEmbedding t) w)
  /\ forall topK scoreThreshold,
       retrieveRelevantDocuments env t topK scoreThreshold w
       = (Throw (JsError (blank_text_message env)), log (EvGenerateEmbedding t) w).
Proof.
  intros H. split.
  - rewrite generateEmbedding_run, (provider_outcome_blank env t H). reflexivity.
  - intros topK scoreThreshold.
    rewrite retrieveRelevantDocuments_run, (provider_outcome_blank env t H). reflexivity.
Qed.

Lemma createEmbeddingText_bare (d : Document) :
  empty_document d -> createEmbeddingText d = [].
Proof.
  intros (Ht & Hs & Hc). unfold createEmbeddingText. rewrite Ht, Hc.
  destruct Hs as [-> | ->]; reflexivity.
Qed.

(** X16. [createEmbeddingText] gives the empty string for a document
    without a title, a summary and a content, and for every other document
    a text that the provider accepts as input: one with a character that
    is not white space. *)
Theorem createEmbeddingText_empty (d : Document) :
  (empty_document d -> createEmbeddingText d = [])
  /\ (~ empty_document d -> valid_text (createEmbeddingText d) = true).
Proof.
  split.
  - apply createEmbeddingText_bare.
  - intros Hne. rewrite createEmbeddingText_parts.
    destruct (embedding_parts_head d Hne) as (c & s & -> & Hc).
    apply prepareTextForEmbedding_head, Hc.
Qed.

(** X17. The text of a document is a single line of at most 8195 code
    units: its only white space is the space character, never twice in a
    row and never at the start, although the parts are joined by blank
    lines. *)
Theorem createEmbeddingText_single_line (d : Document) :
  let out := createEmbeddingText d in
  Forall (fun c => is_space c = true -> c = space) out
  /\ no_double_space out
  /\ (forall c s', out = c :: s' -> c <> space)
  /\ (Z.of_nat (length out) <= defaultMaxLength + 3)%Z.
Proof.
  cbv zeta. rewrite createEmbeddingText_parts.
  destruct (join_parts (embedding_parts d)) as [| c s] eqn:Hj.
  { simpl. unfold defaultMaxLength. repeat split; [constructor | discriminate | lia]. }
  unfold prepareTextForEmbedding.
  destruct (cleanText_single_spaced (c :: s)) as (HF & HN & HH & _).
  destruct (Z.ltb_spec defaultMaxLength (Z.of_nat (length (cleanText (c :: s)))))
    as [Hlong | Hshort].
  - unfold substring0. split; [| split; [| split]].
    + apply Forall_app. split; [apply firstn_Forall, HF |].
      repeat constructor; discriminate.
    + apply no_double_space_marker, no_double_space_firstn, HN.
    + intros x s' E. destruct (cleanText (c :: s)) as [| y u] eqn:Hclean.
      * simpl in Hlong. unfold defaultMaxLength in Hlong. lia.
      * destruct (Z.to_nat defaultMaxLength) as [| n] eqn:En;
          [unfold defaultMaxLength in En; lia |].
        simpl in E. injection E as <- _. apply (HH y u eq_refl).
    + rewrite length_app, length_firstn. simpl length.
      unfold defaultMaxLength. lia.
  - split; [exact HF |]. split; [exact HN |]. split; [exact HH |]. lia.
Qed.

Lemma content_part_long (c : text) :
  (maxContentLength < Z.of_nat (length c))%Z ->
  match c with
  | [] => []
  | n :: l =>
      [lit "Content: "
       ++ (if (maxContentLength <? Z.of_nat (length (n :: l)))%Z
           then substring0 (n :: l) maxContentLength ++ lit "..."
           else n :: l)]
  end
  = [lit "Content: " ++ substring0 c maxContentLength ++ lit "..."].
Proof.
  intros H. destruct c as [| a c]; [simpl in H; unfold maxContentLength in H; lia |].
  rewrite (proj2 (Z.ltb_lt _ _) H). reflexivity.
Qed.

(** X18. The content of a document counts up to its first 6000 code
    units only: two documents with the same title and summary whose
    contents are longer than 6000 code units and agree on the first 6000
    have the same text. *)
Theorem createEmbeddingText_content_cut (d1 d2 : Document) :
  title d1 = title d2 -> summary d1 = summary d2 ->
  (maxContentLength < Z.of_nat (length (content d1)))%Z ->
  (maxContentLength < Z.of_nat (length (content d2)))%Z ->
  substring0 (content d1) maxContentLength = substring0 (content d2) maxContentLength ->
  createEmbeddingText d1 = createEmbeddingText d2.
Proof.
  intros Ht Hs H1 H2 Hc. unfold createEmbeddingText. rewrite Ht, Hs.
  rewrite (content_part_long _ H1), (content_part_long _ H2), Hc. reflexivity.
Qed.

(** ** RAGService: what an ingestion leaves behind *)


(** A document without a title, a summary and a content is not
    ingested on a cache miss: its text is empty, the provider is not asked
    and [processAndStoreDocument] throws the error of a blank text; the
    store and the cache stay as they were. *)
Lemma empty_document_not_ingested (env : Env) (w : World) (d : Document) :
  empty_document d -> cached w (id d) = None ->
  processAndStoreDocument env d w
  = (Throw (JsError (blank_text_message env)), log (EvGenerateEmbedding []) w).
Proof.
  intros He Hc. rewrite processAndStoreDocument_run, cachedOrGenerated_run, Hc.
  cbv zeta. rewrite (createEmbeddingText_bare d He).
  rewrite (provider_outcome_blank env []) by constructor. reflexivity.
Qed.

Lemma embedded_documents_no_vector (env : Env) (readable writable : bool)
    (cache : gmap string vector) (documents : list Document) :
  (forall d, In d documents ->
     (if readable then cache !! embedding_key (id d) else None) = None
     /\ provider_vector env d = None) ->
  embedded_documents env readable writable cache documents = [].
Proof.
  induction documents as [| d rest IH]; intros H; simpl; [reflexivity |].
  destruct (H d (or_introl eq_refl)) as [-> ->].
  apply IH. intros d' Hd'. apply H. right. exact Hd'.
Qed.

(** X20. Without an API key no text is sent to the provider:
    [generateEmbedding] throws "Request setup error: JINA_API_KEY is not
    configured" for every text, and so does [processAndStoreDocument] on a
    cache miss. [processAndStoreDocuments] does not throw: on a batch of
    documents that are not cached it returns 0, having called nothing but
    the provider method, and leaves the store as it was. *)
Theorem no_api_key (env : Env) (w : World) :
  jinaApiKey env = ""%string ->
  let e := JsError "Request setup error: JINA_API_KEY is not configured" in
  (forall t, generateEmbedding env t w = (Throw e, log (EvGenerateEmbedding t) w))
  /\ (forall d, cached w (id d) = None ->
      processAndStoreDocument env d w
      = (Throw e, log (EvGenerateEmbedding (createEmbeddingText d)) w))
  /\ (forall ds, (forall d, In d ds -> cached w (id d) = None) ->
      exists w1 evs,
        processAndStoreDocuments env ds w = (Return 0, w1)
        /\ memoryStore w1 = memoryStore w
        /\ trace w1 = evs ++ trace w
        /\ Forall is_provider_event evs).
Proof.
  intros Hkey e. split; [| split].
  - intros t. rewrite generateEmbedding_run, (provider_outcome_no_key env t Hkey).
    reflexivity.
  - intros d Hc. rewrite processAndStoreDocument_run, cachedOrGenerated_run, Hc.
    cbv zeta. rewrite (provider_outcome_no_key env _ Hkey). reflexivity.
  - intros ds Hmiss.
    destruct (embedEach_run env ds [] w) as (w1 & evs & E & _ & Hms & _ & Htr & Hev).
    rewrite embedded_documents_no_vector in E.
    + exists w1, evs. unfold processAndStoreDocuments. rewrite rethrowing_id.
      unfold bind at 1. rewrite E. split; [reflexivity |]. split; [exact Hms |].
      split; [exact Htr | exact Hev].
    + intros d Hd. split; [exact (Hmiss d Hd) |].
      unfold provider_vector. rewrite (provider_outcome_no_key env _ Hkey). reflexivity.
Qed.

(** *** Instances *)

(** A document with nothing to embed. *)
Definition bare_document : Document :=
  {| id := "bare"; title := []; content := []; url := lit "https://example.org";
     publishedAt := []; source := []; summary := Some []; embedding := None |}.

(** Two documents whose contents differ after the first 6000 code units. *)
Definition long_document (tail : text) : Document :=
  {| id := "long"; title := lit "Long read"; content := repeat 97%N (Z.to_nat 6000) ++ tail;
     url := []; publishedAt := []; source := []; summary := None; embedding := None |}.

Lemma generateEmbedding_blank_witness :
  blank [32; 10; 9]%N
  /\ generateEmbedding env_flaky [32; 10; 9]%N empty_fallback_world
     = (Throw (JsError "Request setup error: No valid text inputs provided for embedding generation"),
        log (EvGenerateEmbedding [32; 10; 9]%N) empty_fallback_world).
Proof.
  assert (H : blank [32; 10; 9]%N) by (repeat constructor).
  split; [exact H |].
  exact (proj1 (generateEmbedding_blank env_flaky empty_fallback_world [32; 10; 9]%N H)).
Defined.

Lemma createEmbeddingText_content_cut_witness :
  title (long_document (lit "x")) = title (long_document (lit "yz"))
  /\ summary (long_document (lit "x")) = summary (long_document (lit "yz"))
  /\ (maxContentLength < Z.of_nat (length (content (long_document (lit "x")))))%Z
  /\ (maxContentLength < Z.of_nat (length (content (long_document (lit "yz")))))%Z
  /\ substring0 (content (long_document (lit "x"))) maxContentLength
     = substring0 (content (long_document (lit "yz"))) maxContentLength
  /\ createEmbeddingText (long_document (lit "x")) = createEmbeddingText (long_document (lit "yz")).
Proof.
  assert (H1 : (maxContentLength < Z.of_nat (length (content (long_document (lit "x")))))%Z)
    by (vm_compute; reflexivity).
  assert (H2 : (maxContentLength < Z.of_nat (length (content (long_document (lit "yz")))))%Z)
    by (vm_compute; reflexivity).
  assert (H3 : substring0 (content (long_document (lit "x"))) maxContentLength
               = substring0 (content (long_document (lit "yz"))) maxContentLength)
    by (vm_compute; reflexivity).
  split; [reflexivity |]. split; [reflexivity |].
  split; [exact H1 |]. split; [exact H2 |]. split; [exact H3 |].
  exact (createEmbeddingText_content_cut (long_document (lit "x")) (long_document (lit "yz"))
           eq_refl eq_refl H1 H2 H3).
Defined.


Lemma empty_document_not_ingested_witness :
  empty_document bare_document
  /\ cached empty_fallback_world (id bare_document) = None
  /\ processAndStoreDocument env_flaky bare_document empty_fallback_world
     = (Throw (JsError "Request setup error: No valid text inputs provided for embedding generation"),
        log (EvGenerateEmbedding []) empty_fallback_world).
Proof.
  assert (He : empty_document bare_document)
    by (split; [reflexivity | split; [right; reflexivity | reflexivity]]).
  split; [exact He |]. split; [reflexivity |].
  exact (empty_document_not_ingested env_flaky empty_fallback_world bare_document He eq_refl).
Defined.

Lemma no_api_key_witness :
  jinaApiKey env_no_key = ""%string
  /\ generateEmbedding env_no_key (lit "What's new in AI?") empty_fallback_world
     = (Throw (JsError "Request setup error: JINA_API_KEY is not configured"),
        log (EvGenerateEmbedding (lit "What's new in AI?")) empty_fallback_world).
Proof.
  split; [reflexivity |].
  exact (proj1 (no_api_key env_no_key empty_fallback_world eq_refl) (lit "What's new in AI?")).
Defined.

(** ** RAGService: statistics, clearing and the self test (services/rag.js)
    and the self test of the provider (services/embeddings.js) *)

(** [error.message] *)
Definition error_message (e : js_error) : string :=
  match e with JsError m => m end.

(** What [getStats] returns: the statistics, or a count of 0 with the
    message of the error. *)
Inductive Stats :=
| Statistics (documentCount : N) (collectionName : string) (vectorSize : N)
    (collectionStatus : string) (indexedVectors : N)
| StatisticsError (documentCount : N) (error : string).

(** The dimension that the constructor of [QdrantService] sets. *)
Definition vectorSize : N := 768.

Definition testText : text := lit "This is a test sentence for embedding generation.".

Definition testQuery : text := lit "latest news about technology".

Section Administration.

Variable env : Env.
Variable client : DeleteClient.

(** [process.env.QDRANT_COLLECTION_NAME || 'news_articles'] *)
Variable collectionName : string.

Definition addDocument (document : Document) : M bool :=
  processAndStoreDocument env document.

Definition addDocuments (documents : list Document) : M nat :=
  processAndStoreDocuments env documents.

Definition getStats : M Stats :=
  try_catch
    (let* documentCount := countDocuments env in
     let* collectionInfo := getCollectionInfo env in
     ret (Statistics documentCount collectionName vectorSize
            (status collectionInfo)
            (default 0%N (indexed_vectors_count collectionInfo))))
    (fun error => ret (StatisticsError 0 (error_message error))).

Definition clearAllDocuments : M bool :=
  rethrowing
    (let* _ := clearCollection client in
     let* _ := clearAllEmbeddings env in
     ret true).

(** [embedding && Array.isArray(embedding) && embedding.length > 0] *)
Definition testService : M bool :=
  rethrowing
    (let* embedding := generateEmbedding env testText in
     match embedding with
     | Some (_ :: _) => ret true
     | _ => throw (JsError "Invalid embedding response")
     end).

Definition testSystem : M bool :=
  rethrowing
    (let* _ := testService in
     let* results := retrieveRelevantDocuments env testQuery 3 0.5%float in
     ret true).

End Administration.

Section AdministrationFacts.

Lemma getCollectionInfo_run (env : Env) (w : World) :
  getCollectionInfo env w
  = if fallback w then
      let n := N.of_nat (length (memoryStore w)) in
      (Return {| status := "yellow"; points_count := Some n;
                 indexed_vectors_count := Some n; vectors_count := Some n |}, w)
    else
      (match client_getCollection env with
       | inl e => Throw e
       | inr info => Return info
       end, log EvClientGetCollection w).
Proof.
  unfold getCollectionInfo. rewrite rethrowing_id. unfold bind, get, modify, ret.
  destruct (fallback w); [reflexivity |].
  destruct (client_getCollection env); reflexivity.
Qed.

Lemma countDocuments_run (env : Env) (w : World) :
  countDocuments env w
  = if fallback w then (Return (N.of_nat (length (memoryStore w))), w)
    else
      (Return match client_getCollection env with
              | inl _ => 0%N
              | inr info => default 0%N (points_count info)
              end, log EvClientGetCollection w).
Proof.
  unfold countDocuments, try_catch, bind. rewrite getCollectionInfo_run.
  destruct (fallback w); [reflexivity |].
  destruct (client_getCollection env); reflexivity.
Qed.

Lemma testService_run (env : Env) (w : World) :
  testService env w
  = (match provider_outcome env testText with
     | Return (Some (_ :: _)) => Return true
     | Return _ => Throw (JsError "Invalid embedding response")
     | Throw e => Throw e
     end, log (EvGenerateEmbedding testText) w).
Proof.
  unfold testService. rewrite rethrowing_id. unfold bind.
  rewrite generateEmbedding_run.
  destruct (provider_outcome env testText) as [[[| x v] |] | e]; reflexivity.
Qed.

End AdministrationFacts.

(** X21. [getStats] never throws. In fallback mode it reports the number
    of points of the in-memory store as the count and as the indexed
    vectors, with the status "yellow", and leaves the world as it is.
    Outside fallback mode it asks the client for the collection twice;
    when the client fails, the count is 0 and the error message is the
    client's; when the client answers, the count and the indexed vectors
    are those of the answer, 0 for a missing number. *)
Theorem getStats_total (env : Env) (collectionName : string) (w : World) :
  exists (s : Stats) (w' : World),
    getStats env collectionName w = (Return s, w')
    /\ (fallback w = true ->
        let n := N.of_nat (length (memoryStore w)) in
        s = Statistics n collectionName 768 "yellow" n /\ w' = w)
    /\ (fallback w = false ->
        w' = log EvClientGetCollection (log EvClientGetCollection w)
        /\ (forall e, client_getCollection env = inl e ->
            s = StatisticsError 0 (error_message e))
        /\ (forall info, client_getCollection env = inr info ->
            s = Statistics (default 0%N (points_count info)) collectionName 768
                  (status info) (default 0%N (indexed_vectors_count info)))).
Proof.
  unfold getStats, try_catch, bind at 1. rewrite countDocuments_run.
  destruct (fallback w) eqn:Hfb.
  - unfold bind. rewrite getCollectionInfo_run, Hfb. cbv zeta.
    eexists _, _. split; [reflexivity |].
    split; [intros _; split; reflexivity | discriminate].
  - unfold bind. rewrite getCollectionInfo_run. simpl fallback. rewrite Hfb.
    destruct (client_getCollection env) as [e | info].
    + eexists _, _. split; [reflexivity |]. split; [discriminate |].
      intros _. split; [reflexivity |].
      split; [intros e' H; injection H as <-; reflexivity | discriminate].
    + eexists _, _. split; [reflexivity |]. split; [discriminate |].
      intros _. split; [reflexivity |].
      split; [discriminate | intros i H; injection H as <-; reflexivity].
Qed.

(** X22. In fallback mode, while Redis serves reads and writes,
    [clearAllDocuments] returns true and leaves an empty store and no
    cached embedding: the count is 0 and every lookup of the cache is a
    miss. *)
Theorem clearAllDocuments_clears (env : Env) (client : DeleteClient) (w : World) :
  fallback w = true -> redis_readable w = true -> redis_writable w = true ->
  exists w',
    clearAllDocuments env client w = (Return true, w')
    /\ memoryStore w' = []
    /\ countDocuments env w' = (Return 0%N, w')
    /\ forall docId, getCachedEmbedding env docId w' = (Return None, w').
Proof.
  intros Hfb Hrd Hwr.
  destruct (clearAllEmbeddings_served env (set_memoryStore [] w) Hrd Hwr)
    as (w' & Hrun & Hlookup & Hrd' & Hfb' & Hms & _).
  exists w'. split.
  { unfold clearAllDocuments. rewrite rethrowing_id. unfold bind at 1.
    rewrite clearCollection_fallback by exact Hfb. unfold bind. rewrite Hrun. reflexivity. }
  split; [exact Hms |].
  split.
  - rewrite countDocuments_fallback by (rewrite Hfb'; exact Hfb).
    rewrite Hms. reflexivity.
  - intros docId. rewrite getCachedEmbedding_run. unfold cached.
    rewrite Hrd', Hlookup, embedding_key_prefix. reflexivity.
Qed.

(** X23. [clearAllDocuments] is not atomic. In fallback mode, when Redis
    does not serve the listing of the keys, it throws the error of Redis
    after the store has been emptied, the cache being as it was. Outside
    fallback mode, when the client fails to clear the collection, it
    throws the error of the client and the cache is not touched. *)
Theorem clearAllDocuments_partial (env : Env) (client : DeleteClient) (w : World) :
  (fallback w = true -> redis_readable w = false ->
   exists w',
     clearAllDocuments env client w = (Throw (redis_command_error env), w')
     /\ memoryStore w' = []
     /\ redis w' = redis w)
  /\ (fallback w = false ->
      forall e, client_delete_filter client = Some e ->
      clearAllDocuments env client w = (Throw e, w)).
Proof.
  split.
  - intros Hfb Hrd. eexists. split.
    + unfold clearAllDocuments. rewrite rethrowing_id. unfold bind at 1.
      rewrite clearCollection_fallback by exact Hfb. unfold bind.
      rewrite clearAllEmbeddings_run. simpl redis_readable. rewrite Hrd. reflexivity.
    + split; reflexivity.
  - intros Hfb e He. unfold clearAllDocuments. rewrite rethrowing_id. unfold bind at 1.
    unfold clearCollection. rewrite rethrowing_id. unfold bind, get.
    rewrite Hfb, He. reflexivity.
Qed.

(** X24. The self test writes nothing: after [testSystem] the store, the
    cache and the mode are what they were, and the calls made only read.
    When the self test of the provider fails, be it by an error of the
    provider or by an answer without a non-empty vector ("Invalid
    embedding response"), [testSystem] throws that error after one call
    of the provider and the retrieval is not attempted; otherwise the
    provider is called twice. *)
Theorem testSystem_read_only (env : Env) (w : World) :
  exists o w' evs,
    testSystem env w = (o, w')
    /\ memoryStore w' = memoryStore w /\ redis w' = redis w /\ fallback w' = fallback w
    /\ trace w' = evs ++ trace w
    /\ Forall is_read evs
    /\ match testService env w with
       | (Throw e, _) => o = Throw e /\ provider_calls evs = 1
       | (Return _, _) => provider_calls evs = 2
       end
    /\ (forall x, provider_outcome env testText = Return x ->
        x = None \/ x = Some [] ->
        o = Throw (JsError "Invalid embedding response")).
Proof.
  unfold testSystem. rewrite rethrowing_id. unfold bind at 1.
  rewrite testService_run.
  assert (Hfail : forall e,
             exists o w' evs,
               (@Throw bool e, log (EvGenerateEmbedding testText) w) = (o, w')
               /\ memoryStore w' = memoryStore w /\ redis w' = redis w
               /\ fallback w' = fallback w
               /\ trace w' = evs ++ trace w
               /\ Forall is_read evs
               /\ (o = Throw e /\ provider_calls evs = 1)).
  { intros e. exists (Throw e), (log (EvGenerateEmbedding testText) w),
      [EvGenerateEmbedding testText].
    repeat split. repeat constructor. }
  destruct (provider_outcome env testText) as [[[| x v] |] | e] eqn:Hp.
  - destruct (Hfail (JsError "Invalid embedding response"))
      as (o & w' & evs & E & H1 & H2 & H3 & H4 & H5 & H6 & H7).
    exists o, w', evs. repeat split; try assumption. intros; exact H6.
  - unfold bind. rewrite retrieveRelevantDocuments_run.
    set (w1 := log (EvGenerateEmbedding testText) w).
    assert (Hlast : forall y : option vector,
               Return (Some (x :: v)) = Return y -> y = None \/ y = Some [] ->
               forall o : outcome bool, o = Throw (JsError "Invalid embedding response")).
    { intros y Hy [-> | ->]; discriminate Hy. }
    destruct (provider_outcome env testQuery) as [[q |] | e].
    + destruct (searchSimilar_run env (Some q) 3 0.5%float
                  (log (EvGenerateEmbedding testQuery) w1)) as [o' Hs].
      rewrite Hs. clear Hs.
      change (fallback (log (EvGenerateEmbedding testQuery) w1)) with (fallback w).
      destruct (fallback w) eqn:Hfb; destruct o' as [r | e']; unfold ret.
      * eexists _, _, [EvGenerateEmbedding testQuery; EvGenerateEmbedding testText].
        split; [reflexivity |]. simpl.
        repeat (split; [first [reflexivity | exact Hfb | repeat constructor] |]).
        intros y Hy Hx. exact (Hlast y Hy Hx _).
      * eexists _, _, [EvGenerateEmbedding testQuery; EvGenerateEmbedding testText].
        split; [reflexivity |]. simpl.
        repeat (split; [first [reflexivity | exact Hfb | repeat constructor] |]).
        intros y Hy Hx. exact (Hlast y Hy Hx _).
      * eexists _, _, [EvClientSearch; EvGenerateEmbedding testQuery;
                       EvGenerateEmbedding testText].
        split; [reflexivity |]. simpl.
        repeat (split; [first [reflexivity | exact Hfb | repeat constructor] |]).
        intros y Hy Hx. exact (Hlast y Hy Hx _).
      * eexists _, _, [EvClientSearch; EvGenerateEmbedding testQuery;
                       EvGenerateEmbedding testText].
        split; [reflexivity |]. simpl.
        repeat (split; [first [reflexivity | exact Hfb | repeat constructor] |]).
        intros y Hy Hx. exact (Hlast y Hy Hx _).
    + eexists _, _, [EvGenerateEmbedding testQuery; EvGenerateEmbedding testText].
      split; [reflexivity |]. simpl.
      repeat (split; [first [reflexivity | repeat constructor] |]).
      intros y Hy Hx. exact (Hlast y Hy Hx _).
    + eexists _, _, [EvGenerateEmbedding testQuery; EvGenerateEmbedding testText].
      split; [reflexivity |]. simpl.
      repeat (split; [first [reflexivity | repeat constructor] |]).
      intros y Hy Hx. exact (Hlast y Hy Hx _).
  - destruct (Hfail (JsError "Invalid embedding response"))
      as (o & w' & evs & E & H1 & H2 & H3 & H4 & H5 & H6 & H7).
    exists o, w', evs. repeat split; try assumption. intros; exact H6.
  - destruct (Hfail e) as (o & w' & evs & E & H1 & H2 & H3 & H4 & H5 & H6 & H7).
    exists o, w', evs. repeat split; try assumption. intros y Hy. discriminate Hy.
Qed.

(** A world with points in the store and embeddings in the cache. *)
Definition stocked_world : World :=
  set_memoryStore (memoryStore ranking_world) world_with_cache.

Lemma clearAllDocuments_clears_witness :
  fallback stocked_world = true
  /\ redis_readable stocked_world = true
  /\ redis_writable stocked_world = true
  /\ exists w',
       clearAllDocuments env_flaky delete_client_ok stocked_world = (Return true, w')
       /\ memoryStore w' = []
       /\ getCachedEmbedding env_flaky "d1" w' = (Return None, w').
Proof.
  split; [reflexivity |]. split; [reflexivity |]. split; [reflexivity |].
  destruct (clearAllDocuments_clears env_flaky delete_client_ok stocked_world
              eq_refl eq_refl eq_refl)
    as (w' & Hrun & Hms & _ & Hmiss).
  exists w'. split; [exact Hrun |]. split; [exact Hms | apply Hmiss].
Defined.

Example getStats_fallback :
  fst (getStats env_flaky "news_articles" ranking_world)
  = Return (Statistics 5 "news_articles" 768 "yellow" 5).
Proof. vm_compute. reflexivity. Qed.

Example getStats_unreachable :
  fst (getStats env_flaky "news_articles" networked_world)
  = Return (StatisticsError 0 "unreachable").
Proof. vm_compute. reflexivity. Qed.

(** ** QdrantService: the URL of the server (services/qdrant.js) *)

(** [s.includes(pat)] *)
Fixpoint includes (s pat : string) : bool :=
  String.prefix pat s
  || match s with
     | EmptyString => false
     | String _ s' => includes s' pat
     end.

Fixpoint drop_string (n : nat) (s : string) : string :=
  match n, s with
  | S n', String _ s' => drop_string n' s'
  | _, _ => s
  end.

(** [s.replace(pat, rep)] for a string pattern and a replacement without
    [$]: the first occurrence is replaced. *)
Fixpoint replace_first (pat rep s : string) : string :=
  if String.prefix pat s then rep +:+ drop_string (String.length pat) s
  else
    match s with
    | EmptyString => EmptyString
    | String c s' => String c (replace_first pat rep s')
    end.

(** [apiKey] is [process.env.QDRANT_API_KEY], the empty string when it is
    not set. *)
Definition ensureSecureUrl (apiKey : string) (url : string) : string :=
  if includes url "localhost" || includes url "127.0.0.1" then
    if String.prefix "https://" url
    then replace_first "https://" "http://" url
    else url
  else if negb (String.eqb apiKey "") then
    if String.prefix "http://" url then replace_first "http://" "https://" url
    else if negb (String.prefix "https://" url) then "https://" +:+ url
    else url
  else url.

(** The URL names the local machine. *)
Definition is_local (url : string) : bool :=
  includes url "localhost" || includes url "127.0.0.1".

Section SecureUrl.

Lemma replace_first_prefix (pat rep s : string) :
  String.prefix pat s = true ->
  replace_first pat rep s = rep +:+ drop_string (String.length pat) s.
Proof. intros H. destruct s; cbn [replace_first]; rewrite H; reflexivity. Qed.

Lemma prefix_drop (p s : string) :
  String.prefix p s = true -> s = p +:+ drop_string (String.length p) s.
Proof.
  revert s. induction p as [| c p IH]; intros s H; [destruct s; reflexivity |].
  destruct s as [| d s]; [discriminate |].
  simpl in H. destruct (ascii_dec c d) as [-> | ]; [| discriminate].
  change (String d p +:+ drop_string (String.length (String d p)) (String d s))
    with (String d (p +:+ drop_string (String.length p) s)).
  f_equal. apply IH, H.
Qed.

Lemma secure_not_plain (x : string) : String.prefix "https://" ("http://" +:+ x) = false.
Proof. reflexivity. Qed.

Lemma plain_not_secure (x : string) : String.prefix "http://" ("https://" +:+ x) = false.
Proof. reflexivity. Qed.

Lemma is_local_secure (x : string) : is_local ("https://" +:+ x) = is_local x.
Proof. reflexivity. Qed.

Lemma is_local_plain (x : string) : is_local ("http://" +:+ x) = is_local x.
Proof. reflexivity. Qed.

End SecureUrl.

(** X25. [ensureSecureUrl]: a URL that names the local machine
    ("localhost" or "127.0.0.1") never comes out with the scheme
    "https://"; any other URL, when an API key is set, always comes out
    with the scheme "https://"; without an API key it is returned as it
    is. Applying the function twice is the same as applying it once. *)
Theorem ensureSecureUrl_spec (apiKey url : string) :
  let out := ensureSecureUrl apiKey url in
  (is_local url = true -> String.prefix "https://" out = false)
  /\ (is_local url = false -> apiKey <> ""%string -> String.prefix "https://" out = true)
  /\ (is_local url = false -> apiKey = ""%string -> out = url)
  /\ ensureSecureUrl apiKey out = out.
Proof.
  cbv zeta. unfold ensureSecureUrl. fold (is_local url).
  destruct (is_local url) eqn:Hl.
  - destruct (String.prefix "https://" url) eqn:Hs.
    + rewrite (replace_first_prefix _ _ _ Hs).
      rewrite (prefix_drop _ _ Hs), is_local_secure in Hl.
      set (rest := drop_string (String.length "https://") url) in *.
      split; [intros _; apply secure_not_plain |].
      split; [discriminate |]. split; [discriminate |].
      fold (is_local ("http://" +:+ rest)). rewrite is_local_plain, Hl.
      rewrite secure_not_plain. reflexivity.
    + split; [intros _; exact Hs |].
      split; [discriminate |]. split; [discriminate |].
      fold (is_local url). rewrite Hl, Hs. reflexivity.
  - destruct (String.eqb_spec apiKey "") as [-> | Hkey]; simpl negb; cbv iota.
    + split; [discriminate |]. split; [intros _ H; contradiction |].
      split; [reflexivity |].
      fold (is_local url). rewrite Hl. reflexivity.
    + assert (Hk : negb (String.eqb apiKey "") = true)
        by (apply negb_true_iff, String.eqb_neq, Hkey).
      destruct (String.prefix "http://" url) eqn:Hp.
      * rewrite (replace_first_prefix _ _ _ Hp).
        rewrite (prefix_drop _ _ Hp), is_local_plain in Hl.
        set (rest := drop_string (String.length "http://") url) in *.
        split; [discriminate |]. split; [intros _ _; apply prefix_append |].
        split; [intros _ H; contradiction |].
        fold (is_local ("https://" +:+ rest)). rewrite is_local_secure, Hl.
        rewrite plain_not_secure, prefix_append. reflexivity.
      * destruct (String.prefix "https://" url) eqn:Hs; simpl negb; cbv iota.
        -- split; [discriminate |]. split; [intros _ _; exact Hs |].
           split; [intros _ H; contradiction |].
           fold (is_local url). rewrite Hl, Hp, Hs. reflexivity.
        -- split; [discriminate |]. split; [intros _ _; apply prefix_append |].
           split; [intros _ H; contradiction |].
           fold (is_local ("https://" +:+ url)). rewrite is_local_secure, Hl.
           rewrite plain_not_secure, prefix_append. reflexivity.
Qed.

Example ensureSecureUrl_local :
  ensureSecureUrl "key" "https://localhost:6333" = "http://localhost:6333"%string.
Proof. reflexivity. Qed.

Example ensureSecureUrl_cloud :
  ensureSecureUrl "key" "http://qdrant.example.com:6333" = "https://qdrant.example.com:6333"%string
  /\ ensureSecureUrl "key" "qdrant.example.com" = "https://qdrant.example.com"%string
  /\ ensureSecureUrl "" "http://qdrant.example.com:6333" = "http://qdrant.example.com:6333"%string.
Proof. repeat split. Qed.

(** ** RedisService: the chat history (services/redis.js)

    The history of a session is a Redis list under the key
    ["chat:" + sessionId], the latest message at its head. The commands
    are those of Redis: [LPUSH] creates the list when the key is new,
    [EXPIRE] sets the time to live of an existing key and deletes the key
    when the time is not positive, [LRANGE key 0 -1] gives the whole list
    and the empty list for a missing key. *)

Record ChatStore := {
  chat_lists : gmap string (list string);
  chat_expiry : gmap string Z;
  chat_served : bool   (** whether Redis serves the commands *)
}.

Definition chat_key (sessionId : string) : string := "chat:" +:+ sessionId.

Definition lPush (key value : string) (r : ChatStore) : ChatStore :=
  {| chat_lists := <[key := value :: default [] (chat_lists r !! key)]> (chat_lists r);
     chat_expiry := chat_expiry r;
     chat_served := chat_served r |}.

Definition del (key : string) (r : ChatStore) : ChatStore :=
  {| chat_lists := delete key (chat_lists r);
     chat_expiry := delete key (chat_expiry r);
     chat_served := chat_served r |}.

Definition expire (key : string) (seconds : Z) (r : ChatStore) : ChatStore :=
  match chat_lists r !! key with
  | None => r
  | Some _ =>
      if (0 <? seconds)%Z
      then {| chat_lists := chat_lists r;
              chat_expiry := <[key := seconds]> (chat_expiry r);
              chat_served := chat_served r |}
      else del key r
  end.

Definition lRange_all (key : string) (r : ChatStore) : list string :=
  default [] (chat_lists r !! key).

Definition keys (prefix : string) (r : ChatStore) : list string :=
  List.filter (String.prefix prefix) (map fst (map_to_list (chat_lists r))).

(** [parseInt(process.env.REDIS_TTL) || 86400], for the number that
    [parseInt] gives, if any. *)
Definition session_ttl (parsed : option Z) : Z :=
  match parsed with
  | None | Some 0%Z => 86400
  | Some n => n
  end.

Section ChatHistory.

Variable env : Env.

(** The messages and their JSON texts: [JSON.stringify] gives no text for
    [undefined], [JSON.parse] throws on a text that is not JSON. *)
Variable Message : Type.
Variable stringify : Message -> option string.
Variable parse : string -> option Message.

(** [parseInt(process.env.REDIS_TTL)], when it is a number. *)
Variable redis_ttl : option Z.

(** [messages.map(msg => JSON.parse(msg))]; [None] when a [JSON.parse]
    throws. *)
Fixpoint parse_all (messages : list string) : option (list Message) :=
  match messages with
  | [] => Some []
  | msg :: rest =>
      match parse msg with
      | None => None
      | Some m =>
          match parse_all rest with
          | None => None
          | Some ms => Some (m :: ms)
          end
      end
  end.

Definition addToHistory (sessionId : string) (message : Message) (r : ChatStore)
  : outcome bool * ChatStore :=
  let key := chat_key sessionId in
  match stringify message with
  | None => (Throw (redis_invalid_argument env), r)
  | Some messageStr =>
      if chat_served r then
        let r1 := lPush key messageStr r in
        let ttl := session_ttl redis_ttl in
        (Return true, expire key ttl r1)
      else (Throw (redis_command_error env), r)
  end.

Definition getChatHistory (sessionId : string) (r : ChatStore)
  : outcome (list Message) * ChatStore :=
  let key := chat_key sessionId in
  if chat_served r then
    let messages := lRange_all key r in
    match parse_all (rev messages) with
    | Some history => (Return history, r)
    | None => (Return [], r)
    end
  else (Return [], r).

Definition clearHistory (sessionId : string) (r : ChatStore) : outcome bool * ChatStore :=
  let key := chat_key sessionId in
  if chat_served r then (Return true, del key r)
  else (Throw (redis_command_error env), r).

Definition getAllSessions (r : ChatStore) : outcome (list string) * ChatStore :=
  if chat_served r
  then (Return (map (replace_first "chat:" "") (keys "chat:" r)), r)
  else (Return [], r).

Lemma chat_key_inj (i j : string) : chat_key i = chat_key j -> i = j.
Proof. unfold chat_key. apply String.app_inj. Qed.

Lemma parse_all_snoc (l : list string) (s : string) (h : list Message) (m : Message) :
  parse_all l = Some h -> parse s = Some m -> parse_all (l ++ [s]) = Some (h ++ [m]).
Proof.
  revert h. induction l as [| x l IH]; intros h Hl Hs; simpl in *.
  - injection Hl as <-. rewrite Hs. reflexivity.
  - destruct (parse x) as [mx |]; [| discriminate].
    destruct (parse_all l) as [ms |]; [| discriminate].
    injection Hl as <-. rewrite (IH ms eq_refl Hs). reflexivity.
Qed.

Lemma parse_all_fails (l : list string) (s : string) :
  In s l -> parse s = None -> parse_all l = None.
Proof.
  induction l as [| x l IH]; simpl; [tauto |].
  intros [-> | Hin] Hs; [rewrite Hs; reflexivity |].
  destruct (parse x); [| reflexivity]. rewrite (IH Hin Hs). reflexivity.
Qed.

Lemma strip_chat_key (sessionId : string) :
  replace_first "chat:" "" (chat_key sessionId) = sessionId.
Proof.
  unfold chat_key. rewrite replace_first_prefix by apply prefix_append. reflexivity.
Qed.

Lemma chat_key_listed (r : ChatStore) (sessionId : string) :
  In sessionId (map (replace_first "chat:" "") (keys "chat:" r))
  <-> is_Some (chat_lists r !! chat_key sessionId).
Proof.
  unfold keys. split.
  - intros H. apply in_map_iff in H as (k & Hk & Hin).
    apply List.filter_In in Hin as [Hin Hp].
    assert (Hkey : k = chat_key sessionId).
    { rewrite (prefix_drop _ _ Hp) in Hk |- *.
      rewrite replace_first_prefix in Hk by apply prefix_append.
      unfold chat_key. f_equal.
      rewrite <- Hk. reflexivity. }
    subst k. apply in_map_iff in Hin as ([k v] & Hk' & Hin). simpl in Hk'. subst k.
    apply list_elem_of_In, elem_of_map_to_list in Hin. eauto.
  - intros [v Hv]. apply in_map_iff. exists (chat_key sessionId).
    split; [apply strip_chat_key |].
    apply List.filter_In. split; [| apply prefix_append].
    apply in_map_iff. exists (chat_key sessionId, v). split; [reflexivity |].
    apply list_elem_of_In, elem_of_map_to_list, Hv.
Qed.

End ChatHistory.

Arguments parse_all {Message} parse messages.
Arguments addToHistory env {Message} stringify redis_ttl sessionId message r.
Arguments getChatHistory {Message} parse sessionId r.
Arguments parse_all_snoc {Message} parse l s h m.
Arguments parse_all_fails {Message} parse l s.

Section ChatHistoryFacts.

Variable env : Env.
Variable Message : Type.
Variable stringify : Message -> option string.
Variable parse : string -> option Message.
Variable redis_ttl : option Z.

(** X26. The history is chronological. While Redis serves the commands
    and the time to live in force is positive, [addToHistory] of a message
    whose JSON text parses back to it succeeds, and [getChatHistory] then
    returns the history that was there (the stored texts parsed, oldest
    message first) followed by the new message. The time to live of the session is set anew, to the
    configured number of seconds or to 86400 when none or 0 is configured,
    and the histories of the other sessions are what they were. *)
Theorem chat_history_chronological (r : ChatStore) (sessionId : string)
    (m : Message) (s : string) (history : list Message) :
  chat_served r = true ->
  (0 < session_ttl redis_ttl)%Z ->
  stringify m = Some s -> parse s = Some m ->
  parse_all parse (rev (lRange_all (chat_key sessionId) r)) = Some history ->
  exists r',
    addToHistory env stringify redis_ttl sessionId m r = (Return true, r')
    /\ getChatHistory parse sessionId r' = (Return (history ++ [m]), r')
    /\ chat_expiry r' !! chat_key sessionId = Some (session_ttl redis_ttl)
    /\ forall other, other <> sessionId ->
         fst (getChatHistory parse other r') = fst (getChatHistory parse other r).
Proof.
  intros Hserved Httl Hs Hp Hh.
  unfold addToHistory. rewrite Hs, Hserved. cbv zeta.
  unfold expire. simpl chat_lists. rewrite lookup_insert_eq.
  rewrite (proj2 (Z.ltb_lt _ _) Httl).
  eexists. split; [reflexivity |].
  split.
  { unfold getChatHistory, lRange_all. simpl. rewrite Hserved, lookup_insert_eq. simpl.
    fold (lRange_all (chat_key sessionId) r).
    rewrite (parse_all_snoc parse _ _ _ _ Hh Hp). reflexivity. }
  split; [simpl; apply lookup_insert_eq |].
  intros other Hne. unfold getChatHistory, lRange_all. simpl. rewrite Hserved.
  rewrite lookup_insert_ne by (intros H; apply chat_key_inj in H; congruence).
  destruct (parse_all parse (rev (default [] (chat_lists r !! chat_key other))));
    reflexivity.
Qed.

(** X27. [getChatHistory] never throws and changes nothing. It returns
    the empty history when Redis does not serve the command, when the
    session has no list, and when the text of some stored message is not
    JSON: one unreadable entry hides the whole history. Otherwise the
    history is the stored messages parsed, oldest first. *)
Theorem getChatHistory_total (r : ChatStore) (sessionId : string) :
  exists history,
    getChatHistory parse sessionId r = (Return history, r)
    /\ (chat_served r = false -> history = [])
    /\ (chat_lists r !! chat_key sessionId = None -> history = [])
    /\ (forall s, In s (lRange_all (chat_key sessionId) r) -> parse s = None ->
        history = [])
    /\ (chat_served r = true ->
        forall h, parse_all parse (rev (lRange_all (chat_key sessionId) r)) = Some h ->
        history = h).
Proof.
  unfold getChatHistory. destruct (chat_served r).
  - destruct (parse_all parse (rev (lRange_all (chat_key sessionId) r))) as [h |] eqn:Hh.
    + exists h. split; [reflexivity |]. split; [discriminate |].
      split.
      { intros Hnone. unfold lRange_all in Hh. rewrite Hnone in Hh. simpl in Hh.
        injection Hh as <-. reflexivity. }
      split.
      { intros s Hin Hs. rewrite (parse_all_fails parse _ s) in Hh; [discriminate | | exact Hs].
        apply in_rev in Hin. exact Hin. }
      intros _ h' Hh'. injection Hh' as <-. reflexivity.
    + exists []. split; [reflexivity |]. repeat split. intros _ h' Hh'. discriminate Hh'.
  - exists []. split; [reflexivity |]. repeat split. discriminate.
Qed.

(** X28. While Redis serves the commands, [clearHistory] succeeds;
    afterwards the history of the session is empty and the session is not
    listed by [getAllSessions], while the histories of the other sessions
    are what they were. When Redis does not serve the command it throws
    and changes nothing. *)
Theorem clearHistory_spec (r : ChatStore) (sessionId : string) :
  (chat_served r = true ->
   exists r',
     clearHistory env sessionId r = (Return true, r')
     /\ getChatHistory parse sessionId r' = (Return [], r')
     /\ (forall sessions, getAllSessions r' = (Return sessions, r') ->
         ~ In sessionId sessions)
     /\ forall other, other <> sessionId ->
          fst (getChatHistory parse other r') = fst (getChatHistory parse other r))
  /\ (chat_served r = false ->
      clearHistory env sessionId r = (Throw (redis_command_error env), r)).
Proof.
  unfold clearHistory. split.
  - intros Hserved. rewrite Hserved. eexists. split; [reflexivity |].
    split.
    { unfold getChatHistory, lRange_all. simpl. rewrite Hserved, lookup_delete_eq.
      reflexivity. }
    split.
    { intros sessions Hs. unfold getAllSessions in Hs. simpl in Hs.
      rewrite Hserved in Hs. injection Hs as <-.
      intros Hin. apply chat_key_listed in Hin. simpl in Hin.
      rewrite lookup_delete_eq in Hin. destruct Hin as [v Hv]. discriminate Hv. }
    intros other Hne. unfold getChatHistory, lRange_all. simpl. rewrite Hserved.
    rewrite lookup_delete_ne by (intros H; apply chat_key_inj in H; congruence).
    destruct (parse_all parse (rev (default [] (chat_lists r !! chat_key other))));
      reflexivity.
  - intros ->. reflexivity.
Qed.

(** X29. [getAllSessions] never throws and changes nothing. While Redis
    serves the command, a session is listed exactly when it has a list in
    Redis, under its own id, also when the id itself holds the text
    "chat:"; a session to which a message was just added is listed. When
    Redis does not serve the command the list is empty. *)
Theorem getAllSessions_spec (r : ChatStore) :
  exists sessions,
    getAllSessions r = (Return sessions, r)
    /\ (chat_served r = false -> sessions = [])
    /\ (chat_served r = true ->
        forall sessionId,
          In sessionId sessions <-> is_Some (chat_lists r !! chat_key sessionId))
    /\ (chat_served r = true -> (0 < session_ttl redis_ttl)%Z ->
        forall sessionId m r',
          addToHistory env stringify redis_ttl sessionId m r = (Return true, r') ->
          exists sessions',
            getAllSessions r' = (Return sessions', r') /\ In sessionId sessions').
Proof.
  unfold getAllSessions. destruct (chat_served r) eqn:Hserved.
  - eexists. split; [reflexivity |]. split; [discriminate |].
    split; [intros _ sessionId; apply chat_key_listed |].
    intros _ Httl sessionId m r' Hadd.
    unfold addToHistory in Hadd. destruct (stringify m) as [s |]; [| discriminate].
    rewrite Hserved in Hadd. cbv zeta in Hadd.
    unfold expire in Hadd. simpl chat_lists in Hadd. rewrite lookup_insert_eq in Hadd.
    rewrite (proj2 (Z.ltb_lt _ _) Httl) in Hadd. injection Hadd as <-.
    simpl chat_served. rewrite Hserved.
    eexists. split; [reflexivity |].
    apply chat_key_listed. simpl. rewrite lookup_insert_eq. eauto.
  - exists []. split; [reflexivity |]. split; [reflexivity |].
    split; discriminate.
Qed.

End ChatHistoryFacts.

(** A session with two messages, and JSON texts that stand for
    themselves. *)
Definition chat_two_messages : ChatStore :=
  {| chat_lists := <[chat_key "s1" := ["second"; "first"]%string]> ∅;
     chat_expiry := ∅;
     chat_served := true |}.

Lemma chat_history_chronological_witness :
  chat_served chat_two_messages = true
  /\ (0 < session_ttl None)%Z
  /\ exists r',
       addToHistory env_flaky Some None "s1" "third"%string chat_two_messages = (Return true, r')
       /\ getChatHistory Some "s1" r' = (Return ["first"; "second"; "third"]%string, r')
       /\ chat_expiry r' !! chat_key "s1" = Some 86400%Z.
Proof.
  split; [reflexivity |]. split; [reflexivity |].
  destruct (chat_history_chronological env_flaky string Some Some None chat_two_messages
              "s1" "third"%string "third"%string ["first"; "second"]%string
              eq_refl eq_refl eq_refl eq_refl eq_refl)
    as (r' & Hadd & Hget & Httl & _).
  exists r'. split; [exact Hadd |]. split; [exact Hget | exact Httl].
Defined.

Example chat_sessions_listed :
  fst (getAllSessions chat_two_messages) = Return ["s1"%string].
Proof. vm_compute. reflexivity. Qed.

(** A negative time to live deletes the list that was just extended. *)
Example chat_negative_ttl :
  let '(o, r) := addToHistory env_flaky Some (Some (-1)%Z) "s1" "third"%string chat_two_messages in
  o = Return true /\ fst (getChatHistory Some "s1" r) = Return [].
Proof. vm_compute. split; reflexivity. Qed.

(** ** NewsIngestionService: the cleaning of feed texts
    (services/newsIngestion.js) *)

Module NewsIngestion.

(** The characters that the class [[^\x20-\x7E\u00A0-\u024F\u1E00-\u1EFF]]
    does not match: the ones that are kept. *)
Definition printable (c : N) : bool :=
  ((32 <=? c) && (c <=? 126) || (160 <=? c) && (c <=? 591)
   || (7680 <=? c) && (c <=? 7935))%N.

(** The argument is a string, or missing. *)
Definition cleanText (input : option text) : text :=
  match input with
  | Some (c :: s) =>
      trim (List.filter printable
              (replace_runs is_newline (replace_runs is_space (c :: s))))
  | _ => []
  end.

End NewsIngestion.

Section FeedTexts.

Lemma trimStart_Forall (P : N -> Prop) (s : text) : Forall P s -> Forall P (trimStart s).
Proof.
  induction 1 as [| c s Hc Hs IH]; simpl; [constructor |].
  destruct (is_space c); [exact IH | constructor; assumption].
Qed.

Lemma trimEnd_Forall (P : N -> Prop) (s : text) : Forall P s -> Forall P (trimEnd s).
Proof.
  induction 1 as [| c s Hc Hs IH]; simpl; [constructor |].
  destruct (trimEnd s) as [| d t].
  - destruct (is_space c); repeat constructor. exact Hc.
  - constructor; assumption.
Qed.

Lemma trim_Forall (P : N -> Prop) (s : text) : Forall P s -> Forall P (trim s).
Proof. intros H. apply trimEnd_Forall, trimStart_Forall, H. Qed.

Lemma trim_ends (s : text) :
  (forall c s', trim s = c :: s' -> is_space c = false)
  /\ (forall c s', trim s = s' ++ [c] -> is_space c = false).
Proof.
  unfold trim. split.
  - intros c s' E. destruct (trimEnd_head _ _ _ E) as [u Hu].
    exact (trimStart_head _ _ _ Hu).
  - intros c s' E. exact (trimEnd_last _ _ _ E).
Qed.

Lemma replace_runs_from_Forall (P : N -> Prop) (cls : N -> bool) (b : bool) (s : text) :
  P space -> Forall P s -> Forall P (replace_runs_from cls b s).
Proof.
  intros Hsp H. revert b. induction H as [| c s Hc Hs IH]; intros b; simpl; [constructor |].
  destruct (cls c); [destruct b |]; auto.
Qed.

Lemma printable_not_control (c : N) :
  NewsIngestion.printable c = true -> is_control c = false.
Proof.
  unfold NewsIngestion.printable, is_control. intros H.
  rewrite !orb_true_iff, !andb_true_iff, !N.leb_le in H.
  apply orb_false_iff. split; [apply N.ltb_ge | apply N.eqb_neq]; lia.
Qed.

Lemma prepareTextForEmbedding_Forall (P : N -> Prop) (s : text) (maxLength : Z) :
  P space -> P 46%N -> Forall P s ->
  Forall P (prepareTextForEmbedding (JsString s) maxLength).
Proof.
  intros Hsp Hdot H. unfold prepareTextForEmbedding.
  destruct s as [| c s]; [constructor |].
  assert (Hclean : Forall P (cleanText (c :: s))).
  { unfold cleanText. apply trim_Forall.
    apply replace_runs_from_Forall; [exact Hsp |].
    apply replace_runs_from_Forall; [exact Hsp | exact H]. }
  destruct (Z.ltb maxLength _); [| exact Hclean].
  apply Forall_app. split; [apply firstn_Forall, Hclean |].
  repeat constructor; exact Hdot.
Qed.

End FeedTexts.

(** X30. The cleaning of the news ingestion keeps only characters of its
    printable ranges, so no control character, and its result neither
    starts nor ends with white space. A text cleaned this way has no
    control character after [prepareTextForEmbedding] either, whatever
    the maximal length: it is here, not there, that control characters
    are removed. *)
Theorem feed_cleanText_printable (input : option text) (maxLength : Z) :
  let out := NewsIngestion.cleanText input in
  Forall (fun c => NewsIngestion.printable c = true) out
  /\ Forall (fun c => is_control c = false) out
  /\ (forall c s', out = c :: s' -> is_space c = false)
  /\ (forall c s', out = s' ++ [c] -> is_space c = false)
  /\ Forall (fun c => is_control c = false)
       (prepareTextForEmbedding (JsString out) maxLength).
Proof.
  cbv zeta.
  assert (Hp : Forall (fun c => NewsIngestion.printable c = true)
                 (NewsIngestion.cleanText input)).
  { destruct input as [[| c s] |]; try constructor.
    unfold NewsIngestion.cleanText. apply trim_Forall.
    apply List.Forall_forall. intros x Hx. apply List.filter_In in Hx. tauto. }
  assert (Hc : Forall (fun c => is_control c = false) (NewsIngestion.cleanText input)).
  { eapply List.Forall_impl; [| exact Hp]. exact printable_not_control. }
  split; [exact Hp |]. split; [exact Hc |].
  split; [| split].
  - destruct input as [[| c s] |]; try discriminate.
    unfold NewsIngestion.cleanText. apply trim_ends.
  - destruct input as [[| c s] |]; try (intros c' s' E; destruct s'; discriminate E).
    unfold NewsIngestion.cleanText. apply trim_ends.
  - apply (prepareTextForEmbedding_Forall (fun c => is_control c = false));
      [reflexivity | reflexivity | exact Hc].
Qed.

(** The control character that [prepareTextForEmbedding] keeps is removed
    by the cleaning of the feed texts, which can leave two spaces in a
    row where it stood. *)
Example feed_cleanText_control :
  NewsIngestion.cleanText (Some (lit "a " ++ [1%N] ++ lit " b")) = lit "a  b".
Proof. reflexivity. Qed.

(** *** Instances for the searches *)

Lemma search_results_unique_ids_witness :
  fallback ranking_world = true
  /\ NoDup (stored_ids ranking_world)
  /\ exists results,
       searchSimilar env_flaky (Some (numbers [1; 0]%float)) 3 0.25%float ranking_world
       = (Return results, ranking_world)
       /\ NoDup (map r_id results).
Proof.
  split; [reflexivity |]. split; [exact ranking_world_ids_unique |].
  exact (search_results_unique_ids env_flaky ranking_world (Some (numbers [1; 0]%float)) 3 0.25%float
           eq_refl ranking_world_ids_unique).
Defined.

Lemma search_limit_prefix_witness :
  fallback ranking_world = true
  /\ 2 <= 3
  /\ exists results results',
       searchSimilar env_flaky (Some (numbers [1; 0]%float)) 2 0.25%float ranking_world
       = (Return results, ranking_world)
       /\ searchSimilar env_flaky (Some (numbers [1; 0]%float)) 3 0.25%float ranking_world
          = (Return results', ranking_world)
       /\ results = firstn 2 results'.
Proof.
  assert (H : 2 <= 3) by lia.
  split; [reflexivity |]. split; [exact H |].
  exact (search_limit_prefix env_flaky ranking_world (Some (numbers [1; 0]%float)) 2 3 0.25%float
           eq_refl H).
Defined.
